(** * Lighter streaming client and precision manager: model and verification

    Shallow embedding of
    - [src/lighter_client/src/websocket_client.py] (class
      [LighterWebSocketClient]): connection life cycle, reconnection with
      exponential backoff, channel subscriptions and frame dispatch;
    - [src/lighter_client/src/precision_manager.py] (class
      [PrecisionManager]): market metadata lookup with default fallback,
      price and quantity formatting, tick-size adjustment.

    Python [dict]s are insertion-ordered maps and are modelled by
    association lists that keep the insertion order ([Dict]).  Coroutines
    are modelled sequentially: one call runs to completion, and every answer
    of the outside world (transport, timers, metadata service, callbacks) is
    an explicit argument of the function that consumes it.  What the client
    does to the outside world is recorded in a trace of events. *)

From Stdlib Require Import ZArith List String Ascii Bool Lia.
From Stdlib Require Import SpecFloat DecimalString.
From Stdlib Require Import Reals Lra.
Import ListNotations.
Local Open Scope Z_scope.
Local Open Scope string_scope.
Local Open Scope list_scope.

(** ** Insertion-ordered dictionaries *)

Class Key (K : Type) := {
  key_eqb : K -> K -> bool;
  key_eqb_spec : forall a b, reflect (a = b) (key_eqb a b)
}.

#[export] Instance Key_string : Key string :=
  {| key_eqb := String.eqb; key_eqb_spec := String.eqb_spec |}.

#[export] Instance Key_Z : Key Z :=
  {| key_eqb := Z.eqb; key_eqb_spec := Z.eqb_spec |}.

Module Dict.
Section Ops.
Context {K V : Type} `{Key K}.

Definition t := list (K * V).

(** [d.get(k)] *)
Fixpoint get (d : t) (k : K) : option V :=
  match d with
  | [] => None
  | (k', v) :: r => if key_eqb k' k then Some v else get r k
  end.

(** [k in d] *)
Definition mem (d : t) (k : K) : bool :=
  match get d k with Some _ => true | None => false end.

(** [d.get(k, dflt)] *)
Definition get_default (d : t) (k : K) (dflt : V) : V :=
  match get d k with Some v => v | None => dflt end.

(** [d[k] = v]: an existing key keeps its position, a new key goes last *)
Fixpoint set (d : t) (k : K) (v : V) : t :=
  match d with
  | [] => [(k, v)]
  | (k', v') :: r =>
      if key_eqb k' k then (k', v) :: r else (k', v') :: set r k v
  end.

(** [del d[k]] *)
Fixpoint del (d : t) (k : K) : t :=
  match d with
  | [] => []
  | (k', v') :: r => if key_eqb k' k then r else (k', v') :: del r k
  end.

Definition keys (d : t) : list K := map fst d.

(** the keys of a dictionary are pairwise different *)
Fixpoint nodup_keys (d : t) : bool :=
  match d with
  | [] => true
  | (k, _) :: r => negb (mem r k) && nodup_keys r
  end.
End Ops.
Arguments t : clear implicits.
End Dict.

(** ** Python string helpers *)

(** [c in s] for a one-character string [c] *)
Fixpoint contains (c : ascii) (s : string) : bool :=
  match s with
  | EmptyString => false
  | String a r => Ascii.eqb a c || contains c r
  end.

(** [s.split(sep)] for a one-character separator *)
Fixpoint split_on (sep : ascii) (s : string) : list string :=
  match s with
  | EmptyString => [EmptyString]
  | String a r =>
      if Ascii.eqb a sep then EmptyString :: split_on sep r
      else match split_on sep r with
           | h :: t => String a h :: t
           | [] => [String a EmptyString]
           end
  end.

(** [s.rstrip(c)] for a one-character string [c] *)
Fixpoint rstrip (c : ascii) (s : string) : string :=
  match s with
  | EmptyString => EmptyString
  | String a r =>
      match rstrip c r with
      | EmptyString => if Ascii.eqb a c then EmptyString else String a EmptyString
      | r' => String a r'
      end
  end.

(** [s.replace(a, b)] for one-character strings [a] and [b] *)
Fixpoint replace_char (a b : ascii) (s : string) : string :=
  match s with
  | EmptyString => EmptyString
  | String x r => String (if Ascii.eqb x a then b else x) (replace_char a b r)
  end.

(** the text after the first ["."] of [s], empty when there is none *)
Fixpoint after_point (s : string) : string :=
  match s with
  | EmptyString => EmptyString
  | String a r => if Ascii.eqb a "." then r else after_point r
  end.

(** the last character of [s] *)
Fixpoint last_char (s : string) : option ascii :=
  match s with
  | EmptyString => None
  | String a EmptyString => Some a
  | String _ r => last_char r
  end.

(** ** The WebSocket client *)

Module Ws.

(** A callback is a handle on a coroutine supplied by the caller; the client
    only stores it and awaits it. *)
Definition callback := nat.

(** A transport handle returned by [websockets.connect]. *)
Definition handle := nat.

(** An inbound frame after [json.loads]. *)
Inductive frame :=
| NotJson                       (* json.loads raises JSONDecodeError *)
| JsonOther                     (* valid JSON that is not an object *)
| Json (type_ : option string) (channel : option string) (data : nat).

(** An outbound message before [json.dumps]. *)
Record out_msg := { om_type : string; om_channel : option string }.

Definition subscribe_msg (channel : string) : out_msg :=
  {| om_type := "subscribe"; om_channel := Some channel |}.
Definition unsubscribe_msg (channel : string) : out_msg :=
  {| om_type := "unsubscribe"; om_channel := Some channel |}.
Definition pong_msg : out_msg := {| om_type := "pong"; om_channel := None |}.

Inductive level := Debug | Info | Warning | Error.

Inductive log_msg :=
| LogAlreadyConnected | LogConnecting | LogConnectOk | LogUnexpectedResponse
| LogConnectTimeout | LogConnectFailed | LogDisconnected | LogCloseFailed
| LogConnectionClosed | LogReceiveFailed | LogUnhandledType | LogJsonFailed
| LogProcessFailed | LogReconnectAttempt | LogReconnectExhausted
| LogNotConnected | LogSubscribeSent | LogSubscribeFailed
| LogNotSubscribed | LogUnsubscribeSent | LogUnsubscribeFailed
| LogResubscribeAll | LogHandshakeSeen | LogPongSent | LogPongFailed
| LogPongSeen | LogSubscribedAck | LogCallbackFailed.

(** What the client does to its environment, in order. *)
Inductive event :=
| EvOpen (url : string)                     (* websockets.connect(url) *)
| EvSend (h : handle) (m : out_msg)         (* websocket.send(json.dumps(m)) *)
| EvClose (h : handle)                      (* websocket.close() *)
| EvSleep (seconds : Z)                     (* asyncio.sleep(seconds) *)
| EvCreateTask                              (* create_task(_receive_messages()) *)
| EvSubscribe (channel_type identifier : string) (cb : callback)
                                            (* entry of subscribe(...) *)
| EvCallback (cb : callback) (tag : string) (f : frame)
                                            (* await cb(tag, data) *)
| EvLog (l : level) (m : log_msg).

Record Client := {
  ws_url : string;
  connected : bool;
  connecting : bool;
  reconnecting : bool;
  websocket : option handle;
  subscriptions : Dict.t string (Dict.t string (list callback));
  reconnect_attempts : Z;
  max_reconnect_attempts : Z;
  reconnect_delay : Z;
  max_reconnect_delay : Z
}.

(** [__init__] *)
Definition init (url : string) : Client := {|
  ws_url := url;
  connected := false;
  connecting := false;
  reconnecting := false;
  websocket := None;
  subscriptions :=
    [("order_book", []); ("trade", []); ("account_all", []); ("ticker", [])];
  reconnect_attempts := 0;
  max_reconnect_attempts := 5;
  reconnect_delay := 1;
  max_reconnect_delay := 30
|}.

Definition set_connected (b : bool) (c : Client) : Client :=
  {| ws_url := ws_url c; connected := b; connecting := connecting c;
     reconnecting := reconnecting c; websocket := websocket c;
     subscriptions := subscriptions c;
     reconnect_attempts := reconnect_attempts c;
     max_reconnect_attempts := max_reconnect_attempts c;
     reconnect_delay := reconnect_delay c;
     max_reconnect_delay := max_reconnect_delay c |}.

Definition set_connecting (b : bool) (c : Client) : Client :=
  {| ws_url := ws_url c; connected := connected c; connecting := b;
     reconnecting := reconnecting c; websocket := websocket c;
     subscriptions := subscriptions c;
     reconnect_attempts := reconnect_attempts c;
     max_reconnect_attempts := max_reconnect_attempts c;
     reconnect_delay := reconnect_delay c;
     max_reconnect_delay := max_reconnect_delay c |}.

Definition set_reconnecting (b : bool) (c : Client) : Client :=
  {| ws_url := ws_url c; connected := connected c; connecting := connecting c;
     reconnecting := b; websocket := websocket c;
     subscriptions := subscriptions c;
     reconnect_attempts := reconnect_attempts c;
     max_reconnect_attempts := max_reconnect_attempts c;
     reconnect_delay := reconnect_delay c;
     max_reconnect_delay := max_reconnect_delay c |}.

Definition set_websocket (w : option handle) (c : Client) : Client :=
  {| ws_url := ws_url c; connected := connected c; connecting := connecting c;
     reconnecting := reconnecting c; websocket := w;
     subscriptions := subscriptions c;
     reconnect_attempts := reconnect_attempts c;
     max_reconnect_attempts := max_reconnect_attempts c;
     reconnect_delay := reconnect_delay c;
     max_reconnect_delay := max_reconnect_delay c |}.

Definition set_subscriptions
  (s : Dict.t string (Dict.t string (list callback))) (c : Client) : Client :=
  {| ws_url := ws_url c; connected := connected c; connecting := connecting c;
     reconnecting := reconnecting c; websocket := websocket c;
     subscriptions := s;
     reconnect_attempts := reconnect_attempts c;
     max_reconnect_attempts := max_reconnect_attempts c;
     reconnect_delay := reconnect_delay c;
     max_reconnect_delay := max_reconnect_delay c |}.

Definition set_reconnect_attempts (n : Z) (c : Client) : Client :=
  {| ws_url := ws_url c; connected := connected c; connecting := connecting c;
     reconnecting := reconnecting c; websocket := websocket c;
     subscriptions := subscriptions c;
     reconnect_attempts := n;
     max_reconnect_attempts := max_reconnect_attempts c;
     reconnect_delay := reconnect_delay c;
     max_reconnect_delay := max_reconnect_delay c |}.

Definition set_reconnect_delay (n : Z) (c : Client) : Client :=
  {| ws_url := ws_url c; connected := connected c; connecting := connecting c;
     reconnecting := reconnecting c; websocket := websocket c;
     subscriptions := subscriptions c;
     reconnect_attempts := reconnect_attempts c;
     max_reconnect_attempts := max_reconnect_attempts c;
     reconnect_delay := n;
     max_reconnect_delay := max_reconnect_delay c |}.

(** *** A state, trace and exception monad for the coroutines *)

Inductive exn :=
| WebSocketClientError (channel_type : string).

Inductive outcome (A : Type) :=
| Ret (a : A)          (* the coroutine returned [a] *)
| Raise (e : exn)      (* the coroutine raised [e] *)
| OutOfFuel.           (* the model ran out of loop fuel *)
Arguments Ret {A} a.
Arguments Raise {A} e.
Arguments OutOfFuel {A}.

Definition M (A : Type) : Type := Client -> outcome A * Client * list event.

Definition ret {A} (a : A) : M A := fun c => (Ret a, c, []).

Definition bind {A B} (m : M A) (f : A -> M B) : M B :=
  fun c =>
    match m c with
    | (Ret a, c1, t1) =>
        match f a c1 with (r, c2, t2) => (r, c2, t1 ++ t2) end
    | (Raise e, c1, t1) => (Raise e, c1, t1)
    | (OutOfFuel, c1, t1) => (OutOfFuel, c1, t1)
    end.

Definition raise {A} (e : exn) : M A := fun c => (Raise e, c, []).
Definition get : M Client := fun c => (Ret c, c, []).
Definition modify (f : Client -> Client) : M unit := fun c => (Ret tt, f c, []).
Definition emit (e : event) : M unit := fun c => (Ret tt, c, [e]).
Definition log (l : level) (m : log_msg) : M unit := emit (EvLog l m).

(** [try: m except Exception: h] *)
Definition try_except {A} (m : M A) (h : exn -> M A) : M A :=
  fun c =>
    match m c with
    | (Raise e, c1, t1) =>
        match h e c1 with (r, c2, t2) => (r, c2, t1 ++ t2) end
    | r => r
    end.

Declare Scope ws_scope.
Delimit Scope ws_scope with ws.
Notation "x <- m ;; k" := (bind m (fun x => k))
  (at level 61, m at next level, right associativity) : ws_scope.
Notation "m ;; k" := (bind m (fun _ => k))
  (at level 61, right associativity) : ws_scope.
Local Open Scope ws_scope.

(** [for x in xs: body x] *)
Fixpoint for_each {A} (xs : list A) (body : A -> M unit) : M unit :=
  match xs with
  | [] => ret tt
  | x :: r => body x ;; for_each r body
  end.

(** *** Answers of the outside world *)

(** Result of awaiting [websocket.recv()]. *)
Inductive recv_result :=
| RecvFrame (f : frame)
| RecvTimeout             (* asyncio.TimeoutError from wait_for *)
| RecvClosed              (* websockets.exceptions.ConnectionClosed *)
| RecvError.              (* any other exception *)

(** What one call of [connect] meets: the result of [websockets.connect]
    ([None] when it raises), of the handshake [recv], whether [close] returns
    normally, and whether the [send] of a resubscription does, per channel. *)
Record connect_env := {
  ce_open : option handle;
  ce_handshake : recv_result;
  ce_close_ok : bool;
  ce_send_ok : string -> string -> bool
}.

(** What the processing of one frame meets: whether the [send] of a pong
    returns normally, and whether the i-th callback awaited raises. *)
Record frame_env := {
  fe_send_ok : bool;
  fe_callback_raises : nat -> bool
}.

(** *** The coroutines of [LighterWebSocketClient] *)

(** [disconnect] *)
Definition disconnect (close_ok : bool) : M unit :=
  modify (set_connected false) ;;
  modify (set_connecting false) ;;
  c <- get ;;
  match websocket c with
  | Some h =>
      emit (EvClose h) ;;
      (if close_ok then log Info LogDisconnected
       else log Error LogCloseFailed) ;;
      modify (set_websocket None)
  | None => ret tt
  end.

(** [self.subscriptions[channel_type][identifier].append(callback)], after
    creating the list when the identifier is new *)
Definition register (channel_type identifier : string) (cb : callback)
  (subs : Dict.t string (Dict.t string (list callback)))
  : Dict.t string (Dict.t string (list callback)) :=
  let inner := Dict.get_default subs channel_type [] in
  let inner1 :=
    if Dict.mem inner identifier then inner else Dict.set inner identifier [] in
  let cbs := Dict.get_default inner1 identifier [] in
  Dict.set subs channel_type (Dict.set inner1 identifier (cbs ++ [cb])).

(** [f"{channel_type}/{identifier}"] *)
Definition channel_name (channel_type identifier : string) : string :=
  (channel_type ++ "/" ++ identifier)%string.

(** [subscribe] *)
Definition subscribe (send_ok : bool) (channel_type identifier : string)
  (cb : callback) : M bool :=
  emit (EvSubscribe channel_type identifier cb) ;;
  c <- get ;;
  if negb (Dict.mem (subscriptions c) channel_type) then
    raise (WebSocketClientError channel_type)
  else if negb (connected c) then
    log Error LogNotConnected ;; ret false
  else
    match websocket c with
    | None =>
        (* self.websocket is None: the attribute access raises in the try *)
        log Error LogSubscribeFailed ;; ret false
    | Some h =>
        emit (EvSend h (subscribe_msg (channel_name channel_type identifier))) ;;
        if send_ok then
          log Info LogSubscribeSent ;;
          modify (fun c => set_subscriptions
                    (register channel_type identifier cb (subscriptions c)) c) ;;
          ret true
        else
          log Error LogSubscribeFailed ;; ret false
    end.

(** [unsubscribe] *)
Definition unsubscribe (send_ok : bool) (channel_type identifier : string)
  : M bool :=
  c <- get ;;
  if negb (Dict.mem (subscriptions c) channel_type) then
    raise (WebSocketClientError channel_type)
  else if negb (connected c) then
    log Error LogNotConnected ;; ret false
  else
    let inner := Dict.get_default (subscriptions c) channel_type [] in
    if negb (Dict.mem inner identifier) then
      log Warning LogNotSubscribed ;; ret false
    else
      match websocket c with
      | None => log Error LogUnsubscribeFailed ;; ret false
      | Some h =>
          emit (EvSend h
                  (unsubscribe_msg (channel_name channel_type identifier))) ;;
          if send_ok then
            log Info LogUnsubscribeSent ;;
            modify (fun c => set_subscriptions
                      (Dict.set (subscriptions c) channel_type
                         (Dict.del inner identifier)) c) ;;
            ret true
          else
            log Error LogUnsubscribeFailed ;; ret false
      end.

(** [_resubscribe_all].  The two loops walk the keys of the dictionaries and
    read the callback list of a key when they reach it, as iteration over
    the live [items()] views does: [subscribe] appends to the very list
    object the loop is looking at. *)
Definition resubscribe_all (send_ok : string -> string -> bool) : M unit :=
  log Info LogResubscribeAll ;;
  c0 <- get ;;
  for_each (Dict.keys (subscriptions c0)) (fun channel_type =>
    c1 <- get ;;
    for_each (Dict.keys (Dict.get_default (subscriptions c1) channel_type []))
      (fun identifier =>
         c2 <- get ;;
         match Dict.get_default
                 (Dict.get_default (subscriptions c2) channel_type [])
                 identifier [] with
         | cb :: _ =>
             _ <- subscribe (send_ok channel_type identifier)
                    channel_type identifier cb ;;
             ret tt
         | [] => ret tt
         end)).

(** [connect] *)
Definition connect (env : connect_env) : M bool :=
  c <- get ;;
  if connected c || connecting c then
    log Warning LogAlreadyConnected ;; ret (connected c)
  else
    modify (set_connecting true) ;;
    modify (set_reconnecting false) ;;
    log Info LogConnecting ;;
    emit (EvOpen (ws_url c)) ;;
    match ce_open env with
    | None =>
        log Error LogConnectFailed ;; disconnect (ce_close_ok env) ;; ret false
    | Some h =>
        modify (set_websocket (Some h)) ;;
        match ce_handshake env with
        | RecvFrame (Json type_ _ _) =>
            if match type_ with
               | Some ty => String.eqb ty "connected"
               | None => false
               end
            then
              try_except
                (modify (set_connected true) ;;
                 modify (set_connecting false) ;;
                 modify (set_reconnect_attempts 0) ;;
                 modify (set_reconnect_delay 1) ;;
                 log Info LogConnectOk ;;
                 emit EvCreateTask ;;
                 resubscribe_all (ce_send_ok env) ;;
                 ret true)
                (fun _ =>
                   log Error LogConnectFailed ;;
                   disconnect (ce_close_ok env) ;; ret false)
            else
              log Error LogUnexpectedResponse ;;
              disconnect (ce_close_ok env) ;; ret false
        | RecvTimeout =>
            log Error LogConnectTimeout ;;
            disconnect (ce_close_ok env) ;; ret false
        | RecvFrame NotJson | RecvFrame JsonOther | RecvClosed | RecvError =>
            log Error LogConnectFailed ;;
            disconnect (ce_close_ok env) ;; ret false
        end
    end.

(** The [while] loop of [_handle_disconnection].  [envs i] is what the i-th
    call of [connect] meets.  The loop test is the source's; [fuel] bounds
    the number of iterations. *)
Fixpoint reconnect_loop (fuel : nat) (envs : nat -> connect_env) (i : nat)
  : M unit :=
  c <- get ;;
  if (reconnect_attempts c <? max_reconnect_attempts c)%Z then
    match fuel with
    | O => fun c => (OutOfFuel, c, [])
    | S fuel' =>
        modify (set_reconnect_attempts (reconnect_attempts c + 1)) ;;
        log Info LogReconnectAttempt ;;
        emit (EvSleep (reconnect_delay c)) ;;
        ok <- connect (envs i) ;;
        if ok then
          modify (set_reconnecting false) ;; ret tt
        else
          c' <- get ;;
          modify (set_reconnect_delay
                    (Z.min (reconnect_delay c' * 2) (max_reconnect_delay c'))) ;;
          reconnect_loop fuel' envs (S i)
    end
  else
    log Error LogReconnectExhausted ;;
    modify (set_reconnecting false) ;;
    ret tt.

(** [_handle_disconnection].  A failed [connect] leaves the attempt counter
    alone, so the loop body runs at most [max - attempts] times. *)
Definition handle_disconnection (envs : nat -> connect_env) : M unit :=
  c <- get ;;
  if reconnecting c then ret tt
  else
    modify (set_reconnecting true) ;;
    reconnect_loop
      (Z.to_nat (max_reconnect_attempts c - reconnect_attempts c)) envs 0.

(** *** Message routing *)

(** The handlers of the [message_handlers] table.  The eight channel
    handlers have the same body up to the channel type and the event tag. *)
Inductive handler :=
| HConnected
| HPing
| HPong
| HChannel (channel_type tag : string).

(** [self.message_handlers.get(message_type)] *)
Definition message_handlers (message_type : option string) : option handler :=
  match message_type with
  | None => None
  | Some ty =>
      if String.eqb ty "connected" then Some HConnected
      else if String.eqb ty "ping" then Some HPing
      else if String.eqb ty "pong" then Some HPong
      else if String.eqb ty "subscribed/order_book"
        then Some (HChannel "order_book" "subscribed")
      else if String.eqb ty "update/order_book"
        then Some (HChannel "order_book" "update")
      else if String.eqb ty "subscribed/trade"
        then Some (HChannel "trade" "subscribed")
      else if String.eqb ty "update/trade"
        then Some (HChannel "trade" "update")
      else if String.eqb ty "subscribed/account_all"
        then Some (HChannel "account_all" "subscribed")
      else if String.eqb ty "update/account_all"
        then Some (HChannel "account_all" "update")
      else if String.eqb ty "subscribed/ticker"
        then Some (HChannel "ticker" "subscribed")
      else if String.eqb ty "update/ticker"
        then Some (HChannel "ticker" "update")
      else None
  end.

(** [for callback in callbacks: try: await callback(tag, data) except ...];
    [i] is the position of the first callback of [cbs] in the whole list. *)
Fixpoint run_callbacks (raises : nat -> bool) (tag : string) (f : frame)
  (i : nat) (cbs : list callback) : M unit :=
  match cbs with
  | [] => ret tt
  | cb :: r =>
      emit (EvCallback cb tag f) ;;
      (if raises i then log Error LogCallbackFailed else ret tt) ;;
      run_callbacks raises tag f (S i) r
  end.

(** [_handle_subscribed_*] and [_handle_update_*] *)
Definition handle_channel (fe : frame_env) (channel_type tag : string)
  (f : frame) (channel : option string) : M unit :=
  let ch := match channel with Some s => s | None => "" end in
  if contains ":" ch then
    let identifier := nth 1 (split_on ":" ch) "" in
    (if String.eqb tag "subscribed" then log Info LogSubscribedAck
     else ret tt) ;;
    c <- get ;;
    match Dict.get (subscriptions c) channel_type with
    | None => log Error LogProcessFailed   (* KeyError, caught by the caller *)
    | Some inner =>
        run_callbacks (fe_callback_raises fe) tag f 0
          (Dict.get_default inner identifier [])
    end
  else ret tt.

(** [_handle_ping] *)
Definition handle_ping (fe : frame_env) : M unit :=
  c <- get ;;
  match websocket c with
  | None => log Error LogPongFailed
  | Some h =>
      emit (EvSend h pong_msg) ;;
      if fe_send_ok fe then log Debug LogPongSent
      else log Error LogPongFailed
  end.

(** [_process_message] *)
Definition process_message (fe : frame_env) (f : frame) : M unit :=
  match f with
  | NotJson => log Error LogJsonFailed
  | JsonOther => log Error LogProcessFailed
  | Json type_ channel _ =>
      match message_handlers type_ with
      | Some HConnected => log Debug LogHandshakeSeen
      | Some HPing => handle_ping fe
      | Some HPong => log Debug LogPongSeen
      | Some (HChannel channel_type tag) =>
          handle_channel fe channel_type tag f channel
      | None => log Debug LogUnhandledType
      end
  end.

(** What the receive loop gets from one [await self.websocket.recv()]. *)
Inductive recv_input :=
| InFrame (f : frame) (fe : frame_env)
| InError
| InClosed (envs : nat -> connect_env).

(** The [except ConnectionClosed] branch of [_receive_messages]: the
    transport was closed under the client. *)
Definition on_connection_closed (envs : nat -> connect_env) : M unit :=
  log Warning LogConnectionClosed ;;
  modify (set_connected false) ;;
  handle_disconnection envs.

(** [_receive_messages], run on the inputs that arrive; when they are used
    up the task stays suspended in [recv]. *)
Fixpoint receive_messages (inputs : list recv_input) : M unit :=
  c <- get ;;
  if connected c && match websocket c with Some _ => true | None => false end
  then
    match inputs with
    | [] => ret tt
    | InFrame f fe :: rest => process_message fe f ;; receive_messages rest
    | InError :: rest => log Error LogReceiveFailed ;; receive_messages rest
    | InClosed envs :: _ => on_connection_closed envs
    end
  else ret tt.

(** *** Observations on states and traces *)

Definition registry := Dict.t string (Dict.t string (list callback)).

(** the callback list of a channel in a registry *)
Definition lookup (s : registry) (channel_type identifier : string)
  : option (list callback) :=
  match Dict.get s channel_type with
  | Some inner => Dict.get inner identifier
  | None => None
  end.

(** The callback list registered for a channel, if the channel has an entry. *)
Definition callbacks_of (c : Client) (channel_type identifier : string)
  : option (list callback) :=
  lookup (subscriptions c) channel_type identifier.

Definition channel_types : list string :=
  ["order_book"; "trade"; "account_all"; "ticker"].

(** The registry has its four channel types and no key twice. *)
Definition wf (c : Client) : bool :=
  (if list_eq_dec string_dec (Dict.keys (subscriptions c)) channel_types
   then true else false)
  && forallb (fun kv => Dict.nodup_keys (snd kv)) (subscriptions c).

(** The connection state of the specification, read off the flags. *)
Inductive state := DISCONNECTED | CONNECTING | CONNECTED | RECONNECTING.

Definition state_of (c : Client) : state :=
  if connected c then CONNECTED
  else if connecting c then CONNECTING
  else if reconnecting c then RECONNECTING
  else DISCONNECTED.

Definition sleeps (t : list event) : list Z :=
  flat_map (fun e => match e with EvSleep d => [d] | _ => [] end) t.

Definition opens (t : list event) : nat :=
  List.length
    (filter (fun e => match e with EvOpen _ => true | _ => false end) t).

Definition is_send (e : event) : bool :=
  match e with EvSend _ _ => true | _ => false end.

(** [e] is the send of a subscribe command for the channel *)
Definition is_subscribe_send (channel_type identifier : string) (e : event)
  : bool :=
  match e with
  | EvSend _ m =>
      String.eqb (om_type m) "subscribe"
      && match om_channel m with
         | Some ch => String.eqb ch (channel_name channel_type identifier)
         | None => false
         end
  | _ => false
  end.

(** [e] is a call of [subscribe] for the channel *)
Definition is_subscribe_call (channel_type identifier : string) (e : event)
  : bool :=
  match e with
  | EvSubscribe ct id _ => String.eqb ct channel_type && String.eqb id identifier
  | _ => false
  end.

Definition is_callback_of (cb : callback) (e : event) : bool :=
  match e with
  | EvCallback cb' _ _ => Nat.eqb cb' cb
  | _ => false
  end.

Definition count (p : event -> bool) (t : list event) : nat :=
  List.length (filter p t).

(** [connect] fails at the handshake: the transport cannot be opened, or the
    first frame is not an object of type ["connected"] (time-out, closure,
    malformed or unexpected frame). *)
Definition handshake_fails (env : connect_env) : bool :=
  match ce_open env with
  | None => true
  | Some _ =>
      match ce_handshake env with
      | RecvFrame (Json (Some ty) _ _) => negb (String.eqb ty "connected")
      | _ => true
      end
  end.

(** *** Runs and reference descriptions used by the proofs *)

(** The call [m] in state [c] returns a value, and the value, the final
    state and the trace satisfy [Q]. *)
Definition returns {A} (m : M A) (c : Client)
  (Q : A -> Client -> list event -> Prop) : Prop :=
  exists a c' t, m c = (Ret a, c', t) /\ Q a c' t.

(** The client after a failed [connect]: no transport, all flags down. *)
Definition torn_down (c : Client) : Client :=
  {| ws_url := ws_url c; connected := false; connecting := false;
     reconnecting := false; websocket := None;
     subscriptions := subscriptions c;
     reconnect_attempts := reconnect_attempts c;
     max_reconnect_attempts := max_reconnect_attempts c;
     reconnect_delay := reconnect_delay c;
     max_reconnect_delay := max_reconnect_delay c |}.

(** The client after a successful [connect] on handle [h] that left the
    registry [s]. *)
Definition established (h : handle) (s : Dict.t string (Dict.t string (list callback)))
  (c : Client) : Client :=
  {| ws_url := ws_url c; connected := true; connecting := false;
     reconnecting := false; websocket := Some h;
     subscriptions := s;
     reconnect_attempts := 0;
     max_reconnect_attempts := max_reconnect_attempts c;
     reconnect_delay := 1;
     max_reconnect_delay := max_reconnect_delay c |}.

(** [c'] is [c] up to the registry. *)
Definition same_but_subscriptions (c c' : Client) : Prop :=
  c' = set_subscriptions (subscriptions c') c.

(** The delays of [n] reconnection attempts that all fail, from the delay
    [delay] on. *)
Fixpoint backoff (n : nat) (delay max_delay : Z) : list Z :=
  match n with
  | O => []
  | S k => delay :: backoff k (Z.min (delay * 2) max_delay) max_delay
  end.

(** The trace has no sleep, no opening and no closing of a transport. *)
Definition quiet (t : list event) : Prop :=
  Forall (fun e => match e with
                   | EvSleep _ | EvOpen _ | EvClose _ => False
                   | _ => True
                   end) t.

(** A disconnection: the user calls [disconnect], or the transport is closed
    under the receive loop. *)
Inductive disconnection :=
| UserDisconnect (close_ok : bool)
| TransportLoss (envs : nat -> connect_env).

Definition run_disconnection (d : disconnection) : M unit :=
  match d with
  | UserDisconnect close_ok => disconnect close_ok
  | TransportLoss envs => on_connection_closed envs
  end.

(** Every channel type of [s] is one of [s'], and every entry of [s] is an
    entry of [s'] whose callback list starts with the one of [s]. *)
Definition preserved (s s' : registry) : Prop :=
  (forall channel_type,
      Dict.mem s channel_type = true -> Dict.mem s' channel_type = true)
  /\ (forall channel_type identifier cbs,
         lookup s channel_type identifier = Some cbs ->
         exists more,
           lookup s' channel_type identifier = Some (cbs ++ more)).

(** The frame is routed to the callbacks of the channel with event tag
    [tag]: its type selects the handler of the channel type, and the text
    between the first and the second colon of its [channel] field is the
    identifier. *)
Definition delivered_on (channel_type identifier tag : string) (f : frame)
  : bool :=
  match f with
  | Json type_ (Some ch) _ =>
      match message_handlers type_ with
      | Some (HChannel ct tg) =>
          String.eqb ct channel_type && String.eqb tg tag
          && contains ":" ch
          && String.eqb (nth 1 (split_on ":" ch) "") identifier
      | _ => false
      end
  | _ => false
  end.

(** What [_resubscribe_all] does to one entry of the registry, and the
    events it produces for it, when the client is connected on handle [h]. *)
Definition resub_entry (send_ok : string -> string -> bool)
  (channel_type : string) (e : string * list callback)
  : string * list callback :=
  match snd e with
  | cb :: _ =>
      if send_ok channel_type (fst e) then (fst e, snd e ++ [cb]) else e
  | [] => e
  end.

Definition resub_events (h : handle) (send_ok : string -> string -> bool)
  (channel_type : string) (e : string * list callback) : list event :=
  match snd e with
  | cb :: _ =>
      [EvSubscribe channel_type (fst e) cb;
       EvSend h (subscribe_msg (channel_name channel_type (fst e)));
       if send_ok channel_type (fst e) then EvLog Info LogSubscribeSent
       else EvLog Error LogSubscribeFailed]
  | [] => []
  end.

Definition resub_registry (send_ok : string -> string -> bool) (s : registry)
  : registry :=
  map (fun kv => (fst kv, map (resub_entry send_ok (fst kv)) (snd kv))) s.

Definition resub_trace (h : handle) (send_ok : string -> string -> bool)
  (s : registry) : list event :=
  flat_map (fun kv => flat_map (resub_events h send_ok (fst kv)) (snd kv)) s.

(** the callback list of a channel after the resubscription *)
Definition resubscribed (ok : bool) (cbs : list callback) : list callback :=
  match cbs with
  | cb :: _ => if ok then cbs ++ [cb] else cbs
  | [] => []
  end.

(** the number of subscribe commands a resubscription owes a channel *)
Definition expects (channel_type identifier : string)
  (inner : Dict.t string (list callback)) : nat :=
  match Dict.get inner identifier with
  | Some (_ :: _) => 1%nat
  | _ => 0%nat
  end.

Definition expected (s : registry) (channel_type identifier : string) : nat :=
  match lookup s channel_type identifier with
  | Some (_ :: _) => 1%nat
  | _ => 0%nat
  end.

(** *** Sample environments and states *)

(** the server cannot be reached *)
Definition refused : connect_env :=
  {| ce_open := None; ce_handshake := RecvTimeout;
     ce_close_ok := true; ce_send_ok := fun _ _ => true |}.

(** the server is reached and sends nothing for five seconds *)
Definition silent (h : handle) : connect_env :=
  {| ce_open := Some h; ce_handshake := RecvTimeout;
     ce_close_ok := true; ce_send_ok := fun _ _ => true |}.

(** the server is reached and acknowledges the connection *)
Definition accepted (h : handle) : connect_env :=
  {| ce_open := Some h;
     ce_handshake := RecvFrame (Json (Some "connected") None 0);
     ce_close_ok := true; ce_send_ok := fun _ _ => true |}.

(** as [accepted], but every [send] raises *)
Definition rejecting (h : handle) : connect_env :=
  {| ce_open := Some h;
     ce_handshake := RecvFrame (Json (Some "connected") None 0);
     ce_close_ok := true; ce_send_ok := fun _ _ => false |}.

(** a disconnected client with two callbacks on one order book and one on a
    ticker *)
Definition subscribed_client : Client :=
  set_subscriptions
    [("order_book", [("1", [7; 8]%nat)]); ("trade", []);
     ("account_all", []); ("ticker", [("ETH", [9%nat])])]
    (init "wss://x").

(** *** Queries and further observations *)

(** [is_connected] *)
Definition is_connected (c : Client) : bool := connected c.

(** [get_subscription_count]: for every channel type, the number of
    identifiers that have an entry *)
Definition get_subscription_count (c : Client) : Dict.t string nat :=
  map (fun kv => (fst kv, List.length (snd kv))) (subscriptions c).

(** the callbacks awaited in a trace, in order *)
Definition callbacks_awaited (t : list event) : list callback :=
  flat_map (fun e => match e with EvCallback cb _ _ => [cb] | _ => [] end) t.

(** the messages handed to the transport in a trace, in order *)
Definition sends (t : list event) : list (handle * out_msg) :=
  flat_map (fun e => match e with EvSend h m => [(h, m)] | _ => [] end) t.

(** The steps of a reconnection that a trace shows, in the order in which
    they happen: the sleeps and the openings of a transport. *)
Inductive step :=
| Slept (seconds : Z)
| Opened.

Definition schedule (t : list event) : list step :=
  flat_map (fun e => match e with
                     | EvSleep d => [Slept d]
                     | EvOpen _ => [Opened]
                     | _ => []
                     end) t.

(** one attempt per delay, each after its sleep *)
Definition attempts_after (delays : list Z) : list step :=
  flat_map (fun d => [Slept d; Opened]) delays.

(** The [except ConnectionClosed] branch of [_receive_messages] from the
    moment [recv] raises up to the first suspension of
    [_handle_disconnection]: the sleep before the first attempt, or the end
    of the routine when no attempt is left. *)
Definition receive_task_wakes : M unit :=
  log Warning LogConnectionClosed ;;
  modify (set_connected false) ;;
  c <- get ;;
  if reconnecting c then ret tt
  else
    modify (set_reconnecting true) ;;
    if (reconnect_attempts c <? max_reconnect_attempts c)%Z then
      modify (set_reconnect_attempts (reconnect_attempts c + 1)) ;;
      log Info LogReconnectAttempt ;;
      emit (EvSleep (reconnect_delay c))
    else
      log Error LogReconnectExhausted ;;
      modify (set_reconnecting false).

(** [disconnect] called on a live connection, that is, while the receive
    task started by [connect] is suspended in [recv]: awaiting [close]
    (which returns normally) lets that task run, and it runs until it
    suspends again. *)
Definition disconnect_live : M unit :=
  modify (set_connected false) ;;
  modify (set_connecting false) ;;
  c <- get ;;
  match websocket c with
  | Some h =>
      emit (EvClose h) ;;
      receive_task_wakes ;;
      log Info LogDisconnected ;;
      modify (set_websocket None)
  | None => ret tt
  end.

End Ws.

(** ** Python floats and integers

    A Python [float] is an IEEE 754 binary64 number.  The carrier is the
    standard library's [spec_float]; every arithmetic operation returns the
    exact result rounded to the nearest binary64 number, ties to even, which
    is what CPython's float multiplication, [int]-to-[float] conversion and
    [int / int] true division compute. *)

Module PyFloat.
Local Open Scope Z_scope.

Definition float := spec_float.

Inductive pyexn := OverflowError | ValueError | ZeroDivisionError.

Inductive result (A : Type) :=
| Ok (a : A)
| Err (e : pyexn).
Arguments Ok {A} a.
Arguments Err {A} e.

(** the integer nearest to [n / d], ties to even, for [d > 0] *)
Definition round_half_even (n d : Z) : Z :=
  let q := n / d in
  let r := n mod d in
  match 2 * r ?= d with
  | Lt => q
  | Gt => q + 1
  | Eq => if Z.even q then q else q + 1
  end.

(** [floor (log2 (n / d))] for [n > 0] and [d > 0] *)
Definition floor_log2 (n d : Z) : Z :=
  let l := Z.log2 n - Z.log2 d in
  if d * 2 ^ Z.max l 0 <=? n * 2 ^ Z.max (- l) 0 then l else l - 1.

(** the binary64 number nearest to [(-1)^s * n / d], ties to even, for
    [n >= 0] and [d > 0]; the mantissa has 53 bits, the exponent of the last
    bit ranges over [-1074 .. 971] *)
Definition round_to_float (s : bool) (n d : Z) : float :=
  if n =? 0 then S754_zero s
  else
    let e := Z.max (floor_log2 n d - 52) (-1074) in
    let m := round_half_even (n * 2 ^ Z.max (- e) 0) (d * 2 ^ Z.max e 0) in
    let m' := if m =? 2 ^ 53 then 2 ^ 52 else m in
    let e' := if m =? 2 ^ 53 then e + 1 else e in
    match m' with
    | Zpos pm => if e' <=? 971 then S754_finite s pm e' else S754_infinity s
    | _ => S754_zero s
    end.

(** a decimal literal [n / 10^k], as in [0.001] *)
Definition literal (n : Z) (k : nat) : float :=
  round_to_float false n (10 ^ Z.of_nat k).

(** [float(z)] for an [int] [z] *)
Definition float_of_int (z : Z) : result float :=
  match round_to_float (z <? 0) (Z.abs z) 1 with
  | S754_infinity _ => Err OverflowError
  | x => Ok x
  end.

(** [x * y] on floats *)
Definition mul (x y : float) : float :=
  match x, y with
  | S754_nan, _ | _, S754_nan => S754_nan
  | S754_infinity sx, S754_infinity sy => S754_infinity (xorb sx sy)
  | S754_infinity sx, S754_finite sy _ _ => S754_infinity (xorb sx sy)
  | S754_finite sx _ _, S754_infinity sy => S754_infinity (xorb sx sy)
  | S754_infinity _, S754_zero _ | S754_zero _, S754_infinity _ => S754_nan
  | S754_finite sx _ _, S754_zero sy => S754_zero (xorb sx sy)
  | S754_zero sx, S754_finite sy _ _ => S754_zero (xorb sx sy)
  | S754_zero sx, S754_zero sy => S754_zero (xorb sx sy)
  | S754_finite sx mx ex, S754_finite sy my ey =>
      round_to_float (xorb sx sy)
        (Zpos mx * Zpos my * 2 ^ Z.max (ex + ey) 0) (2 ^ Z.max (- (ex + ey)) 0)
  end.

(** [x * z] for a float [x] and an [int] [z] *)
Definition mul_int (x : float) (z : Z) : result float :=
  match float_of_int z with
  | Ok y => Ok (mul x y)
  | Err e => Err e
  end.

(** [round(x)] with one argument: the nearest [int], ties to even *)
Definition round (x : float) : result Z :=
  match x with
  | S754_nan => Err ValueError
  | S754_infinity _ => Err OverflowError
  | S754_zero _ => Ok 0
  | S754_finite s m e =>
      let n := round_half_even (Zpos m * 2 ^ Z.max e 0) (2 ^ Z.max (- e) 0) in
      Ok (if s then - n else n)
  end.

(** [a / b] on [int]s: the quotient, correctly rounded *)
Definition int_true_div (a b : Z) : result float :=
  if b =? 0 then Err ZeroDivisionError
  else
    match round_to_float (xorb (a <? 0) (b <? 0)) (Z.abs a) (Z.abs b) with
    | S754_infinity _ => Err OverflowError
    | x => Ok x
    end.

(** [x < y] on floats *)
Definition lt (x y : float) : bool := SFltb x y.

(** [|x| * 10^p] rounded to the nearest integer, ties to even: the digits
    that fixed-point formatting with [p] decimals prints *)
Definition scaled_digits (m : positive) (e : Z) (p : nat) : Z :=
  round_half_even (Zpos m * 10 ^ Z.of_nat p * 2 ^ Z.max e 0)
    (2 ^ Z.max (- e) 0).

Definition digit (d : Z) : ascii := ascii_of_nat (48 + Z.to_nat d).

(** the [p] low-order decimal digits of [n], highest first *)
Fixpoint frac_digits (p : nat) (n : Z) : string :=
  match p with
  | O => EmptyString
  | S p' => (frac_digits p' (n / 10) ++ String (digit (n mod 10)) EmptyString)%string
  end.

(** the decimal digits of [n >= 0] *)
Definition int_digits (n : Z) : string :=
  NilZero.string_of_uint (N.to_uint (Z.to_N n)).

(** [n / 10^p] written with [p] decimals, for [n >= 0] *)
Definition fixed_digits (n : Z) (p : nat) : string :=
  match p with
  | O => int_digits n
  | S _ =>
      (int_digits (n / 10 ^ Z.of_nat p) ++ "." ++ frac_digits p n)%string
  end.

Definition sign_string (s : bool) : string := if s then "-" else "".

(** [f"{x:.{p}f}"] *)
Definition format_fixed (x : float) (p : nat) : string :=
  match x with
  | S754_nan => "nan"
  | S754_infinity s => (sign_string s ++ "inf")%string
  | S754_zero s => (sign_string s ++ fixed_digits 0 p)%string
  | S754_finite s m e =>
      (sign_string s ++ fixed_digits (scaled_digits m e p) p)%string
  end.

(** the real number a float stands for (0 for the values that are not
    numbers) *)
Definition value (x : float) : R :=
  match x with
  | S754_finite s m e =>
      ((if s then -1 else 1) * IZR (Zpos m) * powerRZ 2 e)%R
  | _ => 0%R
  end.

Definition is_finite (x : float) : bool :=
  match x with
  | S754_zero _ | S754_finite _ _ _ => true
  | _ => false
  end.

End PyFloat.

(** ** The precision manager *)

Module Precision.
Import PyFloat.

(** The fields that only [_parse_market_info] puts into a market record. *)
Record ListingFields := {
  market_type : string;
  base_asset_id : Z;
  quote_asset_id : Z;
  status : string;
  taker_fee : float;
  maker_fee : float
}.

(** The dictionary returned by [get_market_info].  A precision is a number
    of decimal digits. *)
Record Market := {
  symbol : string;
  market_id : Z;
  base_asset : string;
  quote_asset : string;
  price_precision : nat;
  quantity_precision : nat;
  min_quantity : float;
  min_notional : float;
  listing_fields : option ListingFields
}.

(** An attribute of an object of the metadata service that the code converts
    with [int(...)] or [float(...)]: it can be absent (the [getattr] default
    applies), present with a value the conversion rejects, or present with
    the converted value [a]. *)
Inductive attr (A : Type) :=
| Absent
| Invalid
| Present (a : A).
Arguments Absent {A}.
Arguments Invalid {A}.
Arguments Present {A} a.

(** An entry of [order_books().order_books]. *)
Record OrderBook := {
  ob_symbol : option string;
  ob_market_symbol : option string;
  ob_market_id : option Z;
  ob_supported_price_decimals : attr nat;
  ob_supported_size_decimals : attr nat;
  ob_min_base_amount : attr float;
  ob_min_quote_amount : attr float;
  ob_market_type : option string;
  ob_base_asset_id : option Z;
  ob_quote_asset_id : option Z;
  ob_status : option string;
  ob_taker_fee : attr float;
  ob_maker_fee : attr float
}.

(** The object returned by [order_book_details(market_id)]. *)
Record Details := {
  d_symbol : option string;
  d_market_id : option Z;
  d_base_asset : option string;
  d_quote_asset : option string;
  d_tick_size : option string;
  d_step_size : option string;
  d_min_order_size : attr float;
  d_min_notional_value : attr float
}.

(** What one call of [get_market_info] gets from the metadata service: the
    listing of its own call of [order_books()], the listing of the call made
    by [_symbol_to_market_id_from_api], and the answers of
    [order_book_details]; [None] stands for a raised exception. *)
Record meta_env := {
  me_order_books : option (list OrderBook);
  me_order_books_again : option (list OrderBook);
  me_order_book_details : Z -> option Details
}.

Record Manager := {
  precision_cache : Dict.t Z Market;
  symbol_to_market_id : Dict.t string Z
}.

(** [__init__] *)
Definition init : Manager :=
  {| precision_cache := []; symbol_to_market_id := [] |}.

(** [conv(getattr(o, name, dflt))]; [None] when the conversion raises *)
Definition convert {A} (a : attr A) (dflt : A) : option A :=
  match a with
  | Absent => Some dflt
  | Invalid => None
  | Present v => Some v
  end.

Definition getattr {A} (a : option A) (dflt : A) : A :=
  match a with Some v => v | None => dflt end.

(** [_parse_market_info]; [None] when a conversion raises *)
Definition parse_market_info (ob : OrderBook) : option Market :=
  let mtype := getattr (ob_market_type ob) "perp" in
  let quote := if String.eqb mtype "spot" then "USDC" else "USD" in
  match convert (ob_supported_price_decimals ob) 2%nat,
        convert (ob_supported_size_decimals ob) 4%nat,
        convert (ob_min_base_amount ob) (literal 1 3),
        convert (ob_min_quote_amount ob) (literal 100 1),
        convert (ob_taker_fee ob) (literal 0 4),
        convert (ob_maker_fee ob) (literal 0 4) with
  | Some pp, Some qp, Some minq, Some minn, Some tf, Some mf =>
      Some {| symbol := getattr (ob_symbol ob) "UNKNOWN";
              market_id := getattr (ob_market_id ob) 0;
              base_asset := getattr (ob_symbol ob) "UNKNOWN";
              quote_asset := quote;
              price_precision := pp;
              quantity_precision := qp;
              min_quantity := minq;
              min_notional := minn;
              listing_fields :=
                Some {| market_type := mtype;
                        base_asset_id := getattr (ob_base_asset_id ob) 0;
                        quote_asset_id := getattr (ob_quote_asset_id ob) 0;
                        status := getattr (ob_status ob) "unknown";
                        taker_fee := tf;
                        maker_fee := mf |} |}
  | _, _, _, _, _, _ => None
  end.

(** [_extract_precision] *)
Definition extract_precision (tick_size : string) : nat :=
  if negb (contains "." tick_size) then 0%nat
  else String.length (rstrip "0" (nth 1 (split_on "." tick_size) "")).

(** [_parse_market_details]; [None] when a conversion raises *)
Definition parse_market_details (d : Details) : option Market :=
  match convert (d_min_order_size d) (literal 1 3),
        convert (d_min_notional_value d) (literal 100 1) with
  | Some minq, Some minn =>
      Some {| symbol := getattr (d_symbol d) "UNKNOWN";
              market_id := getattr (d_market_id d) 0;
              base_asset := getattr (d_base_asset d) "";
              quote_asset := getattr (d_quote_asset d) "";
              price_precision :=
                extract_precision (getattr (d_tick_size d) "0.01");
              quantity_precision :=
                extract_precision (getattr (d_step_size d) "0.001");
              min_quantity := minq;
              min_notional := minn;
              listing_fields := None |}
  | _, _ => None
  end.

(** the [default_precisions] table of [_get_default_precision] *)
Definition default_precisions : Dict.t string (nat * nat) :=
  [("BTC-USDT", (2, 6)); ("ETH-USDT", (2, 4)); ("SOL-USDT", (3, 2))]%nat.

(** [_get_default_precision] *)
Definition get_default_precision (sym : string) : Market :=
  let precision := Dict.get_default default_precisions sym (2, 4)%nat in
  {| symbol := sym;
     market_id := 0;
     base_asset := nth 0 (split_on "-" sym) "";
     quote_asset :=
       if contains "-" sym then nth 1 (split_on "-" sym) "" else "USDT";
     price_precision := fst precision;
     quantity_precision := snd precision;
     min_quantity := literal 1 3;
     min_notional := literal 100 1;
     listing_fields := None |}.

(** the first entry of the listing whose [symbol] attribute is [sym] *)
Definition find_symbol (sym : string) (l : list OrderBook) : option OrderBook :=
  find (fun ob => match ob_symbol ob with
                  | Some s => String.eqb s sym
                  | None => false
                  end) l.

(** The loop of [_symbol_to_market_id_from_api] from the entry [ob] on.  The
    outer [option] is [None] when reading [market_id] raises. *)
Fixpoint scan_market_id (sym : string) (l : list OrderBook)
  : option (option Z) :=
  match l with
  | [] => Some None
  | ob :: r =>
      if match ob_symbol ob with
         | Some s => String.eqb s sym
         | None => false
         end
      then match ob_market_id ob with
           | Some id => Some (Some id)
           | None => None
           end
      else if match ob_market_symbol ob with
              | Some ms => String.eqb (replace_char "/" "-" ms) sym
              | None => false
              end
      then match ob_market_id ob with
           | Some id => Some (Some id)
           | None => None
           end
      else scan_market_id sym r
  end.

(** [_symbol_to_market_id_from_api]: every exception gives [None] *)
Definition symbol_to_market_id_from_api (env : meta_env) (sym : string)
  : option Z :=
  match me_order_books_again env with
  | None => None
  | Some l =>
      match scan_market_id sym l with
      | Some r => r
      | None => None
      end
  end.

(** [symbol.split('-')[0] if '-' in symbol else symbol] *)
Definition base_symbol (sym : string) : string :=
  if contains "-" sym then nth 0 (split_on "-" sym) "" else sym.

(** The [try] block of [get_market_info] after the cache check: the market
    and its identifier, or [None] when an exception is raised. *)
Definition lookup (env : meta_env) (sym : string) : option (Z * Market) :=
  match me_order_books env with
  | None => None
  | Some l =>
      let from_entry ob :=
        match ob_market_id ob, parse_market_info ob with
        | Some id, Some info => Some (id, info)
        | _, _ => None
        end in
      match find_symbol sym l with
      | Some ob => from_entry ob
      | None =>
          match find_symbol (base_symbol sym) l with
          | Some ob => from_entry ob
          | None =>
              match symbol_to_market_id_from_api env sym with
              | None => None           (* raise PrecisionManagerError *)
              | Some id =>
                  match me_order_book_details env id with
                  | None => None
                  | Some d =>
                      match parse_market_details d with
                      | Some info => Some (id, info)
                      | None => None
                      end
                  end
              end
          end
      end
  end.

(** the cached market of a symbol, as the first lines of [get_market_info]
    read it *)
Definition cached (m : Manager) (sym : string) : option Market :=
  match Dict.get (symbol_to_market_id m) sym with
  | Some id => Dict.get (precision_cache m) id
  | None => None
  end.

(** [get_market_info]: the returned market and the manager afterwards *)
Definition get_market_info (env : meta_env) (m : Manager) (sym : string)
  : Market * Manager :=
  match cached m sym with
  | Some info => (info, m)
  | None =>
      match lookup env sym with
      | Some (id, info) =>
          (info,
           {| precision_cache := Dict.set (precision_cache m) id info;
              symbol_to_market_id := Dict.set (symbol_to_market_id m) sym id |})
      | None => (get_default_precision sym, m)
      end
  end.

(** [self._precision_cache.get(self._symbol_to_market_id.get(symbol, 0),
    self._get_default_precision(symbol))] *)
Definition resolve (m : Manager) (sym : string) : Market :=
  Dict.get_default (precision_cache m)
    (Dict.get_default (symbol_to_market_id m) sym 0)
    (get_default_precision sym).

(** [formatted.rstrip('0').rstrip('.') if '.' in formatted else formatted] *)
Definition strip_zeros (formatted : string) : string :=
  if contains "." formatted then rstrip "." (rstrip "0" formatted)
  else formatted.

(** [format_price] *)
Definition format_price (m : Manager) (price : float) (sym : string) : string :=
  let market_info := resolve m sym in
  strip_zeros (format_fixed price (price_precision market_info)).

(** [format_quantity] *)
Definition format_quantity (m : Manager) (quantity : float) (sym : string)
  : string :=
  let market_info := resolve m sym in
  let quantity :=
    if lt quantity (min_quantity market_info) then min_quantity market_info
    else quantity in
  strip_zeros (format_fixed quantity (quantity_precision market_info)).

(** [round(price * factor)] with [factor = 10 ** precision] *)
Definition ticks (price : float) (precision : nat) : result Z :=
  match mul_int price (10 ^ Z.of_nat precision)%Z with
  | Err e => Err e
  | Ok scaled => round scaled
  end.

(** [round(price * factor) / factor] *)
Definition adjust (price : float) (precision : nat) : result float :=
  match ticks price precision with
  | Err e => Err e
  | Ok n => int_true_div n (10 ^ Z.of_nat precision)%Z
  end.

(** The value printed with [p] decimals is a whole number. *)
Definition prints_integral (x : float) (p : nat) : bool :=
  match x with
  | S754_zero _ => true
  | S754_finite _ m e => (scaled_digits m e p mod 10 ^ Z.of_nat p =? 0)%Z
  | _ => false
  end.

(** [adjust_to_tick_size] *)
Definition adjust_to_tick_size (m : Manager) (price : float) (sym : string)
  : result float :=
  adjust price (price_precision (resolve m sym)).

(** A listing whose only market, ["FINE"], is quoted with 23 decimals, and
    the manager after [get_market_info] has looked that market up. *)
Definition fine_order_book : OrderBook :=
  {| ob_symbol := Some "FINE";
     ob_market_symbol := None;
     ob_market_id := Some 7;
     ob_supported_price_decimals := Present 23%nat;
     ob_supported_size_decimals := Absent;
     ob_min_base_amount := Absent;
     ob_min_quote_amount := Absent;
     ob_market_type := None;
     ob_base_asset_id := None;
     ob_quote_asset_id := None;
     ob_status := None;
     ob_taker_fee := Absent;
     ob_maker_fee := Absent |}.

Definition fine_env : meta_env :=
  {| me_order_books := Some [fine_order_book];
     me_order_books_again := None;
     me_order_book_details := fun _ => None |}.

Definition fine_manager : Manager :=
  snd (get_market_info fine_env init "FINE").

(** The loop of [refresh_cache].  When [_parse_market_info] raises, the loop
    is abandoned with the symbol already indexed. *)
Fixpoint refresh_loop (l : list OrderBook) (m : Manager) : Manager :=
  match l with
  | [] => m
  | ob :: r =>
      match ob_symbol ob, ob_market_id ob with
      | Some sym, Some id =>
          let index := Dict.set (symbol_to_market_id m) sym id in
          match parse_market_info ob with
          | Some info =>
              refresh_loop r
                {| precision_cache := Dict.set (precision_cache m) id info;
                   symbol_to_market_id := index |}
          | None =>
              {| precision_cache := precision_cache m;
                 symbol_to_market_id := index |}
          end
      | _, _ => refresh_loop r m
      end
  end.

(** [refresh_cache]; [listing] is the answer of [order_books()], [None] when
    it raises *)
Definition refresh_cache (listing : option (list OrderBook)) (m : Manager)
  : Manager :=
  match listing with
  | None => init
  | Some l => refresh_loop l init
  end.

(** Every indexed symbol has its market in the cache. *)
Definition consistent (m : Manager) : Prop :=
  forall sym id,
    Dict.get (symbol_to_market_id m) sym = Some id ->
    exists info, Dict.get (precision_cache m) id = Some info.

(** A listing with the market ["ETH"] under the identifier 0, and one whose
    entry for ["BAD"] carries a price precision that [int] rejects. *)
Definition eth_order_book : OrderBook :=
  {| ob_symbol := Some "ETH";
     ob_market_symbol := None;
     ob_market_id := Some 0;
     ob_supported_price_decimals := Present 3%nat;
     ob_supported_size_decimals := Present 4%nat;
     ob_min_base_amount := Absent;
     ob_min_quote_amount := Absent;
     ob_market_type := Some "perp";
     ob_base_asset_id := None;
     ob_quote_asset_id := None;
     ob_status := None;
     ob_taker_fee := Absent;
     ob_maker_fee := Absent |}.

Definition bad_order_book : OrderBook :=
  {| ob_symbol := Some "BAD";
     ob_market_symbol := None;
     ob_market_id := Some 5;
     ob_supported_price_decimals := Invalid;
     ob_supported_size_decimals := Absent;
     ob_min_base_amount := Absent;
     ob_min_quote_amount := Absent;
     ob_market_type := None;
     ob_base_asset_id := None;
     ob_quote_asset_id := None;
     ob_status := None;
     ob_taker_fee := Absent;
     ob_maker_fee := Absent |}.

Definition sample_env : meta_env :=
  {| me_order_books := Some [eth_order_book; bad_order_book];
     me_order_books_again := Some [eth_order_book; bad_order_book];
     me_order_book_details := fun _ => None |}.

(** the [symbol] or the [market_symbol] of the entry names [sym] *)
Definition names_symbol (sym : string) (ob : OrderBook) : Prop :=
  ob_symbol ob = Some sym
  \/ exists ms, ob_market_symbol ob = Some ms
                /\ replace_char "/" "-" ms = sym.

End Precision.

(** * Facts *)

(** ** Dictionaries *)

Module DictFacts.
Section Facts.
Context {K V : Type} `{Key K}.
Implicit Types (d : Dict.t K V) (k : K) (v : V).

Lemma eqb_refl k : key_eqb k k = true.
Proof. destruct (key_eqb_spec k k); congruence. Qed.

Lemma eqb_neq k k' : k <> k' -> key_eqb k k' = false.
Proof. intros; destruct (key_eqb_spec k k'); congruence. Qed.

Lemma eqb_eq k k' : key_eqb k k' = true -> k = k'.
Proof. destruct (key_eqb_spec k k'); congruence. Qed.

Lemma get_set_same d k v : Dict.get (Dict.set d k v) k = Some v.
Proof.
  induction d as [|[k' v'] r IH]; simpl.
  - now rewrite eqb_refl.
  - destruct (key_eqb k' k) eqn:E; simpl; rewrite E; auto.
Qed.

Lemma get_set_other d k k' v :
  k <> k' -> Dict.get (Dict.set d k v) k' = Dict.get d k'.
Proof.
  intros Hne; induction d as [|[k0 v0] r IH]; simpl.
  - now rewrite eqb_neq.
  - destruct (key_eqb k0 k) eqn:E; simpl.
    + apply eqb_eq in E; subst k0. now rewrite eqb_neq.
    + now rewrite IH.
Qed.

Lemma get_del_other d k k' :
  k <> k' -> Dict.get (Dict.del d k) k' = Dict.get d k'.
Proof.
  intros Hne; induction d as [|[k0 v0] r IH]; simpl; auto.
  destruct (key_eqb k0 k) eqn:E; simpl.
  - apply eqb_eq in E; subst k0. now rewrite eqb_neq.
  - now rewrite IH.
Qed.

Lemma mem_set d k k' v :
  Dict.mem (Dict.set d k v) k' = key_eqb k k' || Dict.mem d k'.
Proof.
  unfold Dict.mem. destruct (key_eqb_spec k k') as [->|Hne]; simpl.
  - now rewrite get_set_same.
  - now rewrite get_set_other.
Qed.

Lemma mem_keys d k : Dict.mem d k = true <-> In k (Dict.keys d).
Proof.
  unfold Dict.mem, Dict.keys.
  induction d as [|[k' v'] r IH]; simpl.
  - split; [discriminate | tauto].
  - destruct (key_eqb_spec k' k) as [->|Hne].
    + split; auto.
    + rewrite IH. split; [auto | intros [?|?]; congruence].
Qed.

Lemma get_app_r (d1 d2 : Dict.t K V) k :
  Dict.mem d1 k = false -> Dict.get (d1 ++ d2) k = Dict.get d2 k.
Proof.
  unfold Dict.mem. induction d1 as [|[k' v'] r IH]; simpl; auto.
  destruct (key_eqb k' k); [discriminate | auto].
Qed.

Lemma set_app_r (d1 d2 : Dict.t K V) k v v0 :
  Dict.mem d1 k = false ->
  Dict.set (d1 ++ (k, v0) :: d2) k v = d1 ++ (k, v) :: d2.
Proof.
  unfold Dict.mem. induction d1 as [|[k' v'] r IH]; simpl.
  - now rewrite eqb_refl.
  - destruct (key_eqb k' k); [discriminate | intros; f_equal; auto].
Qed.

Lemma mem_app (d1 d2 : Dict.t K V) k :
  Dict.mem (d1 ++ d2) k = Dict.mem d1 k || Dict.mem d2 k.
Proof.
  unfold Dict.mem. induction d1 as [|[k' v'] r IH]; simpl; auto.
  destruct (key_eqb k' k); auto.
Qed.

Lemma nodup_keys_app (d1 d2 : Dict.t K V) k v :
  Dict.nodup_keys (d1 ++ (k, v) :: d2) = true ->
  Dict.mem d1 k = false /\ Dict.mem d2 k = false
  /\ Dict.nodup_keys d2 = true.
Proof.
  induction d1 as [|[k' v'] r IH]; simpl.
  - rewrite andb_true_iff, negb_true_iff. tauto.
  - rewrite andb_true_iff, negb_true_iff, mem_app. intros [Hm Hn].
    apply orb_false_iff in Hm as [Hm1 Hm2].
    destruct (IH Hn) as (? & ? & ?). repeat split; auto.
    unfold Dict.mem in *; simpl in *.
    destruct (key_eqb_spec k' k) as [->|]; auto.
    now rewrite eqb_refl in Hm2.
Qed.

Lemma nodup_keys_NoDup d :
  Dict.nodup_keys d = true -> NoDup (Dict.keys d).
Proof.
  induction d as [|[k v] r IH]; simpl; [constructor|].
  rewrite andb_true_iff, negb_true_iff. intros [Hm Hn].
  constructor; auto. rewrite <- mem_keys. congruence.
Qed.

Lemma NoDup_nodup_keys d :
  NoDup (Dict.keys d) -> Dict.nodup_keys d = true.
Proof.
  induction d as [|[k v] r IH]; simpl; auto.
  inversion 1; subst. rewrite IH by auto.
  destruct (Dict.mem r k) eqn:E; auto.
  apply mem_keys in E. contradiction.
Qed.
End Facts.
End DictFacts.

(** ** The streaming client *)

Module WsFacts.
Import Ws DictFacts.
Local Open Scope ws_scope.

Ltac run := cbv [bind ret get modify emit log raise try_except].

Lemma preserved_refl s : preserved s s.
Proof.
  split; auto. intros ct id cbs E. exists []. now rewrite app_nil_r.
Qed.

Lemma preserved_trans s1 s2 s3 :
  preserved s1 s2 -> preserved s2 s3 -> preserved s1 s3.
Proof.
  intros [M1 L1] [M2 L2]. split; auto.
  intros ct id cbs E. destruct (L1 _ _ _ E) as [m1 E1].
  destruct (L2 _ _ _ E1) as [m2 E2]. exists (m1 ++ m2).
  now rewrite app_assoc.
Qed.

Lemma quiet_app a b : quiet a -> quiet b -> quiet (a ++ b).
Proof. intros; apply Forall_app; auto. Qed.

Lemma same_refl c : same_but_subscriptions c c.
Proof. now destruct c. Qed.

Lemma same_trans c1 c2 c3 :
  same_but_subscriptions c1 c2 -> same_but_subscriptions c2 c3 ->
  same_but_subscriptions c1 c3.
Proof.
  unfold same_but_subscriptions. intros E1 E2. rewrite E2, E1.
  now destruct c1.
Qed.

Lemma lookup_register_same ct id cb s :
  Dict.mem s ct = true ->
  lookup (register ct id cb s) ct id =
  Some (match lookup s ct id with Some l => l | None => [] end ++ [cb]).
Proof.
  unfold lookup, register, Dict.get_default, Dict.mem. intros Hm.
  rewrite get_set_same.
  destruct (Dict.get s ct) as [inner|]; [|discriminate].
  rewrite get_set_same.
  destruct (Dict.get inner id) eqn:E; [now rewrite E|].
  now rewrite get_set_same.
Qed.

Lemma lookup_register_other ct id cb s ct' id' :
  Dict.mem s ct = true -> ct <> ct' \/ id <> id' ->
  lookup (register ct id cb s) ct' id' = lookup s ct' id'.
Proof.
  unfold lookup, register, Dict.get_default, Dict.mem at 1. intros Hm Hne.
  destruct (String.eqb_spec ct ct') as [->|Hct].
  - rewrite get_set_same.
    destruct (Dict.get s ct') as [inner|]; [|discriminate].
    destruct Hne as [?|Hid]; [congruence|].
    rewrite get_set_other by auto.
    destruct (Dict.mem inner id); auto. now rewrite get_set_other.
  - now rewrite get_set_other.
Qed.

Lemma mem_register ct id cb s ct' :
  Dict.mem s ct' = true -> Dict.mem (register ct id cb s) ct' = true.
Proof.
  unfold register. rewrite mem_set. intros ->. apply orb_true_r.
Qed.

Lemma register_preserved ct id cb s :
  Dict.mem s ct = true -> preserved s (register ct id cb s).
Proof.
  intros Hm. split.
  - intros; now apply mem_register.
  - intros ct' id' cbs E.
    destruct (String.eqb_spec ct ct') as [->|Hct].
    + destruct (String.eqb_spec id id') as [->|Hid].
      * rewrite lookup_register_same, E by auto. now exists [cb].
      * rewrite lookup_register_other by auto. exists []. now rewrite app_nil_r.
    + rewrite lookup_register_other by auto. exists []. now rewrite app_nil_r.
Qed.

(** *** Rules for [returns] *)

Lemma returns_ret {A} (a : A) c Q : Q a c [] -> returns (ret a) c Q.
Proof. intros; exists a, c, []; auto. Qed.

Lemma returns_get c Q : Q c c [] -> returns get c Q.
Proof. intros; exists c, c, []; auto. Qed.

Lemma returns_modify f c Q : Q tt (f c) [] -> returns (modify f) c Q.
Proof. intros; exists tt, (f c), []; auto. Qed.

Lemma returns_emit e c Q : Q tt c [e] -> returns (emit e) c Q.
Proof. intros; exists tt, c, [e]; auto. Qed.

Lemma returns_log l m c Q : Q tt c [EvLog l m] -> returns (log l m) c Q.
Proof. apply returns_emit. Qed.

Lemma returns_bind {A B} (m : M A) (f : A -> M B) c Q :
  returns m c (fun a c1 t1 =>
    returns (f a) c1 (fun b c2 t2 => Q b c2 (t1 ++ t2))) ->
  returns (bind m f) c Q.
Proof.
  intros (a & c1 & t1 & E1 & b & c2 & t2 & E2 & HQ).
  exists b, c2, (t1 ++ t2). unfold bind. now rewrite E1, E2.
Qed.

Lemma returns_try {A} (m : M A) h c Q :
  returns m c Q -> returns (try_except m h) c Q.
Proof.
  intros (a & c1 & t1 & E1 & HQ). exists a, c1, t1.
  unfold try_except. now rewrite E1.
Qed.

Lemma returns_weaken {A} (m : M A) c (Q Q' : A -> Client -> list event -> Prop) :
  returns m c Q -> (forall a c' t, Q a c' t -> Q' a c' t) -> returns m c Q'.
Proof. intros (a & c1 & t1 & E1 & HQ) HI. exists a, c1, t1. auto. Qed.

Lemma returns_eq {A} (m : M A) c a c' t Q :
  m c = (Ret a, c', t) -> Q a c' t -> returns m c Q.
Proof. intros; exists a, c', t; auto. Qed.

Ltac mstep :=
  lazymatch goal with
  | |- returns (bind _ _) _ _ => apply returns_bind
  | |- returns (ret _) _ _ => apply returns_ret
  | |- returns get _ _ => apply returns_get
  | |- returns (modify _) _ _ => apply returns_modify
  | |- returns (log _ _) _ _ => apply returns_log
  | |- returns (emit _) _ _ => apply returns_emit
  | |- returns (try_except _ _) _ _ => apply returns_try
  end.
Ltac msteps := repeat (mstep; cbv beta).

Lemma subscribe_inv ok ct id cb c :
  Dict.mem (subscriptions c) ct = true ->
  returns (subscribe ok ct id cb) c (fun _ c' t =>
    same_but_subscriptions c c'
    /\ preserved (subscriptions c) (subscriptions c')
    /\ quiet t).
Proof.
  intros Hm. unfold subscribe. msteps. rewrite Hm. simpl.
  destruct (connected c); simpl; msteps.
  2:{ split; [apply same_refl|]. split; [apply preserved_refl|].
      repeat constructor. }
  destruct (websocket c); msteps.
  2:{ split; [apply same_refl|]. split; [apply preserved_refl|].
      repeat constructor. }
  destruct ok; msteps.
  - split; [now destruct c|]. simpl.
    split; [now apply register_preserved | repeat constructor].
  - split; [apply same_refl|]. split; [apply preserved_refl|].
    repeat constructor.
Qed.

(** A loop whose body keeps an invariant of the state and a property of the
    trace keeps them. *)
Lemma for_each_inv {A} (Inv : Client -> Prop) (T : list event -> Prop)
  (xs : list A) (body : A -> M unit) :
  T [] -> (forall a b, T a -> T b -> T (a ++ b)) ->
  (forall x c, In x xs -> Inv c ->
     returns (body x) c (fun _ c' t => Inv c' /\ T t)) ->
  forall c, Inv c ->
    returns (for_each xs body) c (fun _ c' t => Inv c' /\ T t).
Proof.
  intros Tnil Tapp. induction xs as [|x r IH]; intros Hbody c Hc; simpl.
  - mstep. auto.
  - mstep. eapply returns_weaken; [apply Hbody; simpl; auto|].
    cbv beta. intros _ c1 t1 [I1 T1].
    eapply returns_weaken; [apply IH; auto|].
    + intros; apply Hbody; simpl; auto.
    + cbv beta. intros _ c2 t2 [I2 T2]. auto.
Qed.

Lemma resubscribe_all_inv so c :
  returns (resubscribe_all so) c (fun _ c' t =>
    same_but_subscriptions c c'
    /\ preserved (subscriptions c) (subscriptions c')
    /\ quiet t).
Proof.
  set (Inv := fun c' => same_but_subscriptions c c'
                        /\ preserved (subscriptions c) (subscriptions c')).
  assert (I0 : Inv c) by (split; [apply same_refl | apply preserved_refl]).
  unfold resubscribe_all. msteps.
  eapply returns_weaken.
  - apply (for_each_inv Inv quiet); auto using quiet_app; [constructor|].
    intros ct c1 Hin I1. msteps.
    apply (for_each_inv Inv quiet); auto using quiet_app; [constructor|].
    intros id c2 _ [S2 P2]. msteps.
    destruct (Dict.get_default _ id []) as [|cb l]; msteps.
    + split; [now split | constructor].
    + eapply returns_weaken.
      * apply subscribe_inv. apply P2. now apply mem_keys.
      * cbv beta. intros _ c3 t3 (S3 & P3 & Q3). msteps.
        rewrite app_nil_r. split; [|assumption].
        split; eauto using same_trans, preserved_trans.
  - cbv beta. intros _ c' t [[S P] Q]. simpl.
    split; [assumption|]. split; [assumption|]. constructor; auto.
Qed.

Lemma disconnect_spec ok c :
  returns (disconnect ok) c (fun _ c' t =>
    c' = set_websocket None (set_connecting false (set_connected false c))
    /\ sleeps t = [] /\ opens t = 0%nat /\ count is_send t = 0%nat).
Proof.
  unfold disconnect. msteps. simpl.
  destruct c as [u cd cg rc [h|] s a ma d md]; simpl; msteps.
  - destruct ok; msteps; auto.
  - auto.
Qed.

(** *** Observations distribute over concatenation *)

Lemma sleeps_app a b : sleeps (a ++ b) = sleeps a ++ sleeps b.
Proof. apply flat_map_app. Qed.

Lemma count_app p a b : count p (a ++ b) = (count p a + count p b)%nat.
Proof. unfold count. now rewrite filter_app, length_app. Qed.

Lemma opens_app a b : opens (a ++ b) = (opens a + opens b)%nat.
Proof. unfold opens. now rewrite filter_app, length_app. Qed.

Create Rewrite HintDb trace.
#[local] Hint Rewrite sleeps_app count_app opens_app app_nil_r : trace.

Ltac trace_simpl := autorewrite with trace; simpl.

Lemma connect_fail env c :
  handshake_fails env = true ->
  connected c = false -> connecting c = false ->
  returns (connect env) c (fun b c' t =>
    b = false /\ c' = torn_down c
    /\ sleeps t = [] /\ opens t = 1%nat /\ count is_send t = 0%nat).
Proof.
  intros Hf Hc Hg. unfold connect. msteps. rewrite Hc, Hg. simpl.
  assert (Fail : forall m c0,
             torn_down c0 = torn_down c -> reconnecting c0 = false ->
             returns (log Error m ;; disconnect (ce_close_ok env) ;; ret false)
               c0 (fun b c2 t2 =>
                 b = false /\ c2 = torn_down c
                 /\ sleeps t2 = [] /\ opens t2 = 0%nat /\ count is_send t2 = 0%nat)).
  { intros m c0 E R. msteps.
    eapply returns_weaken; [apply disconnect_spec|]. cbv beta.
    intros _ c2 t2 (-> & S & O & N). msteps. trace_simpl.
    rewrite S, O, N. rewrite <- E.
    destruct c0; simpl in *; subst; auto. }
  msteps. unfold handshake_fails in Hf.
  destruct (ce_open env) as [h|].
  2:{ eapply returns_weaken; [apply Fail; now destruct c|]. cbv beta.
      intros b c2 t2 (-> & -> & S & O & N). trace_simpl.
      now rewrite S, O, N. }
  msteps.
  assert (Done : forall m,
             returns (log Error m ;; disconnect (ce_close_ok env) ;; ret false)
               (set_websocket (Some h)
                  (set_reconnecting false (set_connecting true c)))
               (fun b c2 t2 =>
                  b = false /\ c2 = torn_down c
                  /\ sleeps ([] ++ [] ++ [EvLog Info LogConnecting] ++
                             [EvOpen (ws_url c)] ++ [] ++ t2) = []
                  /\ opens ([] ++ [] ++ [EvLog Info LogConnecting] ++
                             [EvOpen (ws_url c)] ++ [] ++ t2) = 1%nat
                  /\ count is_send ([] ++ [] ++ [EvLog Info LogConnecting] ++
                             [EvOpen (ws_url c)] ++ [] ++ t2) = 0%nat)).
  { intros m. eapply returns_weaken; [apply Fail; now destruct c|]. cbv beta.
    intros b c2 t2 (-> & -> & S & O & N). trace_simpl. now rewrite S, O, N. }
  destruct (ce_handshake env) as [[| |ty ch dt]| | |]; auto.
  destruct ty as [ty|]; [apply negb_true_iff in Hf; rewrite Hf|]; auto.
Qed.

(** A connect that gets its handshake leaves the client connected, with the
    attempt counter and the delay reset. *)
Lemma connect_ok env c :
  handshake_fails env = false ->
  connected c = false -> connecting c = false ->
  returns (connect env) c (fun b c' t =>
    b = true
    /\ (exists h, ce_open env = Some h
                  /\ c' = established h (subscriptions c') c)
    /\ preserved (subscriptions c) (subscriptions c')
    /\ sleeps t = [] /\ opens t = 1%nat).
Proof.
  intros Hf Hc Hg. unfold connect. msteps. rewrite Hc, Hg. simpl.
  msteps. unfold handshake_fails in Hf.
  destruct (ce_open env) as [h|]; [|discriminate]. msteps.
  destruct (ce_handshake env) as [[| |[ty|] ch dt]| | |]; try discriminate.
  apply negb_false_iff in Hf. rewrite Hf. msteps.
  eapply returns_weaken; [apply resubscribe_all_inv|]. cbv beta.
  intros _ c' t (S & P & Q). msteps.
  split; [reflexivity|]. split; [|split; [exact P|]].
  - exists h. split; [reflexivity|].
    etransitivity; [exact S | now destruct c].
  - trace_simpl. assert (sleeps t = [] /\ opens t = 0%nat) as [-> ->]; auto.
    clear -Q. induction Q as [|e l He Hl [IH1 IH2]]; auto.
    destruct e; try contradiction; auto.
Qed.

(** Frames do not change the client; they cause no sleep and no opening. *)
Lemma run_callbacks_spec raises tag f cbs : forall i c,
  returns (run_callbacks raises tag f i cbs) c (fun _ c' t =>
    c' = c /\ sleeps t = [] /\ opens t = 0%nat
    /\ forall cb, count (is_callback_of cb) t = count_occ Nat.eq_dec cbs cb).
Proof.
  induction cbs as [|cb0 r IH]; intros i c; simpl; msteps.
  { repeat split; auto. }
  destruct (raises i); msteps;
    (eapply returns_weaken; [apply IH|]); cbv beta;
    intros _ c' t (-> & S & O & N); (split; [reflexivity|]);
    trace_simpl; rewrite S, O; (split; [reflexivity|]);
    (split; [reflexivity|]); intros cb; specialize (N cb);
    unfold count in *; simpl;
    (destruct (Nat.eq_dec cb0 cb) as [E|E];
     [rewrite (proj2 (Nat.eqb_eq _ _) E)
     |rewrite (proj2 (Nat.eqb_neq _ _) E)]); simpl; congruence.
Qed.

Lemma process_message_spec fe f c :
  returns (process_message fe f) c (fun _ c' t =>
    c' = c /\ sleeps t = [] /\ opens t = 0%nat).
Proof.
  unfold process_message. destruct f as [| |ty ch dt]; msteps; auto.
  destruct (message_handlers ty) as [[| | |ct tag]|]; msteps; auto.
  - unfold handle_ping. msteps. destruct (websocket c); msteps; auto.
    destruct (fe_send_ok fe); msteps; auto.
  - unfold handle_channel.
    destruct (contains ":" _); msteps; auto.
    assert (E : forall Q,
               Q tt c (if (tag =? "subscribed")%string
                       then [EvLog Info LogSubscribedAck] else []) ->
               returns (if (tag =? "subscribed")%string
                        then log Info LogSubscribedAck else ret tt) c Q).
    { intros Q HQ. destruct (tag =? "subscribed")%string; msteps; auto. }
    apply E. msteps.
    destruct (Dict.get (subscriptions c) ct) as [inner|]; msteps.
    + eapply returns_weaken; [apply run_callbacks_spec|]. cbv beta.
      intros _ c' t (-> & S & O & _). trace_simpl. rewrite S, O.
      destruct (tag =? "subscribed")%string; auto.
    + destruct (tag =? "subscribed")%string; auto.
Qed.

(** *** The reconnection routine *)

(** When every attempt fails at the handshake, the loop sleeps the backoff
    delays, opens one transport per attempt and gives up. *)
Lemma reconnect_loop_all_fail envs :
  (forall i, handshake_fails (envs i) = true) ->
  forall fuel i c,
    connected c = false -> connecting c = false ->
    (Z.to_nat (max_reconnect_attempts c - reconnect_attempts c) <= fuel)%nat ->
    returns (reconnect_loop fuel envs i) c (fun _ c' t =>
      let n := Z.to_nat (max_reconnect_attempts c - reconnect_attempts c) in
      sleeps t = backoff n (reconnect_delay c) (max_reconnect_delay c)
      /\ opens t = n
      /\ count is_send t = 0%nat
      /\ (exists t0, t = t0 ++ [EvLog Error LogReconnectExhausted])
      /\ connected c' = false /\ connecting c' = false
      /\ reconnecting c' = false
      /\ (n <> 0%nat \/ websocket c = None -> websocket c' = None)
      /\ reconnect_attempts c' = reconnect_attempts c + Z.of_nat n
      /\ subscriptions c' = subscriptions c).
Proof.
  intros Hall. induction fuel as [|fuel IH]; intros i c Hc Hg Hfuel;
    simpl; msteps.
  - destruct (Z.ltb_spec (reconnect_attempts c) (max_reconnect_attempts c));
      [lia|]. msteps. cbv zeta.
    replace (Z.to_nat _) with 0%nat by lia. simpl.
    repeat split; auto; try lia.
    + now exists [].
    + intros [?|?]; congruence.
  - destruct (Z.ltb_spec (reconnect_attempts c) (max_reconnect_attempts c)).
    2:{ msteps. cbv zeta. replace (Z.to_nat _) with 0%nat by lia. simpl.
        repeat split; auto; try lia.
        + now exists [].
        + intros [?|?]; congruence. }
    msteps.
    eapply returns_weaken; [apply connect_fail; auto|]. cbv beta.
    intros b c1 t1 (-> & -> & S1 & O1 & N1). msteps.
    eapply returns_weaken; [apply IH; auto|].
    { simpl. lia. }
    cbv beta zeta.
    intros _ c2 t2 (S2 & O2 & N2 & [t0 L2] & C2 & G2 & R2 & W2 & A2 & U2).
    autorewrite with trace. simpl in *.
    replace (Z.to_nat (max_reconnect_attempts c - reconnect_attempts c))
      with (S (Z.to_nat (max_reconnect_attempts c
                         - (reconnect_attempts c + 1)))) by lia.
    rewrite S1, O1, N1, S2, O2, N2. simpl.
    repeat split; auto; try lia.
    exists (EvLog Info LogReconnectAttempt :: EvSleep (reconnect_delay c)
            :: t1 ++ t0).
    rewrite L2. simpl. now rewrite app_assoc.
Qed.

(** A call of [connect] always returns; it removes no entry of the registry,
    and a failed call leaves the attempt counter alone. *)
Lemma connect_inv env c :
  returns (connect env) c (fun b c' _ =>
    preserved (subscriptions c) (subscriptions c')
    /\ max_reconnect_attempts c' = max_reconnect_attempts c
    /\ (b = false -> reconnect_attempts c' = reconnect_attempts c)).
Proof.
  unfold connect. msteps.
  destruct (connected c || connecting c); msteps.
  { auto using preserved_refl. }
  assert (Fail : forall m c0 (Q : bool -> Client -> list event -> Prop),
             subscriptions c0 = subscriptions c ->
             max_reconnect_attempts c0 = max_reconnect_attempts c ->
             reconnect_attempts c0 = reconnect_attempts c ->
             (forall b c2 t2,
                 preserved (subscriptions c) (subscriptions c2)
                 /\ max_reconnect_attempts c2 = max_reconnect_attempts c
                 /\ (b = false ->
                     reconnect_attempts c2 = reconnect_attempts c) ->
                 Q b c2 t2) ->
             returns (log Error m ;; disconnect (ce_close_ok env) ;; ret false)
               c0 Q).
  { intros m c0 Q Hs Hm Ha HQ. msteps.
    eapply returns_weaken; [apply disconnect_spec|]. cbv beta.
    intros _ c2 t2 (-> & _). msteps. apply HQ. simpl. rewrite Hs.
    auto using preserved_refl. }
  destruct (ce_open env) as [h|]; [|apply Fail; auto].
  msteps.
  destruct (ce_handshake env) as [[| |ty ch dt]| | |]; try (apply Fail; auto).
  destruct (match ty with Some ty0 => (ty0 =? "connected")%string | None => false end);
    [|apply Fail; auto].
  msteps.
  eapply returns_weaken; [apply resubscribe_all_inv|]. cbv beta.
  intros _ c' t (S & P & Q). msteps.
  split; [exact P|]. split; [|discriminate]. rewrite S. reflexivity.
Qed.

(** With fuel for the attempts that are left the loop returns, whatever the
    attempts meet, and no entry of the registry is lost. *)
Lemma reconnect_loop_inv envs : forall fuel i c,
  (Z.to_nat (max_reconnect_attempts c - reconnect_attempts c) <= fuel)%nat ->
  returns (reconnect_loop fuel envs i) c (fun _ c' _ =>
    preserved (subscriptions c) (subscriptions c')).
Proof.
  induction fuel as [|fuel IH]; intros i c Hfuel; simpl; msteps.
  - destruct (Z.ltb_spec (reconnect_attempts c) (max_reconnect_attempts c));
      [lia|]. msteps. apply preserved_refl.
  - destruct (Z.ltb_spec (reconnect_attempts c) (max_reconnect_attempts c));
      msteps; [|apply preserved_refl].
    eapply returns_weaken; [apply connect_inv|]. cbv beta.
    intros b c1 t1 (P1 & M1 & A1). destruct b; msteps; [exact P1|].
    eapply returns_weaken; [apply IH|].
    + simpl. rewrite M1, A1 by reflexivity. simpl. lia.
    + cbv beta. intros _ c2 _ P2. simpl in P2.
      eapply preserved_trans; [exact P1 | exact P2].
Qed.

Lemma handle_disconnection_inv envs c :
  returns (handle_disconnection envs) c (fun _ c' _ =>
    preserved (subscriptions c) (subscriptions c')).
Proof.
  unfold handle_disconnection. msteps.
  destruct (reconnecting c); msteps; [apply preserved_refl|].
  eapply returns_weaken; [apply reconnect_loop_inv; simpl; lia|].
  cbv beta. auto.
Qed.

Lemma run_disconnection_inv d c :
  returns (run_disconnection d) c (fun _ c' _ =>
    preserved (subscriptions c) (subscriptions c')).
Proof.
  destruct d as [ok|envs]; simpl.
  - eapply returns_weaken; [apply disconnect_spec|]. cbv beta.
    intros _ c' _ (-> & _). apply preserved_refl.
  - unfold on_connection_closed. msteps.
    eapply returns_weaken; [apply handle_disconnection_inv|].
    cbv beta. auto.
Qed.

(** *** The resubscription, entry by entry *)

Lemma set_subscriptions_twice s s' c :
  set_subscriptions s (set_subscriptions s' c) = set_subscriptions s c.
Proof. reflexivity. Qed.

Lemma set_subscriptions_same c : set_subscriptions (subscriptions c) c = c.
Proof. now destruct c. Qed.

Lemma subscribe_connected ok ct id cb c h :
  connected c = true -> websocket c = Some h ->
  Dict.mem (subscriptions c) ct = true ->
  subscribe ok ct id cb c =
    (Ret ok,
     (if ok then set_subscriptions (register ct id cb (subscriptions c)) c
      else c),
     [EvSubscribe ct id cb;
      EvSend h (subscribe_msg (channel_name ct id));
      if ok then EvLog Info LogSubscribeSent
      else EvLog Error LogSubscribeFailed]).
Proof.
  intros Hc Hw Hm. unfold subscribe.
  cbv [bind emit get raise log ret modify]. rewrite Hm, Hc, Hw. simpl.
  destruct ok; reflexivity.
Qed.

Lemma register_entry ct id cbs cb (s : registry) done rest :
  Dict.get s ct = Some (done ++ (id, cbs) :: rest) ->
  Dict.mem done id = false ->
  register ct id cb s =
    Dict.set s ct (done ++ (id, cbs ++ [cb]) :: rest).
Proof.
  intros Hs Hd. unfold register, Dict.get_default. rewrite Hs.
  assert (Hg : Dict.get (done ++ (id, cbs) :: rest) id = Some cbs).
  { rewrite get_app_r by auto. simpl. now rewrite String.eqb_refl. }
  assert (Hmem : Dict.mem (done ++ (id, cbs) :: rest) id = true).
  { unfold Dict.mem. now rewrite Hg. }
  rewrite Hmem, Hg. now rewrite set_app_r.
Qed.

Lemma set_set {V} (d : Dict.t string V) k v v' :
  Dict.set (Dict.set d k v) k v' = Dict.set d k v'.
Proof.
  induction d as [|[k0 v0] r IH]; simpl.
  - now rewrite String.eqb_refl.
  - destruct (String.eqb k0 k) eqn:E; simpl; rewrite E; congruence.
Qed.

Lemma set_get_same {V} (d : Dict.t string V) k v :
  Dict.get d k = Some v -> Dict.set d k v = d.
Proof.
  induction d as [|[k0 v0] r IH]; simpl; [discriminate|].
  destruct (String.eqb k0 k) eqn:E; [congruence|].
  intros; f_equal; auto.
Qed.

Lemma keys_app {V} (a b : Dict.t string V) :
  Dict.keys (a ++ b) = Dict.keys a ++ Dict.keys b.
Proof. apply map_app. Qed.

Lemma NoDup_keys_mem {V} (done rest : Dict.t string V) id v :
  NoDup (Dict.keys (done ++ (id, v) :: rest)) -> Dict.mem done id = false.
Proof.
  rewrite keys_app. simpl. intros Hn. apply NoDup_remove_2 in Hn.
  destruct (Dict.mem done id) eqn:E; auto.
  apply mem_keys in E. exfalso. apply Hn. apply in_or_app. auto.
Qed.

Lemma inner_loop so h ct : forall todo done c,
  connected c = true -> websocket c = Some h ->
  Dict.get (subscriptions c) ct = Some (done ++ todo) ->
  NoDup (Dict.keys (done ++ todo)) ->
  for_each (Dict.keys todo)
    (fun identifier =>
       c2 <- get ;;
       match Dict.get_default
               (Dict.get_default (subscriptions c2) ct []) identifier [] with
       | cb :: _ =>
           _ <- subscribe (so ct identifier) ct identifier cb ;; ret tt
       | [] => ret tt
       end) c
  = (Ret tt,
     set_subscriptions
       (Dict.set (subscriptions c) ct (done ++ map (resub_entry so ct) todo)) c,
     flat_map (resub_events h so ct) todo).
Proof.
  induction todo as [|[id cbs] rest IH]; intros done c Hc Hw Hs Hn.
  - simpl. rewrite set_get_same by auto. now rewrite set_subscriptions_same.
  - assert (Hd : Dict.mem done id = false) by (eapply NoDup_keys_mem; eauto).
    assert (Hm : Dict.mem (subscriptions c) ct = true).
    { unfold Dict.mem. now rewrite Hs. }
    simpl Dict.keys. simpl for_each.
    unfold bind at 1. unfold bind at 1, get at 1. cbv beta iota.
    assert (Hg : Dict.get (done ++ (id, cbs) :: rest) id = Some cbs).
    { rewrite get_app_r by auto. simpl. now rewrite String.eqb_refl. }
    unfold Dict.get_default at 1 2. rewrite Hs, Hg.
    destruct cbs as [|cb l].
    + unfold ret at 1. cbv beta iota.
      rewrite (IH (done ++ [(id, [])]) c); auto.
      * cbn [map flat_map]. unfold resub_entry at 2, resub_events at 2.
        cbn [fst snd]. simpl. now rewrite <- app_assoc.
      * now rewrite <- app_assoc.
      * now rewrite <- app_assoc.
    + unfold bind at 1.
      rewrite (subscribe_connected _ ct id cb c h) by auto.
      unfold ret at 1. cbv beta iota.
      rewrite (register_entry ct id (cb :: l) cb _ done rest) by auto.
      cbn [map flat_map]. unfold resub_entry at 1, resub_events at 1.
      cbn [fst snd]. destruct (so ct id).
      * rewrite (IH (done ++ [(id, (cb :: l) ++ [cb])])); auto.
        -- simpl subscriptions. rewrite set_set, set_subscriptions_twice.
           simpl. now rewrite <- app_assoc.
        -- simpl. rewrite get_set_same. now rewrite <- app_assoc.
        -- rewrite <- app_assoc. simpl.
           rewrite keys_app in *. exact Hn.
      * rewrite (IH (done ++ [(id, cb :: l)]) c); auto.
        -- simpl. now rewrite <- app_assoc.
        -- now rewrite <- app_assoc.
        -- now rewrite <- app_assoc.
Qed.

Lemma outer_loop so h : forall todo done c,
  connected c = true -> websocket c = Some h ->
  subscriptions c = done ++ todo ->
  NoDup (Dict.keys (done ++ todo)) ->
  Forall (fun kv => NoDup (Dict.keys (snd kv))) todo ->
  for_each (Dict.keys todo)
    (fun channel_type =>
       c1 <- get ;;
       for_each
         (Dict.keys (Dict.get_default (subscriptions c1) channel_type []))
         (fun identifier =>
            c2 <- get ;;
            match Dict.get_default
                    (Dict.get_default (subscriptions c2) channel_type [])
                    identifier [] with
            | cb :: _ =>
                _ <- subscribe (so channel_type identifier)
                       channel_type identifier cb ;;
                ret tt
            | [] => ret tt
            end)) c
  = (Ret tt,
     set_subscriptions (done ++ resub_registry so todo) c,
     resub_trace h so todo).
Proof.
  induction todo as [|[ct inner] rest IH]; intros done c Hc Hw Hs Hn Hi.
  - simpl. rewrite app_nil_r, <- (app_nil_r done), <- Hs.
    now rewrite set_subscriptions_same.
  - assert (Hd : Dict.mem done ct = false) by (eapply NoDup_keys_mem; eauto).
    assert (Hg : Dict.get (subscriptions c) ct = Some inner).
    { rewrite Hs, get_app_r by auto. simpl. now rewrite String.eqb_refl. }
    simpl Dict.keys. simpl for_each.
    unfold bind at 1. unfold bind at 1, get at 1. cbv beta iota.
    unfold Dict.get_default at 1. rewrite Hg.
    rewrite (inner_loop so h ct inner [] c); auto.
    2:{ now inversion Hi. }
    cbn [app]. rewrite Hs at 1. rewrite set_app_r by auto.
    rewrite (IH (done ++ [(ct, map (resub_entry so ct) inner)])); auto.
    + rewrite set_subscriptions_twice. unfold resub_registry, resub_trace.
      simpl. now rewrite <- app_assoc.
    + simpl. now rewrite <- app_assoc.
    + rewrite <- app_assoc. simpl. rewrite keys_app in *. exact Hn.
    + now inversion Hi.
Qed.

Lemma wf_NoDup c :
  wf c = true ->
  Dict.keys (subscriptions c) = channel_types
  /\ NoDup (Dict.keys (subscriptions c))
  /\ Forall (fun kv => NoDup (Dict.keys (snd kv))) (subscriptions c).
Proof.
  unfold wf. rewrite andb_true_iff. intros [Hk Hf].
  destruct (list_eq_dec string_dec _ _) as [E|]; [|discriminate].
  split; [exact E|]. split.
  - rewrite E. repeat constructor; simpl; intuition discriminate.
  - rewrite forallb_forall in Hf. apply Forall_forall. intros kv Hin.
    apply nodup_keys_NoDup. auto.
Qed.

Lemma resubscribe_all_exact so h c :
  connected c = true -> websocket c = Some h -> wf c = true ->
  resubscribe_all so c =
    (Ret tt,
     set_subscriptions (resub_registry so (subscriptions c)) c,
     EvLog Info LogResubscribeAll :: resub_trace h so (subscriptions c)).
Proof.
  intros Hc Hw Hwf. destruct (wf_NoDup c Hwf) as (_ & Hn & Hi).
  unfold resubscribe_all.
  unfold bind at 1, log, emit. cbv beta iota.
  unfold bind at 1, get at 1. cbv beta iota.
  rewrite (outer_loop so h (subscriptions c) [] c); auto.
Qed.

(** A connect that gets its handshake, on a well-formed registry: the final
    state and the whole trace. *)
Lemma returns_exact {A} (m : M A) c a0 c0 t0 :
  returns m c (fun a c' t => a = a0 /\ c' = c0 /\ t = t0) ->
  m c = (Ret a0, c0, t0).
Proof. intros (a & c' & t & E & -> & -> & ->). exact E. Qed.

Lemma connect_ok_exact env c :
  handshake_fails env = false ->
  connected c = false -> connecting c = false -> wf c = true ->
  exists h,
    ce_open env = Some h
    /\ connect env c =
         (Ret true,
          established h (resub_registry (ce_send_ok env) (subscriptions c)) c,
          [EvLog Info LogConnecting; EvOpen (ws_url c);
           EvLog Info LogConnectOk; EvCreateTask;
           EvLog Info LogResubscribeAll]
          ++ resub_trace h (ce_send_ok env) (subscriptions c)).
Proof.
  intros Hf Hc Hg Hwf. unfold handshake_fails in Hf.
  destruct (ce_open env) as [h|] eqn:Ho; [|discriminate].
  exists h. split; [reflexivity|]. apply returns_exact.
  unfold connect. msteps. rewrite Hc, Hg, Ho. simpl. msteps.
  destruct (ce_handshake env) as [[| |[ty|] ch dt]| | |]; try discriminate.
  apply negb_false_iff in Hf. rewrite Hf. msteps.
  eapply returns_eq; [apply (resubscribe_all_exact _ h); auto|].
  msteps. split; [reflexivity|]. split; [now destruct c|].
  simpl. now rewrite app_nil_r.
Qed.

(** *** What the resubscription leaves and emits, per channel *)

Lemma get_In {V} (d : Dict.t string V) k v :
  Dict.get d k = Some v -> In (k, v) d.
Proof.
  induction d as [|[k0 v0] r IH]; simpl; [discriminate|].
  destruct (String.eqb_spec k0 k) as [->|]; [intros [= ->]; auto | auto].
Qed.

Lemma get_None_keys {V} (d : Dict.t string V) k :
  ~ In k (Dict.keys d) -> Dict.get d k = None.
Proof.
  intros Hn. destruct (Dict.get d k) eqn:E; auto.
  exfalso. apply Hn. apply mem_keys. unfold Dict.mem. now rewrite E.
Qed.

Lemma fst_resub_entry so ct e : fst (resub_entry so ct e) = fst e.
Proof.
  unfold resub_entry. destruct (snd e); auto. destruct (so ct (fst e)); auto.
Qed.

Lemma get_map_entries {V W} (f : string * V -> string * W) (d : Dict.t string V) k :
  (forall e, fst (f e) = fst e) ->
  Dict.get (map f d) k = option_map (fun v => snd (f (k, v))) (Dict.get d k).
Proof.
  intros Hf. induction d as [|[k0 v0] r IH]; simpl; auto.
  destruct (f (k0, v0)) as [k1 w] eqn:E.
  assert (k1 = k0) by (specialize (Hf (k0, v0)); now rewrite E in Hf).
  subst k1. destruct (String.eqb_spec k0 k) as [->|]; auto.
  simpl. now rewrite E.
Qed.


Lemma lookup_resub so s ct id :
  lookup (resub_registry so s) ct id =
  option_map (resubscribed (so ct id)) (lookup s ct id).
Proof.
  unfold lookup, resub_registry.
  rewrite (get_map_entries
             (fun kv => (fst kv, map (resub_entry so (fst kv)) (snd kv))))
    by reflexivity.
  cbn [fst snd]. unfold registry, Dict.t in *.
  destruct (Dict.get s ct) as [inner|]; cbn [option_map]; auto.
  rewrite get_map_entries by apply fst_resub_entry.
  destruct (Dict.get inner id) as [cbs|]; simpl; auto.
  unfold resub_entry, resubscribed. simpl.
  destruct cbs; auto. destruct (so ct id); auto.
Qed.

Lemma channel_name_inj ct ct' id id' :
  In ct channel_types -> In ct' channel_types ->
  channel_name ct id = channel_name ct' id' -> ct = ct' /\ id = id'.
Proof.
  unfold channel_types, channel_name. simpl.
  intros [<-|[<-|[<-|[<-|[]]]]] [<-|[<-|[<-|[<-|[]]]]] E;
    simpl in E; try discriminate E; inversion E; auto.
Qed.


Lemma count_calls_inner h so ct ct' id (inner : Dict.t string (list callback)) :
  NoDup (Dict.keys inner) ->
  count (is_subscribe_call ct id) (flat_map (resub_events h so ct') inner)
  = if String.eqb ct' ct then expects ct id inner else 0%nat.
Proof.
  unfold expects.
  assert (Hev : forall id' cbs,
             count (is_subscribe_call ct id) (resub_events h so ct' (id', cbs))
             = match cbs with
               | [] => 0%nat
               | _ :: _ => if String.eqb ct' ct && String.eqb id' id
                           then 1%nat else 0%nat
               end).
  { intros id' cbs. unfold resub_events; simpl. destruct cbs; auto.
    unfold count; simpl.
    destruct (String.eqb ct' ct && String.eqb id' id);
      now destruct (so ct' id'). }
  induction inner as [|[id' cbs] r IH]; intros Hn.
  - simpl. now destruct (String.eqb ct' ct).
  - inversion Hn as [|? ? Hni Hnr]; subst. cbn [flat_map].
    rewrite count_app, IH, Hev by auto. simpl Dict.get.
    destruct (String.eqb_spec ct' ct) as [->|Hne]; simpl.
    + destruct (String.eqb_spec id' id) as [->|Hid].
      * rewrite (get_None_keys r id) by exact Hni. destruct cbs; auto.
      * destruct cbs; auto.
    + destruct cbs; auto.
Qed.

Lemma count_sends_inner h so ct ct' id (inner : Dict.t string (list callback)) :
  In ct channel_types -> In ct' channel_types ->
  NoDup (Dict.keys inner) ->
  count (is_subscribe_send ct id) (flat_map (resub_events h so ct') inner)
  = if String.eqb ct' ct then expects ct id inner else 0%nat.
Proof.
  intros Hct Hct'. unfold expects.
  assert (Hev : forall id' cbs,
             count (is_subscribe_send ct id) (resub_events h so ct' (id', cbs))
             = match cbs with
               | [] => 0%nat
               | _ :: _ => if String.eqb ct' ct && String.eqb id' id
                           then 1%nat else 0%nat
               end).
  { intros id' cbs. unfold resub_events; simpl. destruct cbs; auto.
    unfold count; simpl.
    destruct (String.eqb_spec (channel_name ct' id') (channel_name ct id))
      as [E|E].
    - apply channel_name_inj in E as [-> ->]; auto.
      rewrite !String.eqb_refl. simpl. now destruct (so ct id).
    - destruct (String.eqb_spec ct' ct) as [->|]; simpl;
        [|now destruct (so ct' id')].
      destruct (String.eqb_spec id' id) as [->|]; [congruence|].
      now destruct (so ct id'). }
  induction inner as [|[id' cbs] r IH]; intros Hn.
  - simpl. now destruct (String.eqb ct' ct).
  - inversion Hn as [|? ? Hni Hnr]; subst. cbn [flat_map].
    rewrite count_app, IH, Hev by auto. simpl Dict.get.
    destruct (String.eqb_spec ct' ct) as [->|Hne]; simpl.
    + destruct (String.eqb_spec id' id) as [->|Hid].
      * rewrite (get_None_keys r id) by exact Hni. destruct cbs; auto.
      * destruct cbs; auto.
    + destruct cbs; auto.
Qed.


Lemma count_calls_trace h so ct id : forall s : registry,
  NoDup (Dict.keys s) ->
  Forall (fun kv => NoDup (Dict.keys (snd kv))) s ->
  count (is_subscribe_call ct id) (resub_trace h so s) = expected s ct id.
Proof.
  unfold expected, lookup, resub_trace.
  induction s as [|[ct' inner] r IH]; intros Hn Hi; auto.
  inversion Hn as [|? ? Hni Hnr]; subst. inversion Hi; subst.
  cbn [flat_map fst snd]. rewrite count_app, IH, count_calls_inner by auto.
  simpl Dict.get. unfold expects.
  destruct (String.eqb_spec ct' ct) as [->|Hne]; auto.
  rewrite (get_None_keys r ct) by exact Hni. apply Nat.add_0_r.
Qed.

Lemma count_sends_trace h so ct id : forall s : registry,
  In ct channel_types ->
  Forall (fun k => In k channel_types) (Dict.keys s) ->
  NoDup (Dict.keys s) ->
  Forall (fun kv => NoDup (Dict.keys (snd kv))) s ->
  count (is_subscribe_send ct id) (resub_trace h so s) = expected s ct id.
Proof.
  unfold expected, lookup, resub_trace. intros s Hct.
  induction s as [|[ct' inner] r IH]; intros Hk Hn Hi; auto.
  inversion Hn as [|? ? Hni Hnr]; subst. inversion Hi; subst.
  inversion Hk; subst.
  cbn [flat_map fst snd]. rewrite count_app, IH, count_sends_inner by auto.
  simpl Dict.get. unfold expects.
  destruct (String.eqb_spec ct' ct) as [->|Hne]; auto.
  rewrite (get_None_keys r ct) by exact Hni. apply Nat.add_0_r.
Qed.

Lemma call_in_trace h so ct id cb l (s : registry) :
  lookup s ct id = Some (cb :: l) ->
  In (EvSubscribe ct id cb) (resub_trace h so s).
Proof.
  unfold lookup, resub_trace. intros E.
  destruct (Dict.get s ct) as [inner|] eqn:Es; [|discriminate].
  apply in_flat_map. exists (ct, inner). split; [now apply get_In|].
  apply in_flat_map. exists (id, cb :: l). split; [now apply get_In|].
  simpl. auto.
Qed.

(** *** Dispatch of a frame to the callbacks of its channel *)

Lemma dispatch_count fe f c ct id tag :
  delivered_on ct id tag f = true ->
  returns (process_message fe f) c (fun _ _ t =>
    forall cb,
      count (is_callback_of cb) t =
      count_occ Nat.eq_dec
        (match callbacks_of c ct id with Some l => l | None => [] end) cb).
Proof.
  unfold delivered_on, process_message, callbacks_of, lookup.
  destruct f as [| |ty [ch|] dt]; try discriminate.
  destruct (message_handlers ty) as [[| | |ct' tag']|]; try discriminate.
  rewrite !andb_true_iff. intros [[[Hct Htag] Hcol] Hid].
  apply String.eqb_eq in Hct, Htag, Hid. subst ct' tag'.
  unfold handle_channel. rewrite Hcol, Hid.
  assert (E : forall Q,
             (forall l, (forall cb, count (is_callback_of cb) l = 0%nat) ->
                        Q tt c l) ->
             returns (if (tag =? "subscribed")%string
                      then log Info LogSubscribedAck else ret tt) c Q).
  { intros Q HQ. destruct (tag =? "subscribed")%string; msteps; auto. }
  msteps. apply E. intros l Hl. msteps.
  destruct (Dict.get (subscriptions c) ct) as [inner|]; msteps.
  - eapply returns_weaken; [apply run_callbacks_spec|]. cbv beta.
    intros _ c' t (_ & _ & _ & N) cb. rewrite !count_app, Hl, N.
    unfold Dict.get_default. simpl. destruct (Dict.get inner id); auto.
  - intros cb. rewrite !count_app, Hl. reflexivity.
Qed.

Lemma receive_idle inputs c :
  connected c && match websocket c with Some _ => true | None => false end
  = false ->
  receive_messages inputs c = (Ret tt, c, []).
Proof.
  intros G. destruct inputs as [|[| |] r]; simpl;
    unfold bind at 1, get at 1; cbv beta iota; now rewrite G.
Qed.

Lemma receive_frames frames : forall rest c Q,
  Forall (fun i => match i with InClosed _ => False | _ => True end) frames ->
  (forall t, sleeps t = [] -> opens t = 0%nat ->
     returns (receive_messages rest) c (fun a c' t' => Q a c' (t ++ t'))) ->
  returns (receive_messages (frames ++ rest)) c Q.
Proof.
  induction frames as [|x r IH]; intros rest c Q Hf HQ.
  - simpl app. eapply returns_weaken; [apply (HQ []); auto|]. auto.
  - inversion Hf as [|? ? Hx Hr]; subst.
    destruct (connected c && match websocket c with Some _ => true | None => false end)
      eqn:G.
    2:{ specialize (HQ [] eq_refl eq_refl).
        destruct HQ as (a & c' & t & E & HQ).
        rewrite receive_idle in E by auto. inversion E; subst.
        eapply returns_eq; [now apply receive_idle | exact HQ]. }
    simpl. msteps. rewrite G.
    destruct x as [f fe| |envs]; [| |contradiction]; msteps.
    + eapply returns_weaken; [apply process_message_spec|]. cbv beta.
      intros _ c' t (-> & S & O). apply IH; auto.
      intros t' S' O'. eapply returns_weaken; [apply (HQ (t ++ t'))|].
      * now rewrite sleeps_app, S, S'.
      * now rewrite opens_app, O, O'.
      * cbv beta. intros a c' t0. simpl. now rewrite app_assoc.
    + apply IH; auto.
      intros t' S' O'.
      eapply returns_weaken;
        [apply (HQ (EvLog Error LogReceiveFailed :: t'))|]; auto.
Qed.

Lemma schedule_app a b : schedule (a ++ b) = schedule a ++ schedule b.
Proof. apply flat_map_app. Qed.

Lemma schedule_quiet t :
  sleeps t = [] -> schedule t = repeat Opened (opens t).
Proof.
  unfold sleeps, schedule, opens.
  induction t as [|e r IH]; simpl; auto.
  destruct e; simpl; auto; try discriminate.
  intros H. now rewrite IH.
Qed.

Lemma returns_and {A} (m : M A) c (Q1 Q2 : A -> Client -> list event -> Prop) :
  returns m c Q1 -> returns m c Q2 ->
  returns m c (fun a c' t => Q1 a c' t /\ Q2 a c' t).
Proof.
  intros (a1 & c1 & t1 & E1 & H1) (a2 & c2 & t2 & E2 & H2).
  rewrite E1 in E2. inversion E2; subst.
  exists a2, c2, t2. auto.
Qed.

(** Every attempt of a reconnection that fails throughout comes right after
    its own sleep. *)
Lemma reconnect_loop_schedule envs :
  (forall i, handshake_fails (envs i) = true) ->
  forall fuel i c,
    connected c = false -> connecting c = false ->
    (Z.to_nat (max_reconnect_attempts c - reconnect_attempts c) <= fuel)%nat ->
    returns (reconnect_loop fuel envs i) c (fun _ _ t =>
      schedule t
      = attempts_after
          (backoff (Z.to_nat (max_reconnect_attempts c - reconnect_attempts c))
             (reconnect_delay c) (max_reconnect_delay c))).
Proof.
  intros Hall. induction fuel as [|fuel IH]; intros i c Hc Hg Hfuel;
    simpl; msteps.
  - destruct (Z.ltb_spec (reconnect_attempts c) (max_reconnect_attempts c));
      [lia|]. msteps.
    replace (Z.to_nat _) with 0%nat by lia. reflexivity.
  - destruct (Z.ltb_spec (reconnect_attempts c) (max_reconnect_attempts c)).
    2:{ msteps. replace (Z.to_nat _) with 0%nat by lia. reflexivity. }
    msteps.
    eapply returns_weaken; [apply connect_fail; auto|]. cbv beta.
    intros b c1 t1 (-> & -> & S1 & O1 & _). msteps.
    eapply returns_weaken; [apply IH; auto|].
    { simpl. lia. }
    cbv beta. intros _ _ t2 K2.
    rewrite !schedule_app, K2, (schedule_quiet t1 S1), O1. simpl.
    replace (Z.to_nat (max_reconnect_attempts c - reconnect_attempts c))
      with (S (Z.to_nat (max_reconnect_attempts c
                         - (reconnect_attempts c + 1)))) by lia.
    reflexivity.
Qed.

(** Claim C1.  A client with the constructor's limits (5 attempts, delays
    capped at 30 seconds) connects, receives frames and then loses the
    transport.  When every [connect] of the reconnection routine fails, the
    routine sleeps for exactly 1, 2, 4, 8 and 16 seconds, opens the transport
    exactly 5 times, each time right after one of these sleeps (sleep 1,
    attempt, sleep 2, attempt, ... , sleep 16, attempt), and ends by logging
    that the attempts are exhausted, with the client disconnected, without a
    transport and with its attempt counter at 5. *)
Theorem reconnect_backoff_exhausts env0 frames envs c0 :
  connected c0 = false -> connecting c0 = false ->
  max_reconnect_attempts c0 = 5 -> max_reconnect_delay c0 = 30 ->
  handshake_fails env0 = false ->
  Forall (fun i => match i with InClosed _ => False | _ => True end) frames ->
  (forall i, handshake_fails (envs i) = true) ->
  returns (connect env0) c0 (fun _ c1 _ =>
    returns (receive_messages (frames ++ [InClosed envs])) c1 (fun _ c2 t =>
      sleeps t = [1; 2; 4; 8; 16]
      /\ opens t = 5%nat
      /\ schedule t
         = [Slept 1; Opened; Slept 2; Opened; Slept 4; Opened;
            Slept 8; Opened; Slept 16; Opened]
      /\ (exists t0, t = t0 ++ [EvLog Error LogReconnectExhausted])
      /\ state_of c2 = DISCONNECTED
      /\ websocket c2 = None
      /\ reconnect_attempts c2 = 5)).
Proof.
  intros Hc Hg Hmax Hdelay Hok Hframes Hfail.
  eapply returns_weaken; [apply connect_ok; auto|]. cbv beta.
  intros _ c1 _ (_ & (h & _ & E1) & _).
  apply receive_frames; auto. intros t St Ot.
  simpl receive_messages. msteps. rewrite E1.
  cbn [connected websocket established andb].
  unfold on_connection_closed. msteps.
  unfold handle_disconnection. msteps.
  cbn [reconnecting set_connected established]. msteps.
  eapply returns_weaken.
  - apply returns_and;
      [apply (reconnect_loop_all_fail envs Hfail)
      |apply (reconnect_loop_schedule envs Hfail)]; simpl; auto.
  - cbv beta zeta.
    intros _ c2 t2
      ((S2 & O2 & _ & [t0 L2] & C2 & G2 & R2 & W2 & A2 & _) & K2).
    rewrite !schedule_app, (schedule_quiet t St), Ot, K2.
    autorewrite with trace. simpl in *. rewrite Hmax, Hdelay in *.
    rewrite St, Ot, S2, O2. simpl in *.
    repeat split; auto.
    + exists (t ++ EvLog Warning LogConnectionClosed :: t0).
      rewrite L2, <- app_assoc. reflexivity.
    + unfold state_of. now rewrite C2, G2, R2.
    + apply W2. left. discriminate.
Qed.


Lemma reconnect_backoff_exhausts_witness :
  returns (connect (accepted 1%nat)) (init "wss://x") (fun _ c1 _ =>
    returns (receive_messages ([] ++ [InClosed (fun _ => refused)])) c1
      (fun _ c2 t =>
         sleeps t = [1; 2; 4; 8; 16]
         /\ opens t = 5%nat
         /\ schedule t
            = [Slept 1; Opened; Slept 2; Opened; Slept 4; Opened;
               Slept 8; Opened; Slept 16; Opened]
         /\ (exists t0, t = t0 ++ [EvLog Error LogReconnectExhausted])
         /\ state_of c2 = DISCONNECTED
         /\ websocket c2 = None
         /\ reconnect_attempts c2 = 5)).
Proof.
  apply (reconnect_backoff_exhausts (accepted 1%nat) [] (fun _ => refused)
           (init "wss://x")); try reflexivity. constructor.
Defined.

(** Claim C5.  A [connect] started while the client is neither connected
    nor connecting, in which the transport cannot be opened, no frame arrives
    within the handshake timeout, or the frame that arrives is not the
    ["connected"] frame, returns [False], leaves no transport handle, leaves
    the client in the state [DISCONNECTED], and keeps the registry. *)
Theorem connect_failure_tears_down env c :
  connected c = false -> connecting c = false ->
  handshake_fails env = true ->
  returns (connect env) c (fun ok c' _ =>
    ok = false
    /\ websocket c' = None
    /\ state_of c' = DISCONNECTED
    /\ subscriptions c' = subscriptions c).
Proof.
  intros Hc Hg Hf.
  eapply returns_weaken; [apply connect_fail; auto|]. cbv beta.
  intros ok c' _ (-> & -> & _). auto.
Qed.


Lemma connect_failure_tears_down_witness :
  returns (connect (silent 1%nat)) (init "wss://x") (fun ok c' _ =>
    ok = false
    /\ websocket c' = None
    /\ state_of c' = DISCONNECTED
    /\ subscriptions c' = subscriptions (init "wss://x")).
Proof.
  apply (connect_failure_tears_down (silent 1%nat) (init "wss://x"));
    reflexivity.
Defined.

(** Claim C4.  For every identifier and callback, and whatever the
    connection state, [subscribe] with a channel type that is not one of the
    four keys of the registry raises [WebSocketClientError], leaves the
    client (the registry included) as it was, and sends nothing. *)
Theorem subscribe_unknown_channel_type c send_ok channel_type identifier cb :
  wf c = true -> ~ In channel_type channel_types ->
  exists t,
    subscribe send_ok channel_type identifier cb c
    = (Raise (WebSocketClientError channel_type), c, t)
    /\ count is_send t = 0%nat.
Proof.
  intros Hwf Hn. destruct (wf_NoDup c Hwf) as (Hk & _).
  assert (Hm : Dict.mem (subscriptions c) channel_type = false).
  { destruct (Dict.mem (subscriptions c) channel_type) eqn:E; auto.
    apply mem_keys in E. rewrite Hk in E. contradiction. }
  exists [EvSubscribe channel_type identifier cb]. split; [|reflexivity].
  unfold subscribe. cbv [bind emit get raise]. now rewrite Hm.
Qed.

Lemma subscribe_unknown_channel_type_witness :
  exists t,
    subscribe true "depth" "1" 7%nat (init "wss://x")
    = (Raise (WebSocketClientError "depth"), init "wss://x", t)
    /\ count is_send t = 0%nat.
Proof.
  apply (subscribe_unknown_channel_type (init "wss://x") true "depth" "1" 7%nat).
  - reflexivity.
  - simpl. intuition discriminate.
Defined.

(** Claim C3.  After any sequence of [disconnect] calls and transport
    losses, whatever the outside world answers to the reconnection attempts,
    every entry of the registry is still there and its callback list still
    starts with the callbacks it had. *)
Theorem subscriptions_survive_disconnections ds c :
  returns (for_each ds run_disconnection) c (fun _ c' _ =>
    forall channel_type identifier cbs,
      callbacks_of c channel_type identifier = Some cbs ->
      exists more,
        callbacks_of c' channel_type identifier = Some (cbs ++ more)).
Proof.
  eapply returns_weaken.
  - apply (for_each_inv
             (fun c' => preserved (subscriptions c) (subscriptions c'))
             (fun _ => True)); auto using preserved_refl.
    intros d c1 _ P1.
    eapply returns_weaken; [apply run_disconnection_inv|]. cbv beta.
    intros _ c2 _ P2. split; [|exact I]. eapply preserved_trans; eauto.
  - cbv beta. intros _ c' _ [[_ P] _]. exact P.
Qed.

(** Claim C2.  During a successful [connect], for every channel: when its
    callback list was non-empty, exactly one subscribe command is sent for
    it and [subscribe] is called for it exactly once, with the first
    callback of the list; when the list was empty or the channel was
    unknown, no subscribe command is sent for it. *)
Theorem resubscribe_once_per_channel env c :
  wf c = true -> connected c = false -> connecting c = false ->
  handshake_fails env = false ->
  returns (connect env) c (fun ok _ t =>
    ok = true
    /\ forall channel_type identifier,
         In channel_type channel_types ->
         match callbacks_of c channel_type identifier with
         | Some (cb :: _) =>
             count (is_subscribe_send channel_type identifier) t = 1%nat
             /\ count (is_subscribe_call channel_type identifier) t = 1%nat
             /\ In (EvSubscribe channel_type identifier cb) t
         | _ =>
             count (is_subscribe_send channel_type identifier) t = 0%nat
             /\ count (is_subscribe_call channel_type identifier) t = 0%nat
         end).
Proof.
  intros Hwf Hc Hg Hf.
  destruct (connect_ok_exact env c Hf Hc Hg Hwf) as (h & _ & E).
  eapply returns_eq; [exact E|]. split; [reflexivity|].
  intros ct id Hct. destruct (wf_NoDup c Hwf) as (Hk & Hn & Hi).
  rewrite !count_app.
  rewrite count_sends_trace, count_calls_trace; auto.
  2:{ rewrite Hk. apply Forall_forall. auto. }
  unfold expected, callbacks_of.
  destruct (lookup (subscriptions c) ct id) as [[|cb l]|] eqn:El; auto.
  repeat split; auto. apply in_or_app. right.
  eapply call_in_trace; eauto.
Qed.

Lemma resubscribe_once_per_channel_witness :
  returns (connect (accepted 1%nat)) subscribed_client (fun ok _ t =>
    ok = true
    /\ forall channel_type identifier,
         In channel_type channel_types ->
         match callbacks_of subscribed_client channel_type identifier with
         | Some (cb :: _) =>
             count (is_subscribe_send channel_type identifier) t = 1%nat
             /\ count (is_subscribe_call channel_type identifier) t = 1%nat
             /\ In (EvSubscribe channel_type identifier cb) t
         | _ =>
             count (is_subscribe_send channel_type identifier) t = 0%nat
             /\ count (is_subscribe_call channel_type identifier) t = 0%nat
         end).
Proof.
  apply (resubscribe_once_per_channel (accepted 1%nat) subscribed_client);
    reflexivity.
Defined.

(** Claim C10, amended.  When the transport accepts the subscribe command
    that a successful [connect] resends for a channel with callbacks
    [cb :: rest], the channel's list afterwards is [cb :: rest] followed by
    one more [cb], and a frame delivered on the channel then invokes every
    callback once for each of its occurrences in that list. *)
Theorem resubscription_duplicates_first_callback
  env c channel_type identifier cb rest :
  wf c = true -> connected c = false -> connecting c = false ->
  handshake_fails env = false ->
  callbacks_of c channel_type identifier = Some (cb :: rest) ->
  ce_send_ok env channel_type identifier = true ->
  returns (connect env) c (fun _ c' _ =>
    callbacks_of c' channel_type identifier = Some ((cb :: rest) ++ [cb])
    /\ forall fe f tag,
         delivered_on channel_type identifier tag f = true ->
         returns (process_message fe f) c' (fun _ _ t =>
           forall cb',
             count (is_callback_of cb') t
             = count_occ Nat.eq_dec ((cb :: rest) ++ [cb]) cb')).
Proof.
  intros Hwf Hc Hg Hf Hl Hs.
  destruct (connect_ok_exact env c Hf Hc Hg Hwf) as (h & _ & E).
  eapply returns_eq; [exact E|].
  assert (Hl' : callbacks_of
                  (established h
                     (resub_registry (ce_send_ok env) (subscriptions c)) c)
                  channel_type identifier = Some ((cb :: rest) ++ [cb])).
  { unfold callbacks_of in *. simpl subscriptions.
    rewrite lookup_resub, Hl, Hs. reflexivity. }
  split; [exact Hl'|]. intros fe f tag Hd.
  eapply returns_weaken; [apply (dispatch_count _ _ _ _ _ _ Hd)|].
  cbv beta. intros _ _ t N cb'. rewrite N, Hl'. reflexivity.
Qed.

Lemma resubscription_duplicates_first_callback_witness :
  returns (connect (accepted 1%nat)) subscribed_client (fun _ c' _ =>
    callbacks_of c' "order_book" "1" = Some (([7; 8] ++ [7])%nat)
    /\ forall fe f tag,
         delivered_on "order_book" "1" tag f = true ->
         returns (process_message fe f) c' (fun _ _ t =>
           forall cb',
             count (is_callback_of cb') t
             = count_occ Nat.eq_dec (([7; 8] ++ [7])%nat) cb')).
Proof.
  apply (resubscription_duplicates_first_callback (accepted 1%nat)
           subscribed_client "order_book" "1" 7%nat [8%nat]); reflexivity.
Defined.

(** Claim C10 as stated does not hold: when the transport rejects the
    subscribe command that is resent, [subscribe] returns [False] before it
    registers anything and the callback list stays as it was. *)
Lemma resubscription_not_always_registered :
  ~ (forall env c channel_type identifier cb rest,
        wf c = true -> connected c = false -> connecting c = false ->
        handshake_fails env = false ->
        callbacks_of c channel_type identifier = Some (cb :: rest) ->
        returns (connect env) c (fun _ c' _ =>
          callbacks_of c' channel_type identifier
          = Some ((cb :: rest) ++ [cb]))).
Proof.
  intros H.
  destruct (H (rejecting 1%nat) subscribed_client "order_book" "1" 7%nat
              [8%nat] eq_refl eq_refl eq_refl eq_refl eq_refl)
    as (ok & c' & t & E & Hl).
  vm_compute in E. inversion E; subst. discriminate Hl.
Qed.

(** *** Unsubscribing *)

Lemma get_del_same {V} (d : Dict.t string V) k :
  NoDup (Dict.keys d) -> Dict.get (Dict.del d k) k = None.
Proof.
  induction d as [|[k' v'] r IH]; simpl; intros ND; auto.
  inversion ND as [|? ? Hn ND']; subst.
  destruct (String.eqb_spec k' k) as [->|Hne].
  - destruct (Dict.get r k) eqn:E; auto.
    exfalso. apply Hn. apply mem_keys. unfold Dict.mem. now rewrite E.
  - simpl. destruct (String.eqb_spec k' k); [contradiction|]. auto.
Qed.

Lemma inner_NoDup c ct inner :
  wf c = true -> Dict.get (subscriptions c) ct = Some inner ->
  NoDup (Dict.keys inner).
Proof.
  intros Hwf Hg. destruct (wf_NoDup c Hwf) as (_ & _ & Hall).
  rewrite Forall_forall in Hall.
  apply get_In in Hg. exact (Hall _ Hg).
Qed.

Lemma unsubscribe_connected ok ct id c h inner cbs :
  connected c = true -> websocket c = Some h ->
  Dict.get (subscriptions c) ct = Some inner ->
  Dict.get inner id = Some cbs ->
  unsubscribe ok ct id c =
    (Ret ok,
     (if ok
      then set_subscriptions
             (Dict.set (subscriptions c) ct (Dict.del inner id)) c
      else c),
     [EvSend h (unsubscribe_msg (channel_name ct id));
      if ok then EvLog Info LogUnsubscribeSent
      else EvLog Error LogUnsubscribeFailed]).
Proof.
  intros Hc Hw Hg Hi. unfold unsubscribe.
  cbv [bind emit get raise log ret modify Dict.mem Dict.get_default].
  rewrite Hg, Hc. simpl. rewrite Hi, Hw. simpl.
  destruct ok; reflexivity.
Qed.

(** A successful [unsubscribe] sends one unsubscribe command and drops the
    entry of the identifier with all its callbacks; every other entry stays
    as it is. *)
Theorem unsubscribe_removes_entry c h channel_type identifier cbs :
  wf c = true -> connected c = true -> websocket c = Some h ->
  callbacks_of c channel_type identifier = Some cbs ->
  returns (unsubscribe true channel_type identifier) c (fun ok c' t =>
    ok = true
    /\ callbacks_of c' channel_type identifier = None
    /\ (forall ct id, ct <> channel_type \/ id <> identifier ->
          callbacks_of c' ct id = callbacks_of c ct id)
    /\ sends t
       = [(h, unsubscribe_msg (channel_name channel_type identifier))]).
Proof.
  intros Hwf Hc Hw Hl. unfold callbacks_of, lookup in Hl.
  destruct (Dict.get (subscriptions c) channel_type) as [inner|] eqn:Hg;
    [|discriminate].
  eapply returns_eq; [apply (unsubscribe_connected true _ _ _ _ _ _ Hc Hw Hg Hl)|].
  split; [reflexivity|]. unfold callbacks_of, lookup. simpl subscriptions.
  split; [|split; [|reflexivity]].
  - rewrite get_set_same. apply get_del_same. eapply inner_NoDup; eauto.
  - intros ct id Hne.
    destruct (string_dec channel_type ct) as [<-|Hct].
    + rewrite get_set_same, Hg. destruct Hne as [Hne|Hne]; [congruence|].
      apply get_del_other. congruence.
    + rewrite get_set_other by auto. reflexivity.
Qed.

Lemma unsubscribe_removes_entry_witness :
  returns (unsubscribe true "order_book" "1")
    (established 1%nat (subscriptions subscribed_client) subscribed_client)
    (fun ok c' t =>
       ok = true
       /\ callbacks_of c' "order_book" "1" = None
       /\ (forall ct id, ct <> "order_book" \/ id <> "1" ->
             callbacks_of c' ct id
             = callbacks_of
                 (established 1%nat (subscriptions subscribed_client)
                    subscribed_client) ct id)
       /\ sends t = [(1%nat, unsubscribe_msg (channel_name "order_book" "1"))]).
Proof.
  apply (unsubscribe_removes_entry
           (established 1%nat (subscriptions subscribed_client)
              subscribed_client) 1%nat "order_book" "1" [7; 8]%nat);
    reflexivity.
Defined.

(** [unsubscribe] on a known channel type returns [True] only when the
    client is connected, the identifier has an entry and the transport
    accepts the command; otherwise it returns [False] and leaves the client
    as it was. *)
Theorem unsubscribe_failure_keeps_client send_ok c channel_type identifier :
  Dict.mem (subscriptions c) channel_type = true ->
  returns (unsubscribe send_ok channel_type identifier) c (fun ok c' t =>
    (ok = false -> c' = c)
    /\ (ok = true ->
        send_ok = true /\ connected c = true
        /\ callbacks_of c channel_type identifier <> None)
    /\ (connected c = false \/ callbacks_of c channel_type identifier = None ->
        ok = false /\ sends t = [])).
Proof.
  intros Hm. unfold unsubscribe, callbacks_of, lookup. msteps.
  rewrite Hm. simpl. unfold Dict.mem, Dict.get_default in *.
  destruct (Dict.get (subscriptions c) channel_type) as [inner|];
    [|discriminate].
  destruct (connected c); simpl; msteps.
  2:{ repeat split; auto; discriminate. }
  destruct (Dict.get inner identifier) as [cbs|]; simpl; msteps.
  2:{ repeat split; auto; discriminate. }
  assert (Hno : true = false \/ Some cbs = None -> forall P : Prop, P).
  { intros [|]; discriminate. }
  destruct (websocket c) as [h|]; msteps.
  2:{ split; [auto|]. split; [discriminate|]. intros H; now apply Hno. }
  destruct send_ok; msteps.
  - split; [discriminate|]. split; [|intros H; now apply Hno].
    intros _. repeat split; auto. discriminate.
  - split; [auto|]. split; [discriminate|]. intros H; now apply Hno.
Qed.

Lemma unsubscribe_failure_keeps_client_witness :
  returns (unsubscribe true "ticker" "ETH") subscribed_client (fun ok c' t =>
    (ok = false -> c' = subscribed_client)
    /\ (ok = true ->
        true = true /\ connected subscribed_client = true
        /\ callbacks_of subscribed_client "ticker" "ETH" <> None)
    /\ (connected subscribed_client = false
        \/ callbacks_of subscribed_client "ticker" "ETH" = None ->
        ok = false /\ sends t = [])).
Proof.
  apply (unsubscribe_failure_keeps_client true subscribed_client
           "ticker" "ETH"). reflexivity.
Defined.

(** [unsubscribe] with a channel type that is not a key of the registry
    raises [WebSocketClientError] before anything is sent or changed. *)
Theorem unsubscribe_unknown_channel_type c send_ok channel_type identifier :
  wf c = true -> ~ In channel_type channel_types ->
  unsubscribe send_ok channel_type identifier c
  = (Raise (WebSocketClientError channel_type), c, []).
Proof.
  intros Hwf Hn. destruct (wf_NoDup c Hwf) as (Hk & _).
  assert (Hm : Dict.mem (subscriptions c) channel_type = false).
  { destruct (Dict.mem (subscriptions c) channel_type) eqn:E; auto.
    apply mem_keys in E. rewrite Hk in E. contradiction. }
  unfold unsubscribe. cbv [bind get raise]. now rewrite Hm.
Qed.

Lemma unsubscribe_unknown_channel_type_witness :
  unsubscribe true "depth" "1" (init "wss://x")
  = (Raise (WebSocketClientError "depth"), init "wss://x", []).
Proof.
  apply (unsubscribe_unknown_channel_type (init "wss://x") true "depth" "1").
  - reflexivity.
  - simpl. intuition discriminate.
Defined.

(** *** Subscribing *)

(** While the client is not connected, [subscribe] on a known channel type
    returns [False], registers nothing and sends nothing. *)
Theorem subscribe_while_disconnected c send_ok channel_type identifier cb :
  Dict.mem (subscriptions c) channel_type = true -> connected c = false ->
  returns (subscribe send_ok channel_type identifier cb) c (fun ok c' t =>
    ok = false /\ c' = c /\ sends t = []).
Proof.
  intros Hm Hc. unfold subscribe. msteps. rewrite Hm, Hc. simpl. msteps.
  auto.
Qed.

Lemma subscribe_while_disconnected_witness :
  returns (subscribe true "trade" "3" 5%nat) (init "wss://x")
    (fun ok c' t => ok = false /\ c' = init "wss://x" /\ sends t = []).
Proof.
  apply (subscribe_while_disconnected (init "wss://x") true "trade" "3" 5%nat);
    reflexivity.
Defined.

(** On a connected client whose transport accepts the command, [subscribe]
    sends one subscribe command for [channel_type/identifier] and appends
    the callback to the channel's list (a new list when the identifier had
    none); no other channel is touched. *)
Theorem subscribe_appends_callback c h channel_type identifier cb :
  Dict.mem (subscriptions c) channel_type = true ->
  connected c = true -> websocket c = Some h ->
  returns (subscribe true channel_type identifier cb) c (fun ok c' t =>
    ok = true
    /\ callbacks_of c' channel_type identifier
       = Some (match callbacks_of c channel_type identifier with
               | Some l => l
               | None => []
               end ++ [cb])
    /\ (forall ct id, channel_type <> ct \/ identifier <> id ->
          callbacks_of c' ct id = callbacks_of c ct id)
    /\ sends t = [(h, subscribe_msg (channel_name channel_type identifier))]).
Proof.
  intros Hm Hc Hw.
  eapply returns_eq; [apply (subscribe_connected true _ _ _ _ _ Hc Hw Hm)|].
  unfold callbacks_of. simpl subscriptions.
  split; [reflexivity|]. split; [now apply lookup_register_same|].
  split; [|reflexivity].
  intros ct id Hne. now apply lookup_register_other.
Qed.

Lemma subscribe_appends_callback_witness :
  returns (subscribe true "order_book" "1" 5%nat)
    (established 1%nat (subscriptions subscribed_client) subscribed_client)
    (fun ok c' t =>
       ok = true
       /\ callbacks_of c' "order_book" "1"
          = Some (match callbacks_of
                          (established 1%nat (subscriptions subscribed_client)
                             subscribed_client) "order_book" "1" with
                  | Some l => l
                  | None => []
                  end ++ [5%nat])
       /\ (forall ct id, "order_book" <> ct \/ "1" <> id ->
             callbacks_of c' ct id
             = callbacks_of
                 (established 1%nat (subscriptions subscribed_client)
                    subscribed_client) ct id)
       /\ sends t = [(1%nat, subscribe_msg (channel_name "order_book" "1"))]).
Proof.
  apply (subscribe_appends_callback
           (established 1%nat (subscriptions subscribed_client)
              subscribed_client) 1%nat "order_book" "1" 5%nat); reflexivity.
Defined.

(** *** The shape of the registry *)

Lemma keys_set_mem {V} (d : Dict.t string V) k v :
  Dict.mem d k = true -> Dict.keys (Dict.set d k v) = Dict.keys d.
Proof.
  unfold Dict.mem. induction d as [|[k' v'] r IH]; simpl; [discriminate|].
  destruct (String.eqb k' k); simpl; auto. intros H. now rewrite IH.
Qed.

Lemma keys_set_new {V} (d : Dict.t string V) k v :
  Dict.mem d k = false -> Dict.keys (Dict.set d k v) = Dict.keys d ++ [k].
Proof.
  unfold Dict.mem. induction d as [|[k' v'] r IH]; simpl; auto.
  destruct (String.eqb k' k); simpl; [discriminate|]. intros H. now rewrite IH.
Qed.

Lemma NoDup_keys_set {V} (d : Dict.t string V) k v :
  NoDup (Dict.keys d) -> NoDup (Dict.keys (Dict.set d k v)).
Proof.
  intros ND. destruct (Dict.mem d k) eqn:E.
  - now rewrite keys_set_mem.
  - rewrite keys_set_new by auto.
    apply NoDup_app; auto.
    + constructor; [intros []|constructor].
    + intros x Hx [<-|[]].
      apply mem_keys in Hx. congruence.
Qed.

Lemma In_keys_del {V} (d : Dict.t string V) k x :
  In x (Dict.keys (Dict.del d k)) -> In x (Dict.keys d).
Proof.
  induction d as [|[k' v'] r IH]; simpl; auto.
  destruct (String.eqb k' k); simpl; intuition.
Qed.

Lemma NoDup_keys_del {V} (d : Dict.t string V) k :
  NoDup (Dict.keys d) -> NoDup (Dict.keys (Dict.del d k)).
Proof.
  induction d as [|[k' v'] r IH]; simpl; auto.
  intros ND. inversion ND; subst.
  destruct (String.eqb k' k); simpl; auto.
  constructor; auto. intros Hx. apply In_keys_del in Hx. contradiction.
Qed.

Lemma Forall_set {V} (P : string * V -> Prop) (d : Dict.t string V) k v :
  Dict.mem d k = true -> Forall P d -> P (k, v) -> Forall P (Dict.set d k v).
Proof.
  unfold Dict.mem. induction d as [|[k' v'] r IH]; simpl; [discriminate|].
  intros Hm HF HP. inversion HF; subst.
  destruct (String.eqb_spec k' k) as [->|].
  - constructor; auto.
  - constructor; auto.
Qed.

(** the registry has the four channel types and no key twice *)
Lemma wf_intro c :
  Dict.keys (subscriptions c) = channel_types ->
  Forall (fun kv => NoDup (Dict.keys (snd kv))) (subscriptions c) ->
  wf c = true.
Proof.
  intros Hk HF. unfold wf. rewrite Hk.
  destruct (list_eq_dec string_dec channel_types channel_types); [|congruence].
  simpl. apply forallb_forall. rewrite Forall_forall in HF.
  intros kv Hin. apply NoDup_nodup_keys. auto.
Qed.

Lemma wf_set_inner c ct inner :
  wf c = true -> Dict.mem (subscriptions c) ct = true ->
  NoDup (Dict.keys inner) ->
  wf (set_subscriptions (Dict.set (subscriptions c) ct inner) c) = true.
Proof.
  intros Hwf Hm Hn. destruct (wf_NoDup c Hwf) as (Hk & _ & HF).
  apply wf_intro; simpl subscriptions.
  - now rewrite keys_set_mem.
  - apply Forall_set; auto.
Qed.

Lemma wf_register c ct id cb :
  wf c = true -> Dict.mem (subscriptions c) ct = true ->
  wf (set_subscriptions (register ct id cb (subscriptions c)) c) = true.
Proof.
  intros Hwf Hm. unfold register. apply wf_set_inner; auto.
  assert (Hi : NoDup (Dict.keys (Dict.get_default (subscriptions c) ct []))).
  { unfold Dict.get_default, Dict.mem in *.
    destruct (Dict.get (subscriptions c) ct) eqn:E; [|discriminate].
    eapply inner_NoDup; eauto. }
  apply NoDup_keys_set.
  destruct (Dict.mem _ id); auto. now apply NoDup_keys_set.
Qed.

(** [subscribe] and [unsubscribe] keep the shape the constructor gives the
    registry: its keys are the four channel types, and no identifier has two
    entries. *)
Theorem registry_shape_kept c ok channel_type identifier cb :
  wf c = true ->
  (forall r c' t,
     subscribe ok channel_type identifier cb c = (r, c', t) -> wf c' = true)
  /\ (forall r c' t,
        unsubscribe ok channel_type identifier c = (r, c', t) -> wf c' = true).
Proof.
  intros Hwf. split; intros r c' t.
  - unfold subscribe. cbv [bind emit get raise log ret modify].
    destruct (Dict.mem (subscriptions c) channel_type) eqn:Hm; simpl;
      [|intros [= _ <- _]; auto].
    destruct (connected c); simpl; [|intros [= _ <- _]; auto].
    destruct (websocket c); simpl; [|intros [= _ <- _]; auto].
    destruct ok; simpl; intros [= _ <- _]; auto.
    now apply wf_register.
  - unfold unsubscribe. cbv [bind emit get raise log ret modify].
    destruct (Dict.mem (subscriptions c) channel_type) eqn:Hm; simpl;
      [|intros [= _ <- _]; auto].
    destruct (connected c); simpl; [|intros [= _ <- _]; auto].
    destruct (Dict.mem _ identifier); simpl; [|intros [= _ <- _]; auto].
    destruct (websocket c); simpl; [|intros [= _ <- _]; auto].
    destruct ok; simpl; intros [= _ <- _]; auto.
    apply wf_set_inner; auto. apply NoDup_keys_del.
    unfold Dict.get_default, Dict.mem in *.
    destruct (Dict.get (subscriptions c) channel_type) eqn:E; [|discriminate].
    eapply inner_NoDup; eauto.
Qed.

Lemma registry_shape_kept_witness :
  (forall r c' t,
     subscribe true "ticker" "BTC" 4%nat
       (established 1%nat (subscriptions subscribed_client) subscribed_client)
     = (r, c', t) -> wf c' = true)
  /\ (forall r c' t,
        unsubscribe true "ticker" "BTC"
          (established 1%nat (subscriptions subscribed_client)
             subscribed_client)
        = (r, c', t) -> wf c' = true).
Proof.
  apply (registry_shape_kept
           (established 1%nat (subscriptions subscribed_client)
              subscribed_client) true "ticker" "BTC" 4%nat).
  reflexivity.
Defined.

(** Subscribing and then unsubscribing leaves the identifier without an
    entry, whatever callbacks it had before: [unsubscribe] removes the whole
    list, not the callback that was added last. *)
Theorem subscribe_then_unsubscribe c h channel_type identifier cb :
  wf c = true -> In channel_type channel_types ->
  connected c = true -> websocket c = Some h ->
  returns (subscribe true channel_type identifier cb ;;
           unsubscribe true channel_type identifier) c (fun ok c' _ =>
    ok = true /\ callbacks_of c' channel_type identifier = None).
Proof.
  intros Hwf Hin Hc Hw.
  assert (Hm : Dict.mem (subscriptions c) channel_type = true).
  { apply mem_keys. destruct (wf_NoDup c Hwf) as (-> & _). exact Hin. }
  apply returns_bind.
  eapply returns_eq; [apply (subscribe_connected true _ _ _ _ _ Hc Hw Hm)|].
  pose proof (wf_register c channel_type identifier cb Hwf Hm) as Hwf'.
  pose proof (lookup_register_same channel_type identifier cb
                (subscriptions c) Hm) as Hl.
  set (c1 := set_subscriptions
               (register channel_type identifier cb (subscriptions c)) c) in *.
  change (register channel_type identifier cb (subscriptions c))
    with (subscriptions c1) in Hl.
  unfold lookup in Hl.
  destruct (Dict.get (subscriptions c1) channel_type) as [inner|] eqn:Hg;
    [|discriminate].
  eapply returns_eq;
    [apply (unsubscribe_connected true _ _ c1 h inner _ Hc Hw Hg Hl)|].
  split; [reflexivity|]. unfold callbacks_of, lookup. simpl subscriptions.
  rewrite get_set_same. apply get_del_same. eapply inner_NoDup; eauto.
Qed.

Lemma subscribe_then_unsubscribe_witness :
  returns (subscribe true "order_book" "1" 5%nat ;;
           unsubscribe true "order_book" "1")
    (established 1%nat (subscriptions subscribed_client) subscribed_client)
    (fun ok c' _ => ok = true /\ callbacks_of c' "order_book" "1" = None).
Proof.
  apply (subscribe_then_unsubscribe
           (established 1%nat (subscriptions subscribed_client)
              subscribed_client) 1%nat "order_book" "1" 5%nat);
    try reflexivity.
  simpl. auto.
Defined.

(** *** Connecting *)

(** [connect] on a client that is connected, or in the middle of another
    [connect], opens no transport and changes nothing; it answers with the
    [connected] flag. *)
Theorem connect_is_not_reentrant env c :
  connected c = true \/ connecting c = true ->
  returns (connect env) c (fun ok c' t =>
    ok = connected c /\ c' = c /\ opens t = 0%nat /\ sends t = []).
Proof.
  intros H. unfold connect. msteps.
  assert (E : connected c || connecting c = true).
  { destruct H as [-> | ->]; auto using orb_true_r. }
  rewrite E. msteps. auto.
Qed.

Lemma connect_is_not_reentrant_witness :
  returns (connect (accepted 2%nat))
    (established 1%nat (subscriptions subscribed_client) subscribed_client)
    (fun ok c' t =>
       ok = connected
              (established 1%nat (subscriptions subscribed_client)
                 subscribed_client)
       /\ c' = established 1%nat (subscriptions subscribed_client)
                 subscribed_client
       /\ opens t = 0%nat /\ sends t = []).
Proof.
  apply (connect_is_not_reentrant (accepted 2%nat)
           (established 1%nat (subscriptions subscribed_client)
              subscribed_client)).
  left. reflexivity.
Defined.

Lemma count_none p (t : list event) :
  Forall (fun e => p e = false) t -> count p t = 0%nat.
Proof.
  unfold count. induction t as [|e r IH]; simpl; auto.
  intros H. inversion H as [|? ? He Hr]; subst. rewrite He. auto.
Qed.

Lemma resub_trace_events h so (s : registry) :
  Forall (fun e => match e with
                   | EvSubscribe _ _ _ | EvSend _ _ | EvLog _ _ => True
                   | _ => False
                   end) (resub_trace h so s).
Proof.
  unfold resub_trace. apply Forall_forall. intros e He.
  apply in_flat_map in He. destruct He as (kv & _ & He).
  apply in_flat_map in He. destruct He as (en & _ & He).
  unfold resub_events in He. destruct (snd en); simpl in He.
  - contradiction.
  - destruct He as [<-|[<-|[<-|[]]]]; auto.
    destruct (so _ _); exact I.
Qed.

(** A [connect] whose handshake succeeds leaves the client [CONNECTED] on
    the handle that was opened, resets the attempt counter to 0 and the
    backoff delay to 1, opens the transport once and starts one receive
    task. *)
Theorem connect_success_resets_backoff env c :
  wf c = true -> connected c = false -> connecting c = false ->
  handshake_fails env = false ->
  returns (connect env) c (fun ok c' t =>
    ok = true
    /\ state_of c' = CONNECTED
    /\ websocket c' = ce_open env
    /\ reconnect_attempts c' = 0
    /\ reconnect_delay c' = 1
    /\ opens t = 1%nat
    /\ count (fun e => match e with EvCreateTask => true | _ => false end) t
       = 1%nat).
Proof.
  intros Hwf Hc Hg Hf.
  destruct (connect_ok_exact env c Hf Hc Hg Hwf) as (h & Ho & E).
  eapply returns_eq; [exact E|].
  assert (N : forall p,
             (forall ct id cb, p (EvSubscribe ct id cb) = false) ->
             (forall h0 m, p (EvSend h0 m) = false) ->
             (forall l m, p (EvLog l m) = false) ->
             count p (resub_trace h (ce_send_ok env) (subscriptions c))
             = 0%nat).
  { intros p P1 P2 P3. apply count_none.
    eapply Forall_impl; [|apply resub_trace_events].
    intros [] H; simpl in H; try contradiction; auto. }
  repeat split; auto.
  - change (opens ?t)
      with (count (fun e => match e with EvOpen _ => true | _ => false end) t).
    rewrite count_app, N by reflexivity. reflexivity.
  - rewrite count_app, N by reflexivity. reflexivity.
Qed.

Lemma connect_success_resets_backoff_witness :
  returns (connect (accepted 1%nat)) subscribed_client (fun ok c' t =>
    ok = true
    /\ state_of c' = CONNECTED
    /\ websocket c' = ce_open (accepted 1%nat)
    /\ reconnect_attempts c' = 0
    /\ reconnect_delay c' = 1
    /\ opens t = 1%nat
    /\ count (fun e => match e with EvCreateTask => true | _ => false end) t
       = 1%nat).
Proof.
  apply (connect_success_resets_backoff (accepted 1%nat) subscribed_client);
    reflexivity.
Defined.

(** A reconnect replays subscriptions without changing what
    [get_subscription_count] reports: the callback lists grow, the number of
    identifiers per channel type does not. *)
Theorem reconnect_keeps_subscription_count env c :
  wf c = true -> connected c = false -> connecting c = false ->
  handshake_fails env = false ->
  returns (connect env) c (fun _ c' _ =>
    get_subscription_count c' = get_subscription_count c).
Proof.
  intros Hwf Hc Hg Hf.
  destruct (connect_ok_exact env c Hf Hc Hg Hwf) as (h & Ho & E).
  eapply returns_eq; [exact E|].
  unfold get_subscription_count, resub_registry. simpl subscriptions.
  rewrite map_map. apply map_ext. intros [k inner]. simpl.
  now rewrite length_map.
Qed.

Lemma reconnect_keeps_subscription_count_witness :
  returns (connect (accepted 1%nat)) subscribed_client (fun _ c' _ =>
    get_subscription_count c' = get_subscription_count subscribed_client).
Proof.
  apply (reconnect_keeps_subscription_count (accepted 1%nat)
           subscribed_client); reflexivity.
Defined.

(** *** Disconnecting *)

(** [disconnect] on a live connection closes the transport once and leaves
    the client without a handle, neither connected nor connecting, with the
    registry as it was.  But closing wakes the receive task, which takes the
    closure for a loss of the transport: when [disconnect] returns, the
    reconnection routine has started -- the [reconnecting] flag is set, the
    attempt counter is incremented and the sleep before the first attempt
    is under way.  A second [disconnect] finds nothing to close and changes
    none of this. *)
Theorem disconnect_twice b c h :
  websocket c = Some h -> reconnecting c = false ->
  reconnect_attempts c < max_reconnect_attempts c ->
  returns (disconnect_live ;; disconnect b) c (fun _ c' t =>
    websocket c' = None
    /\ connected c' = false /\ connecting c' = false
    /\ subscriptions c' = subscriptions c
    /\ count (fun e => match e with EvClose _ => true | _ => false end) t
       = 1%nat
    /\ reconnecting c' = true
    /\ reconnect_attempts c' = reconnect_attempts c + 1
    /\ schedule t = [Slept (reconnect_delay c)]).
Proof.
  intros Hw Hr Ha. unfold disconnect_live, receive_task_wakes, disconnect.
  msteps. cbn [websocket set_connecting set_connected]. rewrite Hw. msteps.
  cbn [reconnecting set_connecting set_connected]. rewrite Hr. msteps.
  cbn [reconnect_attempts max_reconnect_attempts set_connecting
       set_connected].
  destruct (Z.ltb_spec (reconnect_attempts c) (max_reconnect_attempts c));
    [|lia].
  msteps. simpl. msteps. simpl. repeat split; auto.
Qed.

Lemma disconnect_twice_witness :
  returns (disconnect_live ;; disconnect true)
    (established 1%nat (subscriptions subscribed_client) subscribed_client)
    (fun _ c' t =>
       websocket c' = None
       /\ connected c' = false /\ connecting c' = false
       /\ subscriptions c'
          = subscriptions
              (established 1%nat (subscriptions subscribed_client)
                 subscribed_client)
       /\ count (fun e => match e with EvClose _ => true | _ => false end) t
          = 1%nat
       /\ reconnecting c' = true
       /\ reconnect_attempts c'
          = reconnect_attempts
              (established 1%nat (subscriptions subscribed_client)
                 subscribed_client) + 1
       /\ schedule t
          = [Slept (reconnect_delay
                      (established 1%nat (subscriptions subscribed_client)
                         subscribed_client))]).
Proof.
  apply (disconnect_twice true
           (established 1%nat (subscriptions subscribed_client)
              subscribed_client) 1%nat); reflexivity.
Defined.

(** *** Routing *)

Lemma callbacks_awaited_app a b :
  callbacks_awaited (a ++ b) = callbacks_awaited a ++ callbacks_awaited b.
Proof. apply flat_map_app. Qed.

Lemma sends_app a b : sends (a ++ b) = sends a ++ sends b.
Proof. apply flat_map_app. Qed.

Lemma run_callbacks_order raises tag f cbs : forall i c,
  returns (run_callbacks raises tag f i cbs) c (fun _ c' t =>
    c' = c /\ callbacks_awaited t = cbs /\ sends t = []).
Proof.
  induction cbs as [|cb0 r IH]; intros i c; simpl; msteps; auto.
  destruct (raises i); msteps;
    (eapply returns_weaken; [apply IH|]); cbv beta;
    intros _ c' t (-> & A & S);
    rewrite !callbacks_awaited_app, !sends_app, A, S; simpl; auto.
Qed.

(** A ping frame is answered with exactly one pong on the current transport;
    no callback is awaited and the client does not change. *)
Theorem ping_is_answered_with_pong fe c h channel data :
  websocket c = Some h ->
  returns (process_message fe (Json (Some "ping") channel data)) c
    (fun _ c' t =>
       c' = c /\ sends t = [(h, pong_msg)] /\ callbacks_awaited t = []).
Proof.
  intros Hw. simpl. unfold handle_ping. msteps. rewrite Hw. msteps.
  destruct (fe_send_ok fe); msteps; auto.
Qed.

Lemma ping_is_answered_with_pong_witness :
  returns
    (process_message {| fe_send_ok := true; fe_callback_raises := fun _ => false |}
       (Json (Some "ping") None 0))
    (established 1%nat (subscriptions subscribed_client) subscribed_client)
    (fun _ c' t =>
       c' = established 1%nat (subscriptions subscribed_client)
              subscribed_client
       /\ sends t = [(1%nat, pong_msg)] /\ callbacks_awaited t = []).
Proof.
  apply (ping_is_answered_with_pong
           {| fe_send_ok := true; fe_callback_raises := fun _ => false |}
           (established 1%nat (subscriptions subscribed_client)
              subscribed_client) 1%nat None 0%nat).
  reflexivity.
Defined.

(** A frame delivered on a channel awaits the callbacks of the channel once
    each, in the order of registration, also when some of them raise; it
    sends nothing and leaves the client as it was. *)
Theorem callbacks_run_in_registration_order fe f c channel_type identifier tag :
  delivered_on channel_type identifier tag f = true ->
  returns (process_message fe f) c (fun _ c' t =>
    c' = c
    /\ callbacks_awaited t
       = match callbacks_of c channel_type identifier with
         | Some l => l
         | None => []
         end
    /\ sends t = []).
Proof.
  unfold delivered_on, process_message, callbacks_of, lookup.
  destruct f as [| |ty [ch|] dt]; try discriminate.
  destruct (message_handlers ty) as [[| | |ct' tag']|]; try discriminate.
  rewrite !andb_true_iff. intros [[[Hct Htag] Hcol] Hid].
  apply String.eqb_eq in Hct, Htag, Hid. subst ct' tag'.
  unfold handle_channel. rewrite Hcol, Hid.
  assert (E : forall Q,
             (forall l, callbacks_awaited l = [] -> sends l = [] -> Q tt c l) ->
             returns (if (tag =? "subscribed")%string
                      then log Info LogSubscribedAck else ret tt) c Q).
  { intros Q HQ. destruct (tag =? "subscribed")%string; msteps; auto. }
  msteps. apply E. intros l Hl Hs. msteps.
  destruct (Dict.get (subscriptions c) channel_type) as [inner|]; msteps.
  - eapply returns_weaken; [apply run_callbacks_order|]. cbv beta.
    intros _ c' t (-> & A & S).
    rewrite !callbacks_awaited_app, !sends_app, Hl, Hs, A, S.
    unfold Dict.get_default. simpl. destruct (Dict.get inner identifier); auto.
  - rewrite !callbacks_awaited_app, !sends_app, Hl, Hs. auto.
Qed.

Lemma callbacks_run_in_registration_order_witness :
  returns
    (process_message
       {| fe_send_ok := true; fe_callback_raises := fun _ => true |}
       (Json (Some "update/order_book") (Some "order_book:1") 0))
    subscribed_client
    (fun _ c' t =>
       c' = subscribed_client
       /\ callbacks_awaited t
          = match callbacks_of subscribed_client "order_book" "1" with
            | Some l => l
            | None => []
            end
       /\ sends t = []).
Proof.
  apply (callbacks_run_in_registration_order
           {| fe_send_ok := true; fe_callback_raises := fun _ => true |}
           (Json (Some "update/order_book") (Some "order_book:1") 0)
           subscribed_client "order_book" "1" "update").
  reflexivity.
Defined.

(** The handlers take the identifier from behind a colon in the [channel]
    field.  A frame whose channel has no colon -- the [type/identifier]
    name that [subscribe] sends, or no channel at all -- reaches no
    callback. *)
Theorem frame_without_colon_reaches_no_callback fe c type_ channel data :
  match channel with Some ch => contains ":" ch | None => false end = false ->
  returns (process_message fe (Json type_ channel data)) c (fun _ c' t =>
    c' = c /\ callbacks_awaited t = []).
Proof.
  intros Hn. unfold process_message.
  destruct (message_handlers type_) as [[| | |ct tag]|]; msteps; auto.
  - unfold handle_ping. msteps. destruct (websocket c); msteps; auto.
    destruct (fe_send_ok fe); msteps; auto.
  - unfold handle_channel.
    assert (E : contains ":" match channel with Some s => s | None => "" end
                = false) by (destruct channel; auto).
    rewrite E. msteps. auto.
Qed.

Lemma frame_without_colon_reaches_no_callback_witness :
  returns
    (process_message
       {| fe_send_ok := true; fe_callback_raises := fun _ => false |}
       (Json (Some "update/order_book")
          (Some (channel_name "order_book" "1")) 0))
    subscribed_client
    (fun _ c' t => c' = subscribed_client /\ callbacks_awaited t = []).
Proof.
  apply (frame_without_colon_reaches_no_callback
           {| fe_send_ok := true; fe_callback_raises := fun _ => false |}
           subscribed_client (Some "update/order_book")
           (Some (channel_name "order_book" "1")) 0%nat).
  reflexivity.
Defined.

(** *** Reconnecting *)

Lemma backoff_length n : forall d m, List.length (backoff n d m) = n.
Proof. induction n; simpl; intros; auto. Qed.

Lemma backoff_nth n : forall d m i,
  0 < d <= m -> (i < n)%nat ->
  nth_error (backoff n d m) i = Some (Z.min (d * 2 ^ Z.of_nat i) m).
Proof.
  induction n as [|k IH]; intros d m i Hd Hi; [lia|].
  destruct i as [|j]; cbn [backoff nth_error].
  - f_equal. change (2 ^ Z.of_nat 0) with 1. lia.
  - rewrite IH by lia. f_equal.
    replace (Z.of_nat (S j)) with (Z.of_nat j + 1) by lia.
    rewrite Z.pow_add_r by lia. change (2 ^ 1) with 2.
    assert (0 < 2 ^ Z.of_nat j) by (apply Z.pow_pos_nonneg; lia).
    destruct (Z.le_gt_cases (d * 2) m).
    + rewrite (Z.min_l (d * 2) m) by lia. f_equal. lia.
    + rewrite (Z.min_r (d * 2) m) by lia. nia.
Qed.

Lemma backoff_closed n : forall d m,
  0 < d <= m ->
  backoff n d m = map (fun i => Z.min (d * 2 ^ Z.of_nat i) m) (seq 0 n).
Proof.
  intros d m Hd. apply nth_error_ext. intros i.
  destruct (Nat.lt_ge_cases i n) as [Hi|Hi].
  - rewrite backoff_nth by auto.
    rewrite nth_error_map, nth_error_seq.
    destruct (Nat.ltb_spec i n); [|lia]. reflexivity.
  - rewrite (proj2 (nth_error_None _ _)) by (rewrite backoff_length; lia).
    symmetry. apply nth_error_None. rewrite length_map, length_seq. lia.
Qed.

Lemma attempts_after_map {A} (f : A -> Z) l :
  attempts_after (map f l) = flat_map (fun i => [Slept (f i); Opened]) l.
Proof.
  unfold attempts_after. induction l as [|x r IH]; simpl; auto.
  now rewrite IH.
Qed.

(** When every reconnection attempt fails, the routine makes as many
    attempts as the counter leaves, and the i-th attempt comes right after
    a sleep of the initial delay doubled i times and capped at the maximum
    delay: the trace shows sleep, attempt, sleep, attempt, ... in this
    order. *)
Theorem reconnection_delays_double_up_to_cap envs c :
  connected c = false -> connecting c = false -> reconnecting c = false ->
  0 < reconnect_delay c <= max_reconnect_delay c ->
  (forall i, handshake_fails (envs i) = true) ->
  returns (handle_disconnection envs) c (fun _ c' t =>
    let n := Z.to_nat (max_reconnect_attempts c - reconnect_attempts c) in
    List.length (sleeps t) = n
    /\ (forall i, (i < n)%nat ->
          nth_error (sleeps t) i
          = Some (Z.min (reconnect_delay c * 2 ^ Z.of_nat i)
                    (max_reconnect_delay c)))
    /\ opens t = n
    /\ schedule t
       = flat_map
           (fun i => [Slept (Z.min (reconnect_delay c * 2 ^ Z.of_nat i)
                               (max_reconnect_delay c));
                      Opened])
           (seq 0 n)
    /\ reconnect_attempts c' = reconnect_attempts c + Z.of_nat n
    /\ state_of c' = DISCONNECTED).
Proof.
  intros Hc Hg Hr Hd Hfail. unfold handle_disconnection. msteps.
  rewrite Hr. msteps.
  eapply returns_weaken.
  - apply returns_and;
      [apply (reconnect_loop_all_fail envs Hfail)
      |apply (reconnect_loop_schedule envs Hfail)]; simpl; auto.
  - cbv beta zeta. simpl.
    intros _ c' t ((S & O & _ & _ & C & G & R & _ & A & _) & K).
    rewrite S, backoff_length, K.
    split; [reflexivity|]. split; [intros i Hi; now apply backoff_nth|].
    split; [exact O|]. split.
    + rewrite backoff_closed by auto. apply attempts_after_map.
    + split; [exact A|]. unfold state_of. now rewrite C, G, R.
Qed.

Lemma reconnection_delays_double_up_to_cap_witness :
  returns (handle_disconnection (fun _ => refused))
    (set_reconnect_delay 4 (init "wss://x")) (fun _ c' t =>
    let n := Z.to_nat
               (max_reconnect_attempts (set_reconnect_delay 4 (init "wss://x"))
                - reconnect_attempts (set_reconnect_delay 4 (init "wss://x")))
    in
    List.length (sleeps t) = n
    /\ (forall i, (i < n)%nat ->
          nth_error (sleeps t) i
          = Some (Z.min
                    (reconnect_delay (set_reconnect_delay 4 (init "wss://x"))
                     * 2 ^ Z.of_nat i)
                    (max_reconnect_delay
                       (set_reconnect_delay 4 (init "wss://x")))))
    /\ opens t = n
    /\ schedule t
       = flat_map
           (fun i =>
              [Slept (Z.min
                        (reconnect_delay
                           (set_reconnect_delay 4 (init "wss://x"))
                         * 2 ^ Z.of_nat i)
                        (max_reconnect_delay
                           (set_reconnect_delay 4 (init "wss://x"))));
               Opened])
           (seq 0 n)
    /\ reconnect_attempts c'
       = reconnect_attempts (set_reconnect_delay 4 (init "wss://x"))
         + Z.of_nat n
    /\ state_of c' = DISCONNECTED).
Proof.
  apply (reconnection_delays_double_up_to_cap (fun _ => refused)
           (set_reconnect_delay 4 (init "wss://x")));
    try reflexivity.
  simpl. lia.
Defined.

(** When the transport is lost and the first reconnection attempt succeeds,
    the client has slept once, for the current delay, and is [CONNECTED]
    again with the attempt counter and the delay back at their initial
    values. *)
Theorem reconnect_at_first_attempt envs c :
  connecting c = false -> reconnecting c = false ->
  reconnect_attempts c < max_reconnect_attempts c ->
  handshake_fails (envs 0%nat) = false ->
  returns (on_connection_closed envs) c (fun _ c' t =>
    state_of c' = CONNECTED
    /\ sleeps t = [reconnect_delay c]
    /\ opens t = 1%nat
    /\ reconnect_attempts c' = 0
    /\ reconnect_delay c' = 1).
Proof.
  intros Hg Hr Ha Hf. unfold on_connection_closed, handle_disconnection.
  msteps. cbn [reconnecting set_connected]. rewrite Hr. msteps.
  cbn [max_reconnect_attempts reconnect_attempts set_connected].
  destruct (Z.to_nat (max_reconnect_attempts c - reconnect_attempts c))
    as [|fuel] eqn:Ef; [lia|].
  cbn [reconnect_loop]. msteps.
  cbn [max_reconnect_attempts reconnect_attempts set_connected
       set_reconnecting reconnect_delay].
  destruct (Z.ltb_spec (reconnect_attempts c) (max_reconnect_attempts c));
    [|lia].
  msteps.
  eapply returns_weaken; [apply connect_ok; auto|]. cbv beta.
  intros ok c1 t1 (-> & (h & _ & E) & _ & S & O). msteps.
  autorewrite with trace. rewrite S, O. simpl.
  rewrite E. repeat split; auto.
Qed.

Lemma reconnect_at_first_attempt_witness :
  returns (on_connection_closed (fun _ => accepted 2%nat))
    (established 1%nat (subscriptions subscribed_client) subscribed_client)
    (fun _ c' t =>
       state_of c' = CONNECTED
       /\ sleeps t
          = [reconnect_delay
               (established 1%nat (subscriptions subscribed_client)
                  subscribed_client)]
       /\ opens t = 1%nat
       /\ reconnect_attempts c' = 0
       /\ reconnect_delay c' = 1).
Proof.
  apply (reconnect_at_first_attempt (fun _ => accepted 2%nat)
           (established 1%nat (subscriptions subscribed_client)
              subscribed_client)); reflexivity.
Defined.

End WsFacts.

(** ** Formatting and metadata lookup *)

Module PrecisionFacts.
Import PyFloat Precision.

(** ** Strings *)

Lemma contains_app c a b :
  contains c (a ++ b) = contains c a || contains c b.
Proof.
  induction a as [|x a IH]; simpl; auto. rewrite IH. apply orb_assoc.
Qed.

Lemma rstrip_app_nonempty c a b :
  rstrip c b <> "" -> rstrip c (a ++ b) = (a ++ rstrip c b)%string.
Proof.
  intros Hb. induction a as [|x a IH]; simpl; auto.
  rewrite IH. destruct (a ++ rstrip c b)%string eqn:E; auto.
  destruct a; simpl in E; [contradiction | discriminate].
Qed.

Lemma rstrip_app_empty c a b :
  rstrip c b = "" -> rstrip c (a ++ b) = rstrip c a.
Proof.
  intros Hb. induction a as [|x a IH]; simpl; auto. now rewrite IH.
Qed.

Lemma rstrip_length c s : (String.length (rstrip c s) <= String.length s)%nat.
Proof.
  induction s as [|x s IH]; simpl; auto.
  destruct (rstrip c s); simpl in *.
  - destruct (Ascii.eqb x c); simpl; lia.
  - lia.
Qed.

Lemma rstrip_last c s : last_char (rstrip c s) <> Some c.
Proof.
  induction s as [|x s IH]; simpl; [discriminate|].
  destruct (rstrip c s) as [|y r] eqn:E.
  - destruct (Ascii.eqb_spec x c); simpl; congruence.
  - simpl in *. exact IH.
Qed.

Lemma last_char_contains c s : last_char s = Some c -> contains c s = true.
Proof.
  induction s as [|x s IH]; simpl; [discriminate|].
  destruct s as [|y r].
  - intros [= ->]. now rewrite Ascii.eqb_refl.
  - intros E. rewrite IH by exact E. apply orb_true_r.
Qed.

Lemma rstrip_absent c s : contains c s = false -> rstrip c s = s.
Proof.
  induction s as [|x s IH]; simpl; auto.
  intros E. apply orb_false_iff in E as [Ex Es]. rewrite IH by auto.
  destruct s; [now rewrite Ex | reflexivity].
Qed.

Lemma contains_rstrip c d s : contains c s = false -> contains c (rstrip d s) = false.
Proof.
  induction s as [|x s IH]; simpl; auto.
  intros E. apply orb_false_iff in E as [Ex Es]. specialize (IH Es).
  destruct (rstrip d s); simpl in *.
  - destruct (Ascii.eqb x d); simpl; auto. now rewrite Ex.
  - now rewrite Ex.
Qed.

Lemma last_char_app a b : b <> "" -> last_char (a ++ b) = last_char b.
Proof.
  intros Hb. induction a as [|x a IH]; simpl; auto.
  rewrite IH. destruct (a ++ b)%string eqn:E; auto.
  destruct a; simpl in E; [contradiction | discriminate].
Qed.

Lemma after_point_app pre s :
  contains "." pre = false -> after_point (pre ++ "." ++ s) = s.
Proof.
  induction pre as [|x pre IH]; simpl; auto.
  intros E. apply orb_false_iff in E as [Ex Es]. rewrite Ex. now apply IH.
Qed.

Lemma after_point_absent s : contains "." s = false -> after_point s = "".
Proof.
  induction s as [|x s IH]; simpl; auto.
  intros E. apply orb_false_iff in E as [Ex Es]. now rewrite Ex, IH.
Qed.

Lemma append_nil_r s : (s ++ "")%string = s.
Proof. induction s; simpl; congruence. Qed.

Lemma append_assoc a b c : ((a ++ b) ++ c = a ++ (b ++ c))%string.
Proof. induction a; simpl; congruence. Qed.

Lemma length_append a b :
  String.length (a ++ b) = (String.length a + String.length b)%nat.
Proof. induction a; simpl; congruence. Qed.

(** The shape of [strip_zeros] on a number written with a decimal point. *)
Lemma strip_zeros_point pre fd :
  contains "." pre = false -> contains "." fd = false ->
  strip_zeros (pre ++ "." ++ fd)
  = if String.eqb (rstrip "0" fd) "" then pre
    else (pre ++ "." ++ rstrip "0" fd)%string.
Proof.
  intros Hp Hf. unfold strip_zeros.
  assert (Hc : contains "." (pre ++ "." ++ fd) = true).
  { rewrite contains_app. simpl. apply orb_true_r. }
  rewrite Hc.
  assert (E0 : rstrip "0" ("." ++ fd) = ("." ++ rstrip "0" fd)%string).
  { simpl. now destruct (rstrip "0" fd). }
  rewrite (rstrip_app_nonempty "0" pre ("." ++ fd)) by (rewrite E0; discriminate).
  rewrite E0. destruct (String.eqb_spec (rstrip "0" fd) "") as [E|E].
  - rewrite E. rewrite rstrip_app_empty by reflexivity.
    now apply rstrip_absent.
  - assert (Er : rstrip "." (rstrip "0" fd) = rstrip "0" fd).
    { apply rstrip_absent. now apply contains_rstrip. }
    change ("." ++ rstrip "0" fd)%string
      with (String "." (rstrip "0" fd)).
    rewrite rstrip_app_nonempty; simpl; rewrite Er;
      destruct (rstrip "0" fd); congruence.
Qed.

Lemma strip_zeros_shape pre fd :
  contains "." pre = false -> contains "." fd = false ->
  let out := strip_zeros (pre ++ "." ++ fd) in
  (String.length (after_point out) <= String.length fd)%nat
  /\ (contains "." out = true -> last_char out <> Some "0"%char)
  /\ last_char out <> Some "."%char
  /\ (rstrip "0" fd = "" -> contains "." out = false).
Proof.
  intros Hp Hf out. subst out. rewrite strip_zeros_point by auto.
  destruct (String.eqb_spec (rstrip "0" fd) "") as [E|E].
  - rewrite after_point_absent by auto. simpl.
    split; [lia|]. split; [congruence|]. split; [|auto].
    intros El. apply last_char_contains in El. congruence.
  - rewrite after_point_app by auto.
    split; [apply rstrip_length|].
    assert (El : last_char (pre ++ "." ++ rstrip "0" fd)
                 = last_char (rstrip "0" fd)).
    { rewrite (last_char_app pre) by discriminate.
      change ("." ++ rstrip "0" fd)%string with (String "." (rstrip "0" fd)).
      simpl. destruct (rstrip "0" fd); congruence. }
    rewrite El. split; [intros _; apply rstrip_last|].
    split; [|contradiction].
    intros El'. apply last_char_contains in El'.
    rewrite contains_rstrip in El'; congruence.
Qed.

Lemma strip_zeros_plain s :
  contains "." s = false ->
  let out := strip_zeros s in
  out = s /\ after_point out = "" /\ contains "." out = false
  /\ last_char out <> Some "."%char.
Proof.
  intros Hs out. subst out. unfold strip_zeros. rewrite Hs.
  split; [reflexivity|]. split; [now apply after_point_absent|].
  split; [assumption|].
  intros El. apply last_char_contains in El. congruence.
Qed.

(** ** Fixed-point formatting *)

#[local] Arguments digit : simpl never.

Lemma digit_spec d :
  0 <= d < 10 ->
  digit d <> "."%char /\ (digit d = "0"%char <-> d = 0).
Proof.
  intros Hd.
  assert (d = 0 \/ d = 1 \/ d = 2 \/ d = 3 \/ d = 4 \/ d = 5 \/ d = 6
          \/ d = 7 \/ d = 8 \/ d = 9) as H by lia.
  repeat (destruct H as [->|H]); try subst d;
    (split; [cbv; discriminate
            | split; intros E;
              [try reflexivity; cbv in E; discriminate E
              | try reflexivity; lia]]).
Qed.

Lemma frac_digits_no_point p : forall n, contains "." (frac_digits p n) = false.
Proof.
  induction p as [|p IH]; intros n; cbn [frac_digits]; [reflexivity|].
  rewrite contains_app, IH. cbn [contains orb].
  destruct (digit_spec (n mod 10)) as [Hd _].
  { apply Z.mod_pos_bound. lia. }
  destruct (Ascii.eqb_spec (digit (n mod 10)) "."); [contradiction | reflexivity].
Qed.

Lemma frac_digits_length p : forall n, String.length (frac_digits p n) = p.
Proof.
  induction p as [|p IH]; intros n; cbn [frac_digits]; [reflexivity|].
  rewrite length_append, IH. cbn [String.length]. lia.
Qed.

Lemma frac_digits_zero p : forall n,
  n mod 10 ^ Z.of_nat p = 0 -> rstrip "0" (frac_digits p n) = "".
Proof.
  induction p as [|p IH]; intros n Hn; cbn [frac_digits]; [reflexivity|].
  rewrite Nat2Z.inj_succ, Z.pow_succ_r in Hn by lia.
  assert (H10 : 0 < 10 ^ Z.of_nat p) by (apply Z.pow_pos_nonneg; lia).
  assert (Hm : n mod 10 = 0 /\ (n / 10) mod 10 ^ Z.of_nat p = 0).
  { rewrite Z.rem_mul_r in Hn by lia.
    pose proof (Z.mod_pos_bound n 10 ltac:(lia)).
    pose proof (Z.mod_pos_bound (n / 10) (10 ^ Z.of_nat p) H10). nia. }
  destruct Hm as [Hm0 Hm1].
  rewrite rstrip_app_empty.
  - now apply IH.
  - rewrite Hm0. reflexivity.
Qed.

Lemma string_of_uint_no_point u :
  contains "." (NilEmpty.string_of_uint u) = false.
Proof. induction u; simpl; auto. Qed.

Lemma int_digits_no_point n : contains "." (int_digits n) = false.
Proof.
  unfold int_digits, NilZero.string_of_uint.
  destruct (N.to_uint (Z.to_N n)) eqn:E; try reflexivity;
    rewrite <- E; apply string_of_uint_no_point.
Qed.

Lemma sign_string_no_point s : contains "." (sign_string s) = false.
Proof. now destruct s. Qed.

(** The shape of a stripped number with sign [s], digits [n] and [p]
    decimals. *)
Lemma stripped_number_shape s n p :
  let out := strip_zeros (sign_string s ++ fixed_digits n p) in
  (String.length (after_point out) <= p)%nat
  /\ (contains "." out = true -> last_char out <> Some "0"%char)
  /\ last_char out <> Some "."%char
  /\ (n mod 10 ^ Z.of_nat p = 0 -> contains "." out = false).
Proof.
  destruct p as [|p]; cbn [fixed_digits].
  - destruct (strip_zeros_plain (sign_string s ++ int_digits n))
      as (E & A & C & L).
    { now rewrite contains_app, sign_string_no_point, int_digits_no_point. }
    cbv zeta. rewrite A. simpl. repeat split; auto; try lia. congruence.
  - set (q := n / 10 ^ Z.of_nat (S p)). set (fd := frac_digits (S p) n).
    rewrite <- append_assoc.
    destruct (strip_zeros_shape (sign_string s ++ int_digits q) fd)
      as (A & Z0 & L & I).
    { now rewrite contains_app, sign_string_no_point, int_digits_no_point. }
    { apply frac_digits_no_point. }
    cbv zeta. unfold fd in A at 2. rewrite frac_digits_length in A.
    repeat split; auto. intros Hn. apply I. now apply frac_digits_zero.
Qed.

(** The shape of [f"{x:.{p}f}"] after stripping. *)
Lemma format_fixed_shape x p :
  let out := strip_zeros (format_fixed x p) in
  (String.length (after_point out) <= p)%nat
  /\ (contains "." out = true -> last_char out <> Some "0"%char)
  /\ last_char out <> Some "."%char
  /\ (prints_integral x p = true -> contains "." out = false).
Proof.
  destruct x as [s|s| |s m e]; cbn [format_fixed prints_integral].
  - destruct (stripped_number_shape s 0 p) as (A & Z0 & L & I).
    repeat split; auto.
  - destruct s; cbn; repeat split; try lia; congruence.
  - cbn; repeat split; try lia; congruence.
  - destruct (stripped_number_shape s (scaled_digits m e p) p)
      as (A & Z0 & L & I).
    repeat split; auto. intros Hn. apply I. now apply Z.eqb_eq.
Qed.

(** ** The precision manager *)

(** Claim C6.  For a symbol that is not cached, when the listing cannot be
    fetched, or holds neither the symbol nor its base symbol and no market
    identifier can be resolved for it, [get_market_info] returns the default
    market and leaves the caches alone.  The default takes its precisions
    from the table of known symbols and is (2, 4) otherwise, with minimum
    quantity 0.001 and minimum notional 10.0; for ["ZZZ-USDT"] it is exactly
    that record. *)
Theorem default_market_on_lookup_failure env m sym :
  cached m sym = None ->
  me_order_books env = None
  \/ (exists l,
        me_order_books env = Some l
        /\ find_symbol sym l = None
        /\ find_symbol (base_symbol sym) l = None
        /\ symbol_to_market_id_from_api env sym = None) ->
  get_market_info env m sym = (get_default_precision sym, m)
  /\ (price_precision (get_default_precision sym),
      quantity_precision (get_default_precision sym))
     = Dict.get_default default_precisions sym (2, 4)%nat
  /\ min_quantity (get_default_precision sym) = literal 1 3
  /\ min_notional (get_default_precision sym) = literal 100 1
  /\ (sym = "ZZZ-USDT" ->
      get_default_precision sym =
        {| symbol := "ZZZ-USDT"; market_id := 0;
           base_asset := "ZZZ"; quote_asset := "USDT";
           price_precision := 2; quantity_precision := 4;
           min_quantity := literal 1 3; min_notional := literal 100 1;
           listing_fields := None |}).
Proof.
  intros Hc Hl. split; [|split; [|split; [|split]]].
  - unfold get_market_info. rewrite Hc.
    assert (E : lookup env sym = None).
    { unfold lookup. destruct Hl as [->|(l & -> & -> & -> & ->)]; reflexivity. }
    now rewrite E.
  - unfold get_default_precision. simpl.
    now destruct (Dict.get_default default_precisions sym (2, 4)%nat).
  - reflexivity.
  - reflexivity.
  - intros ->. reflexivity.
Qed.

Lemma default_market_on_lookup_failure_witness :
  get_market_info
    {| me_order_books := Some []; me_order_books_again := Some [];
       me_order_book_details := fun _ => None |} init "ZZZ-USDT"
  = (get_default_precision "ZZZ-USDT", init)
  /\ (price_precision (get_default_precision "ZZZ-USDT"),
      quantity_precision (get_default_precision "ZZZ-USDT"))
     = Dict.get_default default_precisions "ZZZ-USDT" (2, 4)%nat
  /\ min_quantity (get_default_precision "ZZZ-USDT") = literal 1 3
  /\ min_notional (get_default_precision "ZZZ-USDT") = literal 100 1
  /\ ("ZZZ-USDT" = "ZZZ-USDT" ->
      get_default_precision "ZZZ-USDT" =
        {| symbol := "ZZZ-USDT"; market_id := 0;
           base_asset := "ZZZ"; quote_asset := "USDT";
           price_precision := 2; quantity_precision := 4;
           min_quantity := literal 1 3; min_notional := literal 100 1;
           listing_fields := None |}).
Proof.
  apply (default_market_on_lookup_failure
           {| me_order_books := Some []; me_order_books_again := Some [];
              me_order_book_details := fun _ => None |} init "ZZZ-USDT").
  - reflexivity.
  - right. exists []. repeat split; reflexivity.
Defined.

(** The literals of the default market are the binary64 numbers nearest to
    0.001 and 10. *)
Example literal_0_001 : literal 1 3 = S754_finite false 4611686018427388 (-62).
Proof. vm_compute. reflexivity. Qed.

Example literal_10_0 : literal 100 1 = S754_finite false 5629499534213120 (-49).
Proof. vm_compute. reflexivity. Qed.

(** Claim C7.  For every value and symbol, the string returned by
    [format_price] (resp. [format_quantity]) has at most [price_precision]
    (resp. [quantity_precision]) characters after the decimal point, does
    not end in a zero when it has a decimal point, does not end in a decimal
    point, and has no decimal point when the value printed with that
    precision is a whole number. *)
Theorem format_output_shape m x sym :
  (let p := price_precision (resolve m sym) in
   let out := format_price m x sym in
   (String.length (after_point out) <= p)%nat
   /\ (contains "." out = true -> last_char out <> Some "0"%char)
   /\ last_char out <> Some "."%char
   /\ (prints_integral x p = true -> contains "." out = false))
  /\
  (let p := quantity_precision (resolve m sym) in
   let q := if lt x (min_quantity (resolve m sym))
            then min_quantity (resolve m sym) else x in
   let out := format_quantity m x sym in
   (String.length (after_point out) <= p)%nat
   /\ (contains "." out = true -> last_char out <> Some "0"%char)
   /\ last_char out <> Some "."%char
   /\ (prints_integral q p = true -> contains "." out = false)).
Proof.
  split; cbv zeta; [unfold format_price | unfold format_quantity];
    apply format_fixed_shape.
Qed.

(** *** Reading tick sizes *)

Lemma split_on_absent c s : contains c s = false -> split_on c s = [s].
Proof.
  induction s as [|a r IH]; simpl; auto.
  destruct (Ascii.eqb a c); simpl; [discriminate|].
  intros H. now rewrite IH.
Qed.

Lemma split_on_app c i f :
  contains c i = false ->
  split_on c (i ++ String c f) = i :: split_on c f.
Proof.
  induction i as [|a r IH]; simpl.
  - now rewrite Ascii.eqb_refl.
  - destruct (Ascii.eqb a c); simpl; [discriminate|].
    intros H. now rewrite IH.
Qed.

(** [_extract_precision] counts the decimals of a tick size up to the last
    one that is not a zero: for an integer part [i] and decimals [f] it is
    the length of [f] without its trailing zeros, so that appended zeros do
    not change it; a tick size without a point has precision 0. *)
Theorem extract_precision_ignores_trailing_zeros i f :
  contains "." i = false -> contains "." f = false ->
  extract_precision (i ++ "." ++ f) = String.length (rstrip "0" f)
  /\ extract_precision (i ++ "." ++ f ++ "0") = extract_precision (i ++ "." ++ f)
  /\ (extract_precision (i ++ "." ++ f) <= String.length f)%nat
  /\ extract_precision i = 0%nat.
Proof.
  intros Hi Hf.
  assert (E : forall g, contains "." g = false ->
                extract_precision (i ++ "." ++ g)
                = String.length (rstrip "0" g)).
  { intros g Hg. unfold extract_precision.
    rewrite contains_app. simpl contains. rewrite orb_true_r. simpl negb.
    cbv iota. change ("." ++ g)%string with (String "." g).
    rewrite split_on_app by auto. rewrite split_on_absent by auto.
    reflexivity. }
  split; [apply E; auto|]. split; [|split].
  - rewrite !E; auto.
    + f_equal. apply rstrip_app_empty. reflexivity.
    + rewrite contains_app, Hf. reflexivity.
  - rewrite E by auto. apply rstrip_length.
  - unfold extract_precision. now rewrite Hi.
Qed.

Lemma extract_precision_ignores_trailing_zeros_witness :
  extract_precision ("0" ++ "." ++ "0100") = String.length (rstrip "0" "0100")
  /\ extract_precision ("0" ++ "." ++ "0100" ++ "0")
     = extract_precision ("0" ++ "." ++ "0100")
  /\ (extract_precision ("0" ++ "." ++ "0100") <= String.length "0100")%nat
  /\ extract_precision "0" = 0%nat.
Proof.
  apply (extract_precision_ignores_trailing_zeros "0" "0100"); reflexivity.
Defined.

(** *** Caching *)

(** A market found by [get_market_info] is cached under its symbol: the
    next call for the symbol returns the same market without consulting the
    metadata service and without changing the caches. *)
Theorem lookup_result_is_cached env env' m sym id info :
  cached m sym = None -> lookup env sym = Some (id, info) ->
  fst (get_market_info env m sym) = info
  /\ get_market_info env' (snd (get_market_info env m sym)) sym
     = (info, snd (get_market_info env m sym)).
Proof.
  intros Hc Hl. unfold get_market_info at 1 3 4. rewrite Hc, Hl. simpl.
  split; [reflexivity|].
  unfold get_market_info, cached. simpl.
  now rewrite !DictFacts.get_set_same.
Qed.

Lemma lookup_result_is_cached_witness :
  fst (get_market_info sample_env init "ETH")
  = {| symbol := "ETH"; market_id := 0; base_asset := "ETH";
       quote_asset := "USD"; price_precision := 3; quantity_precision := 4;
       min_quantity := literal 1 3; min_notional := literal 100 1;
       listing_fields :=
         Some {| market_type := "perp"; base_asset_id := 0;
                 quote_asset_id := 0; status := "unknown";
                 taker_fee := literal 0 4; maker_fee := literal 0 4 |} |}
  /\ get_market_info fine_env (snd (get_market_info sample_env init "ETH"))
       "ETH"
     = ({| symbol := "ETH"; market_id := 0; base_asset := "ETH";
           quote_asset := "USD"; price_precision := 3;
           quantity_precision := 4;
           min_quantity := literal 1 3; min_notional := literal 100 1;
           listing_fields :=
             Some {| market_type := "perp"; base_asset_id := 0;
                     quote_asset_id := 0; status := "unknown";
                     taker_fee := literal 0 4; maker_fee := literal 0 4 |} |},
        snd (get_market_info sample_env init "ETH")).
Proof.
  apply (lookup_result_is_cached sample_env fine_env init "ETH" 0); reflexivity.
Defined.

(** When the listing entry of the symbol carries a precision, an amount or
    a fee that [int] or [float] rejects, [get_market_info] does not raise:
    it returns the default market and caches nothing. *)
Theorem invalid_listing_entry_gives_default env m sym l ob :
  cached m sym = None ->
  me_order_books env = Some l -> find_symbol sym l = Some ob ->
  ob_supported_price_decimals ob = Invalid
  \/ ob_supported_size_decimals ob = Invalid
  \/ ob_min_base_amount ob = Invalid
  \/ ob_min_quote_amount ob = Invalid
  \/ ob_taker_fee ob = Invalid
  \/ ob_maker_fee ob = Invalid ->
  get_market_info env m sym = (get_default_precision sym, m).
Proof.
  intros Hc Hl Hf Hinv.
  assert (Hp : parse_market_info ob = None).
  { unfold parse_market_info.
    destruct (ob_supported_price_decimals ob), (ob_supported_size_decimals ob),
      (ob_min_base_amount ob), (ob_min_quote_amount ob), (ob_taker_fee ob),
      (ob_maker_fee ob); simpl; try reflexivity;
      exfalso; intuition discriminate. }
  unfold get_market_info, lookup. rewrite Hc, Hl, Hf, Hp.
  now destruct (ob_market_id ob).
Qed.

Lemma invalid_listing_entry_gives_default_witness :
  get_market_info sample_env init "BAD" = (get_default_precision "BAD", init).
Proof.
  apply (invalid_listing_entry_gives_default sample_env init "BAD"
           [eth_order_book; bad_order_book] bad_order_book);
    try reflexivity.
  left. reflexivity.
Defined.

(** The formatting functions read the index with the default identifier 0.
    Once a market with the identifier 0 is cached, a symbol that was never
    looked up is formatted with that market's precision instead of the
    default one. *)
Theorem unseen_symbol_uses_market_zero env m sym info other x :
  cached m sym = None -> lookup env sym = Some (0, info) ->
  other <> sym -> Dict.get (symbol_to_market_id m) other = None ->
  format_price (snd (get_market_info env m sym)) x other
  = strip_zeros (format_fixed x (price_precision info)).
Proof.
  intros Hc Hl Hne Hg. unfold get_market_info. rewrite Hc, Hl. simpl.
  unfold format_price, resolve. simpl.
  unfold Dict.get_default at 2.
  rewrite DictFacts.get_set_other by auto. rewrite Hg.
  unfold Dict.get_default. now rewrite DictFacts.get_set_same.
Qed.

Lemma unseen_symbol_uses_market_zero_witness :
  format_price (snd (get_market_info sample_env init "ETH"))
    (literal 15 1) "DOGE"
  = strip_zeros
      (format_fixed (literal 15 1)
         (price_precision (fst (get_market_info sample_env init "ETH")))).
Proof.
  apply (unseen_symbol_uses_market_zero sample_env init "ETH"
           (fst (get_market_info sample_env init "ETH")) "DOGE"
           (literal 15 1)); try reflexivity.
  discriminate.
Defined.

Lemma consistent_set m sym id info :
  consistent m ->
  consistent {| precision_cache := Dict.set (precision_cache m) id info;
                symbol_to_market_id := Dict.set (symbol_to_market_id m) sym id |}.
Proof.
  intros Hm s i. simpl.
  destruct (String.eqb_spec sym s) as [->|Hs].
  - rewrite DictFacts.get_set_same. intros [= <-].
    exists info. apply DictFacts.get_set_same.
  - rewrite DictFacts.get_set_other by auto. intros Hi.
    destruct (Z.eq_dec id i) as [->|Hid].
    + exists info. apply DictFacts.get_set_same.
    + rewrite DictFacts.get_set_other by auto. eapply Hm; eauto.
Qed.

Lemma refresh_loop_consistent l : forall m,
  consistent m ->
  Forall (fun ob => parse_market_info ob <> None) l ->
  consistent (refresh_loop l m).
Proof.
  induction l as [|ob r IH]; intros m Hm HF; simpl; auto.
  inversion HF as [|? ? Hob Hr]; subst.
  destruct (ob_symbol ob) as [sym|]; [|auto].
  destruct (ob_market_id ob) as [id|]; [|auto].
  destruct (parse_market_info ob) as [info|]; [|congruence].
  apply IH; auto. now apply consistent_set.
Qed.

(** Every indexed symbol has its market in the cache: [get_market_info]
    keeps this, and [refresh_cache] establishes it from any state when every
    entry of the listing can be parsed (or the listing cannot be fetched). *)
Theorem caches_stay_consistent env listing m sym :
  (consistent m -> consistent (snd (get_market_info env m sym)))
  /\ ((forall l, listing = Some l ->
         Forall (fun ob => parse_market_info ob <> None) l) ->
      consistent (refresh_cache listing m)).
Proof.
  split.
  - intros Hm. unfold get_market_info.
    destruct (cached m sym); [exact Hm|].
    destruct (lookup env sym) as [[id info]|]; [|exact Hm].
    simpl. now apply consistent_set.
  - intros Hl. unfold refresh_cache. destruct listing as [l|].
    + apply refresh_loop_consistent; auto. intros s i. discriminate.
    + intros s i. discriminate.
Qed.

Lemma caches_stay_consistent_witness :
  consistent (refresh_cache (Some [eth_order_book]) fine_manager).
Proof.
  apply (proj2 (caches_stay_consistent sample_env (Some [eth_order_book])
                  fine_manager "ETH")).
  intros l [= <-]. constructor; [discriminate|constructor].
Defined.

(** [refresh_cache] gives up at the first entry that cannot be parsed: the
    symbol of that entry is already indexed, its market is not cached, and
    the entries behind it are not read. *)
Theorem refresh_stops_at_bad_entry m ob rest sym id :
  ob_symbol ob = Some sym -> ob_market_id ob = Some id ->
  parse_market_info ob = None ->
  refresh_cache (Some (ob :: rest)) m
  = {| precision_cache := []; symbol_to_market_id := [(sym, id)] |}.
Proof.
  intros Hs Hi Hp. unfold refresh_cache. simpl. now rewrite Hs, Hi, Hp.
Qed.

Lemma refresh_stops_at_bad_entry_witness :
  refresh_cache (Some (bad_order_book :: [eth_order_book])) fine_manager
  = {| precision_cache := []; symbol_to_market_id := [("BAD", 5)] |}.
Proof.
  apply (refresh_stops_at_bad_entry fine_manager bad_order_book
           [eth_order_book] "BAD" 5); reflexivity.
Defined.

(** *** Resolving market identifiers *)

Lemma scan_market_id_sound sym l : forall id,
  scan_market_id sym l = Some (Some id) ->
  exists ob, In ob l /\ ob_market_id ob = Some id /\ names_symbol sym ob.
Proof.
  induction l as [|ob r IH]; simpl; intros id; [discriminate|].
  destruct (ob_symbol ob) as [s|] eqn:Es.
  - destruct (String.eqb_spec s sym) as [->|Hne].
    + destruct (ob_market_id ob) eqn:Ei; [|discriminate].
      intros [= ->]. exists ob. repeat split; auto. now left.
    + destruct (ob_market_symbol ob) as [ms|] eqn:Em.
      * destruct (String.eqb_spec (replace_char "/" "-" ms) sym) as [E|_].
        -- destruct (ob_market_id ob) eqn:Ei; [|discriminate].
           intros [= ->]. exists ob. repeat split; auto.
           right. exists ms. auto.
        -- intros H. destruct (IH _ H) as (o & Ho & R). exists o. intuition.
      * intros H. destruct (IH _ H) as (o & Ho & R). exists o. intuition.
  - destruct (ob_market_symbol ob) as [ms|] eqn:Em.
    + destruct (String.eqb_spec (replace_char "/" "-" ms) sym) as [E|_].
      * destruct (ob_market_id ob) eqn:Ei; [|discriminate].
        intros [= ->]. exists ob. repeat split; auto.
        right. exists ms. auto.
      * intros H. destruct (IH _ H) as (o & Ho & R). exists o. intuition.
    + intros H. destruct (IH _ H) as (o & Ho & R). exists o. intuition.
Qed.

(** An identifier returned by [_symbol_to_market_id_from_api] is the
    [market_id] of an entry of the listing whose [symbol] is the symbol or
    whose [market_symbol], with ["/"] replaced by ["-"], is the symbol. *)
Theorem resolved_market_id_names_symbol env sym id :
  symbol_to_market_id_from_api env sym = Some id ->
  exists l ob,
    me_order_books_again env = Some l
    /\ In ob l /\ ob_market_id ob = Some id /\ names_symbol sym ob.
Proof.
  unfold symbol_to_market_id_from_api.
  destruct (me_order_books_again env) as [l|]; [|discriminate].
  destruct (scan_market_id sym l) as [r|] eqn:E; [|discriminate].
  intros ->. destruct (scan_market_id_sound sym l id E) as (ob & H).
  exists l, ob. intuition.
Qed.

Lemma resolved_market_id_names_symbol_witness :
  exists l ob,
    me_order_books_again sample_env = Some l
    /\ In ob l /\ ob_market_id ob = Some 5 /\ names_symbol "BAD" ob.
Proof.
  apply (resolved_market_id_names_symbol sample_env "BAD" 5). reflexivity.
Defined.

(** *** Formatting quantities *)

Lemma lt_irrefl x : lt x x = false.
Proof.
  unfold lt, SFltb. destruct x as [s|s| |s m e]; simpl; auto.
  - destruct s; reflexivity.
  - destruct s; rewrite Z.compare_refl, Pos.compare_refl; reflexivity.
Qed.

(** A quantity below the market's minimum is printed as the minimum
    itself. *)
Theorem format_quantity_clamps_to_minimum m quantity sym :
  lt quantity (min_quantity (resolve m sym)) = true ->
  format_quantity m quantity sym
  = format_quantity m (min_quantity (resolve m sym)) sym.
Proof.
  intros H. unfold format_quantity. rewrite H, lt_irrefl. reflexivity.
Qed.

Lemma format_quantity_clamps_to_minimum_witness :
  format_quantity init (literal 1 4) "ETH-USDT"
  = format_quantity init (min_quantity (resolve init "ETH-USDT")) "ETH-USDT".
Proof.
  apply (format_quantity_clamps_to_minimum init (literal 1 4) "ETH-USDT").
  vm_compute. reflexivity.
Defined.

End PrecisionFacts.

(** ** Tick-size adjustment *)

Module FloatFacts.
Import PyFloat Precision.
Local Open Scope Z_scope.

(** ** Rounding to the nearest integer *)

Lemma round_half_even_spec n d :
  0 < d -> Z.abs (2 * (round_half_even n d * d - n)) <= d.
Proof.
  intros Hd. unfold round_half_even.
  pose proof (Z.div_mod n d ltac:(lia)) as E.
  pose proof (Z.mod_pos_bound n d Hd) as B.
  destruct (Z.compare_spec (2 * (n mod d)) d); [|nia|nia].
  destruct (Z.even (n / d)); nia.
Qed.

Lemma round_half_even_unique n d k :
  0 < d -> Z.abs (2 * (k * d - n)) < d -> round_half_even n d = k.
Proof.
  intros Hd Hk. pose proof (round_half_even_spec n d Hd) as Hr.
  assert (Z.abs (round_half_even n d - k) * d < 1 * d) by nia.
  assert (Z.abs (round_half_even n d - k) < 1) by nia. lia.
Qed.

Lemma round_half_even_nonneg n d : 0 < d -> 0 <= n -> 0 <= round_half_even n d.
Proof.
  intros Hd Hn. unfold round_half_even.
  pose proof (Z.div_pos n d Hn Hd).
  destruct (2 * (n mod d) ?= d); [destruct (Z.even (n / d))| |]; lia.
Qed.

(** ** Powers of two as real numbers *)

Local Open Scope R_scope.

Lemma IZR_pow2 z : (0 <= z)%Z -> IZR (2 ^ z) = powerRZ 2 z.
Proof.
  intros Hz. rewrite <- (Z2Nat.id z Hz) at 1 2.
  rewrite <- pow_IZR, <- pow_powerRZ. reflexivity.
Qed.

Lemma pow2_pos e : 0 < powerRZ 2 e.
Proof. apply powerRZ_lt. lra. Qed.

Lemma pow2_add a b : powerRZ 2 (a + b) = powerRZ 2 a * powerRZ 2 b.
Proof. apply powerRZ_add. lra. Qed.

Lemma IZR_pow2_pos z : 0 < IZR (2 ^ Z.max z 0).
Proof. apply IZR_lt. apply Z.pow_pos_nonneg; lia. Qed.

Lemma pow2_ge_1 z : (0 <= z)%Z -> 1 <= powerRZ 2 z.
Proof.
  intros Hz. rewrite <- IZR_pow2 by auto. apply IZR_le.
  assert (0 < 2 ^ z)%Z by (apply Z.pow_pos_nonneg; lia). lia.
Qed.

Lemma pow2_le a b : (a <= b)%Z -> powerRZ 2 a <= powerRZ 2 b.
Proof.
  intros H. replace b with (a + (b - a))%Z by lia. rewrite pow2_add.
  pose proof (pow2_pos a). pose proof (pow2_ge_1 (b - a) ltac:(lia)). nra.
Qed.

Lemma pow2_lt_inv a b : powerRZ 2 a < powerRZ 2 b -> (a < b)%Z.
Proof.
  intros H. destruct (Z_lt_le_dec a b) as [|Hle]; auto.
  apply pow2_le in Hle. lra.
Qed.

(** [2^max(e,0) / 2^max(-e,0) = 2^e] *)
Lemma pow2_max e :
  IZR (2 ^ Z.max e 0) = powerRZ 2 e * IZR (2 ^ Z.max (- e) 0).
Proof.
  destruct (Z_le_gt_dec 0 e).
  - rewrite Z.max_l, Z.max_r by lia. rewrite (IZR_pow2 e) by lia. simpl. lra.
  - rewrite Z.max_r, Z.max_l by lia. rewrite (IZR_pow2 (- e)) by lia.
    rewrite <- pow2_add. replace (e + - e)%Z with 0%Z by lia. simpl. lra.
Qed.

(** the quotient of the two integers that the code forms for [q / 2^e] *)
Lemma scaled_quotient n d e :
  (0 < d)%Z ->
  IZR (n * 2 ^ Z.max (- e) 0) / IZR (d * 2 ^ Z.max e 0)
  = IZR n / IZR d / powerRZ 2 e.
Proof.
  intros Hd. rewrite !mult_IZR, (pow2_max e).
  pose proof (pow2_pos e). pose proof (IZR_pow2_pos (- e)).
  assert (0 < IZR d) by (apply IZR_lt; lia).
  field. repeat split; lra.
Qed.

Lemma floor_log2_spec n d :
  (0 < n)%Z -> (0 < d)%Z ->
  powerRZ 2 (floor_log2 n d) <= IZR n / IZR d
  < powerRZ 2 (floor_log2 n d + 1).
Proof.
  intros Hn Hd. unfold floor_log2.
  set (l := (Z.log2 n - Z.log2 d)%Z).
  destruct (Z.log2_spec n Hn) as [Ln Un].
  destruct (Z.log2_spec d Hd) as [Ld Ud].
  pose proof (Z.log2_nonneg n). pose proof (Z.log2_nonneg d).
  apply IZR_le in Ln, Ld. apply IZR_lt in Un, Ud.
  rewrite IZR_pow2 in Ln, Ld, Un, Ud by lia.
  replace (Z.succ (Z.log2 n)) with (Z.log2 n + 1)%Z in Un by lia.
  replace (Z.succ (Z.log2 d)) with (Z.log2 d + 1)%Z in Ud by lia.
  rewrite pow2_add in Un, Ud. simpl (powerRZ 2 1) in Un, Ud.
  assert (Hl : powerRZ 2 (Z.log2 n) = powerRZ 2 l * powerRZ 2 (Z.log2 d)).
  { rewrite <- pow2_add. f_equal. unfold l. lia. }
  pose proof (pow2_pos l). pose proof (pow2_pos (Z.log2 d)).
  assert (0 < IZR d) by (apply IZR_lt; lia).
  assert (0 < IZR n) by (apply IZR_lt; lia).
  assert (Hq : forall x, x * IZR d <= IZR n <-> x <= IZR n / IZR d).
  { intros x. split; intros Hx.
    - apply Rmult_le_reg_r with (IZR d); auto.
      replace (IZR n / IZR d * IZR d) with (IZR n) by (field; lra). exact Hx.
    - apply Rmult_le_compat_r with (r := IZR d) in Hx; [|lra].
      replace (IZR n / IZR d * IZR d) with (IZR n) in Hx by (field; lra).
      exact Hx. }
  assert (Hq' : forall x, IZR n < x * IZR d <-> IZR n / IZR d < x).
  { intros x. split; intros Hx.
    - apply Rmult_lt_reg_r with (IZR d); auto.
      replace (IZR n / IZR d * IZR d) with (IZR n) by (field; lra). exact Hx.
    - apply Rmult_lt_compat_r with (r := IZR d) in Hx; [|lra].
      replace (IZR n / IZR d * IZR d) with (IZR n) in Hx by (field; lra).
      exact Hx. }
  destruct (Z.leb_spec (d * 2 ^ Z.max l 0) (n * 2 ^ Z.max (- l) 0)) as [T|T].
  - apply IZR_le in T. rewrite !mult_IZR, (pow2_max l) in T.
    pose proof (IZR_pow2_pos (- l)).
    assert (T' : powerRZ 2 l * IZR d <= IZR n) by nra.
    split; [now apply Hq|]. apply Hq'. rewrite pow2_add. simpl (powerRZ 2 1).
    nra.
  - apply IZR_lt in T. rewrite !mult_IZR, (pow2_max l) in T.
    pose proof (IZR_pow2_pos (- l)).
    assert (T' : IZR n < powerRZ 2 l * IZR d) by nra.
    replace (l - 1 + 1)%Z with l by lia.
    split; [|now apply Hq']. apply Hq.
    assert (E : powerRZ 2 l = powerRZ 2 (l - 1) * 2).
    { replace l with ((l - 1) + 1)%Z at 1 by lia. rewrite pow2_add.
      simpl. lra. }
    pose proof (pow2_pos (l - 1)). nra.
Qed.

Lemma round_half_even_R n d :
  (0 < d)%Z ->
  - (1 / 2) <= IZR (round_half_even n d) - IZR n / IZR d <= 1 / 2.
Proof.
  intros Hd. pose proof (round_half_even_spec n d Hd) as H.
  assert (0 < IZR d) by (apply IZR_lt; lia).
  set (k := round_half_even n d) in *.
  assert (H1 : (- d <= 2 * (k * d - n) <= d)%Z) by lia.
  destruct H1 as [Ha Hb]. apply IZR_le in Ha, Hb.
  rewrite opp_IZR in Ha. rewrite !mult_IZR, minus_IZR, mult_IZR in Ha, Hb.
  replace (IZR k - IZR n / IZR d) with ((IZR k * IZR d - IZR n) / IZR d)
    by (field; lra).
  split.
  - apply Rmult_le_reg_r with (IZR d); auto.
    replace ((IZR k * IZR d - IZR n) / IZR d * IZR d)
      with (IZR k * IZR d - IZR n) by (field; lra). lra.
  - apply Rmult_le_reg_r with (IZR d); auto.
    replace ((IZR k * IZR d - IZR n) / IZR d * IZR d)
      with (IZR k * IZR d - IZR n) by (field; lra). lra.
Qed.

(** In the normal range [round_to_float] returns a finite number within a
    relative error of [2^-53] of the quotient. *)
Lemma round_to_float_spec s n d :
  (0 < n)%Z -> (0 < d)%Z ->
  (-1022 <= floor_log2 n d <= 1022)%Z ->
  exists m e,
    round_to_float s n d = S754_finite s m e
    /\ - (powerRZ 2 (-53) * (IZR n / IZR d))
       <= IZR (Zpos m) * powerRZ 2 e - IZR n / IZR d
       <= powerRZ 2 (-53) * (IZR n / IZR d).
Proof.
  intros Hn Hd HL. unfold round_to_float.
  destruct (Z.eqb_spec n 0) as [|_]; [lia|].
  destruct (floor_log2_spec n d Hn Hd) as [Lo Hi].
  set (L := floor_log2 n d) in *. cbv zeta.
  rewrite (Z.max_l (L - 52) (-1074)) by lia. set (e := (L - 52)%Z).
  set (q := IZR n / IZR d) in *.
  assert (Hdp : (0 < d * 2 ^ Z.max e 0)%Z).
  { apply Z.mul_pos_pos; [lia | apply Z.pow_pos_nonneg; lia]. }
  pose proof (round_half_even_R (n * 2 ^ Z.max (- e) 0) (d * 2 ^ Z.max e 0) Hdp)
    as Hr.
  rewrite scaled_quotient in Hr by lia. fold q in Hr.
  set (m0 := round_half_even (n * 2 ^ Z.max (- e) 0) (d * 2 ^ Z.max e 0)) in *.
  pose proof (pow2_pos e) as He.
  assert (E52 : powerRZ 2 L = powerRZ 2 52 * powerRZ 2 e).
  { rewrite <- pow2_add. f_equal. unfold e. lia. }
  assert (E53 : powerRZ 2 (L + 1) = powerRZ 2 53 * powerRZ 2 e).
  { rewrite <- pow2_add. f_equal. unfold e. lia. }
  assert (E53' : powerRZ 2 (-53) * powerRZ 2 L = powerRZ 2 e / 2).
  { rewrite <- pow2_add. replace (-53 + L)%Z with (e - 1)%Z by (unfold e; lia).
    replace e with ((e - 1) + 1)%Z at 2 by lia. rewrite pow2_add.
    simpl (powerRZ 2 1). lra. }
  rewrite <- (IZR_pow2 52) in E52 by lia.
  rewrite <- (IZR_pow2 53) in E53 by lia.
  set (qe := q / powerRZ 2 e) in *.
  assert (Hq : q = qe * powerRZ 2 e) by (unfold qe; field; lra).
  assert (Hlo : IZR (2 ^ 52) <= qe).
  { apply Rmult_le_reg_r with (powerRZ 2 e); auto. rewrite <- Hq. lra. }
  assert (Hhi : qe < IZR (2 ^ 53)).
  { apply Rmult_lt_reg_r with (powerRZ 2 e); auto. rewrite <- Hq. lra. }
  destruct Hr as [Hr1 Hr2].
  assert (M1 : (2 ^ 52 <= m0)%Z).
  { apply le_IZR. assert (IZR (2 ^ 52) - 1 < IZR m0) by lra.
    assert (2 ^ 52 - 1 < m0)%Z; [|apply IZR_le; lia].
    apply lt_IZR. rewrite minus_IZR. lra. }
  assert (M2 : (m0 <= 2 ^ 53)%Z).
  { assert (IZR m0 < IZR (2 ^ 53) + 1) by lra.
    assert (m0 < 2 ^ 53 + 1)%Z; [|lia].
    apply lt_IZR. rewrite plus_IZR. lra. }
  assert (Hbound : - (powerRZ 2 (-53) * q) <= IZR m0 * powerRZ 2 e - q
                   <= powerRZ 2 (-53) * q).
  { rewrite Hq at 1.
    replace (IZR m0 * powerRZ 2 e - qe * powerRZ 2 e)
      with ((IZR m0 - qe) * powerRZ 2 e) by ring.
    assert (powerRZ 2 e / 2 <= powerRZ 2 (-53) * q).
    { rewrite <- E53'. pose proof (pow2_pos (-53)). nra. }
    split; nra. }
  destruct (Z.eqb_spec m0 (2 ^ 53)) as [E|NE].
  - change (2 ^ 52)%Z with (Zpos 4503599627370496).
    destruct (Z.leb_spec (e + 1) 971) as [_|]; [|unfold e in *; lia].
    exists 4503599627370496%positive, (e + 1)%Z. split; [reflexivity|].
    rewrite pow2_add. simpl (powerRZ 2 1).
    replace (IZR (Zpos 4503599627370496) * (powerRZ 2 e * (2 * 1)))
      with (IZR m0 * powerRZ 2 e); [exact Hbound|].
    rewrite E. change (2 ^ 53)%Z with (2 * 4503599627370496)%Z.
    rewrite mult_IZR. ring.
  - destruct m0 as [|pm|pm]; try (exfalso; lia).
    destruct (Z.leb_spec e 971) as [_|]; [|unfold e in *; lia].
    exists pm, e. split; [reflexivity | exact Hbound].
Qed.

Lemma value_of_fraction m e v :
  (Zpos m * 2 ^ Z.max e 0 = v * 2 ^ Z.max (- e) 0)%Z ->
  IZR (Zpos m) * powerRZ 2 e = IZR v.
Proof.
  intros E. apply (f_equal IZR) in E. rewrite !mult_IZR, (pow2_max e) in E.
  pose proof (IZR_pow2_pos (- e)). nra.
Qed.

Lemma fraction_of_value m e :
  IZR (Zpos m * 2 ^ Z.max e 0) / IZR (2 ^ Z.max (- e) 0)
  = IZR (Zpos m) * powerRZ 2 e.
Proof.
  rewrite mult_IZR, (pow2_max e). pose proof (IZR_pow2_pos (- e)).
  field. lra.
Qed.

(** The powers of ten up to [10^22] are binary64 numbers. *)
Lemma float_of_pow10 d :
  (d <= 22)%nat ->
  exists m e,
    float_of_int (10 ^ Z.of_nat d) = Ok (S754_finite false m e)
    /\ IZR (Zpos m) * powerRZ 2 e = IZR (10 ^ Z.of_nat d).
Proof.
  intros Hd.
  do 23 (destruct d as [|d];
         [eexists; eexists; split;
          [vm_compute; reflexivity
          | apply value_of_fraction; vm_compute; reflexivity]|]).
  lia.
Qed.

Lemma pow2_m53 : powerRZ 2 (-53) * 9007199254740992 = 1.
Proof.
  change 9007199254740992 with (IZR (2 ^ 53)).
  rewrite (IZR_pow2 53) by lia. rewrite <- pow2_add. reflexivity.
Qed.

Lemma pow10_bounds d :
  (d <= 22)%nat -> (1 <= 10 ^ Z.of_nat d <= 10 ^ 22)%Z.
Proof.
  intros Hd. split.
  - assert (0 < 10 ^ Z.of_nat d)%Z by (apply Z.pow_pos_nonneg; lia). lia.
  - apply Z.pow_le_mono_r; lia.
Qed.

Lemma shifted_value m e :
  IZR (m * 2 ^ Z.max e 0) / IZR (2 ^ Z.max (- e) 0) = IZR m * powerRZ 2 e.
Proof.
  rewrite mult_IZR, (pow2_max e). pose proof (IZR_pow2_pos (- e)).
  field. lra.
Qed.

Lemma floor_log2_range n d lo hi :
  (0 < n)%Z -> (0 < d)%Z ->
  powerRZ 2 lo <= IZR n / IZR d < powerRZ 2 hi ->
  (lo <= floor_log2 n d < hi)%Z.
Proof.
  intros Hn Hd [Hlo Hhi].
  destruct (floor_log2_spec n d Hn Hd) as [H1 H2].
  split.
  - assert (lo < floor_log2 n d + 1)%Z by (apply pow2_lt_inv; lra). lia.
  - apply pow2_lt_inv; lra.
Qed.

Lemma pow2_opp k : (0 <= k)%Z -> powerRZ 2 (- k) * IZR (2 ^ k) = 1.
Proof.
  intros Hk. rewrite (IZR_pow2 k Hk), <- pow2_add.
  replace (- k + k)%Z with 0%Z by lia. reflexivity.
Qed.

(** Dividing a whole number of ticks [N] by [10^d] and scaling the quotient
    back gives [N] again, as long as [N] leaves three bits of the mantissa
    free and [10^d] is itself a float. *)
Lemma ticks_of_quotient d N a :
  (d <= 22)%nat -> (Z.abs N <= 2 ^ 50)%Z ->
  int_true_div N (10 ^ Z.of_nat d) = Ok a ->
  ticks a d = Ok N.
Proof.
  intros Hd HN.
  pose proof (pow10_bounds d Hd) as HF.
  destruct (float_of_pow10 d Hd) as (mF & eF & EF & HvF).
  set (F := (10 ^ Z.of_nat d)%Z) in *.
  unfold int_true_div.
  destruct (Z.eqb_spec F 0) as [|_]; [lia|].
  replace (F <? 0)%Z with false by (symmetry; apply Z.ltb_ge; lia).
  rewrite xorb_false_r, (Z.abs_eq F) by lia.
  destruct (Z.eq_dec N 0) as [->|HN0].
  { cbn. intros [= <-]. unfold ticks, mul_int. fold F. rewrite EF.
    reflexivity. }
  set (s := (N <? 0)%Z).
  set (A := IZR (Z.abs N)).
  set (Fr := IZR F).
  assert (HA1 : 1 <= A) by (apply IZR_le; lia).
  assert (HA2 : A <= 1125899906842624) by (apply IZR_le; exact HN).
  assert (HF1 : 1 <= Fr) by (apply IZR_le; lia).
  assert (HF2 : Fr <= 18889465931478580854784).
  { apply IZR_le. transitivity (10 ^ 22)%Z; [lia|]. vm_compute. discriminate. }
  assert (Hq1 : A / Fr * Fr = A) by (field; lra).
  assert (Hu : powerRZ 2 (-53) = / 9007199254740992).
  { pose proof pow2_m53. apply Rmult_eq_reg_r with 9007199254740992; [|lra].
    rewrite H. field. }
  destruct (round_to_float_spec s (Z.abs N) F) as (ma & ea & Ea & Ha);
    [lia | lia | |].
  { assert (-74 <= floor_log2 (Z.abs N) F < 51)%Z; [|lia].
    apply floor_log2_range; [lia | lia |]. fold A Fr. split.
    - pose proof (pow2_opp 74 ltac:(lia)) as H74.
      change (IZR (2 ^ 74)) with 18889465931478580854784 in H74.
      cbn [Z.opp] in H74.
      pose proof (pow2_pos (-74)).
      apply Rmult_le_reg_r with Fr; [lra|]. rewrite Hq1.
      apply Rle_trans with (powerRZ 2 (-74) * 18889465931478580854784);
        [apply Rmult_le_compat_l; lra | lra].
    - rewrite <- (IZR_pow2 51) by lia.
      change (IZR (2 ^ 51)) with 2251799813685248.
      apply Rmult_lt_reg_r with Fr; [lra|]. rewrite Hq1. nra. }
  fold A Fr in Ha. rewrite Hu in Ha.
  rewrite Ea. intros [= <-].
  unfold ticks, mul_int. fold F. rewrite EF. cbn [mul].
  rewrite xorb_false_r.
  set (va := IZR (Z.pos ma) * powerRZ 2 ea) in *.
  assert (Hq2 : IZR (Z.pos ma * Z.pos mF * 2 ^ Z.max (ea + eF) 0)
                / IZR (2 ^ Z.max (- (ea + eF)) 0) = va * Fr).
  { rewrite shifted_value, mult_IZR, pow2_add. unfold va, Fr.
    rewrite <- HvF. ring. }
  assert (Hva : - (/ 9007199254740992 * A) <= va * Fr - A
                <= / 9007199254740992 * A).
  { split; nra. }
  destruct (round_to_float_spec s
              (Z.pos ma * Z.pos mF * 2 ^ Z.max (ea + eF) 0)
              (2 ^ Z.max (- (ea + eF)) 0)) as (my & ey & Ey & Hy).
  { apply Z.mul_pos_pos; [lia|]. apply Z.pow_pos_nonneg; lia. }
  { apply Z.pow_pos_nonneg; lia. }
  { assert (-1 <= floor_log2 (Z.pos ma * Z.pos mF * 2 ^ Z.max (ea + eF) 0)
                    (2 ^ Z.max (- (ea + eF)) 0) < 52)%Z; [|lia].
    apply floor_log2_range.
    - apply Z.mul_pos_pos; [lia|]. apply Z.pow_pos_nonneg; lia.
    - apply Z.pow_pos_nonneg; lia.
    - rewrite Hq2. split.
      + change (powerRZ 2 (-1)) with (/ (2 * 1)). lra.
      + rewrite <- (IZR_pow2 52) by lia.
        change (IZR (2 ^ 52)) with 4503599627370496. lra. }
  rewrite Hq2, Hu in Hy. rewrite Ey. cbn [round].
  set (vy := IZR (Z.pos my) * powerRZ 2 ey) in *.
  assert (Hclose : - (1 / 2) < vy - A < 1 / 2) by (split; lra).
  assert (Ek : round_half_even (Z.pos my * 2 ^ Z.max ey 0)
                 (2 ^ Z.max (- ey) 0) = Z.abs N).
  { apply round_half_even_unique; [apply Z.pow_pos_nonneg; lia|].
    apply lt_IZR. rewrite abs_IZR, !mult_IZR, minus_IZR, !mult_IZR.
    rewrite (pow2_max ey). fold A.
    pose proof (IZR_pow2_pos (- ey)) as HD.
    set (D := IZR (2 ^ Z.max (- ey) 0)) in *.
    replace (2 * (A * D - IZR (Z.pos my) * (powerRZ 2 ey * D)))
      with (2 * (A - vy) * D) by (unfold vy; ring).
    apply Rabs_def1; nra. }
  rewrite Ek. f_equal. unfold s.
  destruct (Z.ltb_spec N 0); lia.
Qed.

(** [adjust] is a projection on the prices it can represent: with at most 22
    decimals and at most [2^50] ticks, adjusting an adjusted price returns
    it unchanged. *)
Lemma adjust_idempotent d p N a :
  (d <= 22)%nat -> ticks p d = Ok N -> (Z.abs N <= 2 ^ 50)%Z ->
  adjust p d = Ok a -> adjust a d = Ok a.
Proof.
  intros Hd HN Hb. unfold adjust. rewrite HN. intros Ha.
  rewrite (ticks_of_quotient d N a Hd Hb Ha). exact Ha.
Qed.

Local Close Scope R_scope.

(** Claim C8, amended.  For a symbol whose price precision is at most 22
    and a price that [adjust_to_tick_size] rounds to at most [2^50] ticks,
    adjusting the adjusted price returns it unchanged. *)
Theorem adjust_to_tick_size_idempotent m p sym N a :
  (price_precision (resolve m sym) <= 22)%nat ->
  ticks p (price_precision (resolve m sym)) = Ok N ->
  (Z.abs N <= 2 ^ 50)%Z ->
  adjust_to_tick_size m p sym = Ok a ->
  adjust_to_tick_size m a sym = Ok a.
Proof.
  unfold adjust_to_tick_size. intros Hd HN Hb Ha.
  exact (adjust_idempotent _ p N a Hd HN Hb Ha).
Qed.

Lemma adjust_to_tick_size_idempotent_witness :
  (price_precision (resolve init "ETH-USDT") <= 22)%nat
  /\ ticks (literal 1234567 3) (price_precision (resolve init "ETH-USDT"))
     = Ok 123457
  /\ (Z.abs 123457 <= 2 ^ 50)%Z
  /\ adjust_to_tick_size init (literal 1234567 3) "ETH-USDT"
     = Ok (literal 123457 2)
  /\ adjust_to_tick_size init (literal 123457 2) "ETH-USDT"
     = Ok (literal 123457 2).
Proof.
  assert (H1 : (price_precision (resolve init "ETH-USDT") <= 22)%nat)
    by (vm_compute; lia).
  assert (H2 : ticks (literal 1234567 3)
                 (price_precision (resolve init "ETH-USDT")) = Ok 123457)
    by (vm_compute; reflexivity).
  assert (H3 : (Z.abs 123457 <= 2 ^ 50)%Z) by (vm_compute; discriminate).
  assert (H4 : adjust_to_tick_size init (literal 1234567 3) "ETH-USDT"
               = Ok (literal 123457 2)) by (vm_compute; reflexivity).
  split; [exact H1|]. split; [exact H2|]. split; [exact H3|].
  split; [exact H4|].
  exact (adjust_to_tick_size_idempotent init (literal 1234567 3) "ETH-USDT"
           123457 (literal 123457 2) H1 H2 H3 H4).
Defined.

(** Claim C8 as stated does not hold: with 23 decimals, [10 ** 23] is not a
    float, and adjusting 1.0 twice gives two different prices. *)
Lemma adjust_to_tick_size_not_idempotent :
  ~ (forall m p sym a,
        adjust_to_tick_size m p sym = Ok a ->
        adjust_to_tick_size m a sym = Ok a).
Proof.
  intros H.
  assert (E : adjust_to_tick_size fine_manager (literal 1 0) "FINE"
              = Ok (S754_finite false 9007199254740991 (-53)))
    by (vm_compute; reflexivity).
  apply H in E. vm_compute in E. discriminate E.
Qed.

(** Claim C9.  With a price precision of 2, the price 0.125, which lies
    half-way between 0.12 and 0.13, is adjusted to 0.12: [round] resolves
    the tie towards the even number of ticks, not away from zero. *)
Theorem adjust_half_way_to_even m sym :
  price_precision (resolve m sym) = 2%nat ->
  adjust_to_tick_size m (literal 125 3) sym = Ok (literal 12 2)
  /\ literal 12 2 <> literal 13 2.
Proof.
  intros Hd. unfold adjust_to_tick_size. rewrite Hd. split.
  - vm_compute. reflexivity.
  - vm_compute. discriminate.
Qed.

Lemma adjust_half_way_to_even_witness :
  price_precision (resolve init "ZZZ-USDT") = 2%nat
  /\ adjust_to_tick_size init (literal 125 3) "ZZZ-USDT" = Ok (literal 12 2)
  /\ literal 12 2 <> literal 13 2.
Proof.
  assert (H : price_precision (resolve init "ZZZ-USDT") = 2%nat)
    by reflexivity.
  split; [exact H|].
  exact (adjust_half_way_to_even init "ZZZ-USDT" H).
Defined.

(** *** What [adjust_to_tick_size] accepts and returns *)

Lemma round_to_float_finite s n d :
  round_to_float s n d <> S754_nan.
Proof.
  unfold round_to_float. destruct (n =? 0); [discriminate|].
  cbv zeta.
  destruct (if _ =? 2 ^ 53 then 2 ^ 52 else _); try discriminate.
  destruct (_ <=? 971); discriminate.
Qed.

Lemma float_of_int_finite z y : float_of_int z = Ok y -> is_finite y = true.
Proof.
  unfold float_of_int.
  pose proof (round_to_float_finite (z <? 0) (Z.abs z) 1) as Hn.
  destruct (round_to_float (z <? 0) (Z.abs z) 1); try discriminate;
    intros [= <-]; auto; congruence.
Qed.

(** [adjust_to_tick_size] never returns for a price that is not a number:
    for NaN and for the infinities, [round] (or, with more than 308
    decimals, the conversion of the factor) raises. *)
Theorem adjust_rejects_non_numbers m sym price :
  is_finite price = false ->
  exists e, adjust_to_tick_size m price sym = Err e.
Proof.
  intros Hp. unfold adjust_to_tick_size, adjust, ticks, mul_int.
  destruct (float_of_int (10 ^ Z.of_nat (price_precision (resolve m sym))))
    as [y|e] eqn:E; [|eauto].
  apply float_of_int_finite in E.
  destruct price as [s|s| |s pm pe]; try discriminate;
    destruct y as [sy|sy| |sy my ey]; try discriminate; simpl; eauto.
Qed.

Lemma adjust_rejects_non_numbers_witness :
  exists e, adjust_to_tick_size init S754_nan "ETH-USDT" = Err e.
Proof.
  apply (adjust_rejects_non_numbers init "ETH-USDT" S754_nan). reflexivity.
Defined.

(** A price returned by [adjust_to_tick_size] is a number: never NaN and
    never an infinity (a quotient that overflows raises instead). *)
Theorem adjusted_price_is_finite m price sym a :
  adjust_to_tick_size m price sym = Ok a -> is_finite a = true.
Proof.
  unfold adjust_to_tick_size, adjust.
  destruct (ticks price _) as [n|e]; [|discriminate].
  unfold int_true_div. destruct (_ =? 0); [discriminate|].
  match goal with
  | |- match ?r with _ => _ end = _ -> _ =>
      pose proof (round_to_float_finite
                    (xorb (n <? 0)
                       (10 ^ Z.of_nat (price_precision (resolve m sym)) <? 0))
                    (Z.abs n)
                    (Z.abs (10 ^ Z.of_nat (price_precision (resolve m sym)))))
        as Hn;
      destruct r; try discriminate; intros [= <-]; auto; congruence
  end.
Qed.

Lemma adjusted_price_is_finite_witness :
  is_finite (literal 123457 2) = true.
Proof.
  apply (adjusted_price_is_finite init (literal 1234567 3) "ETH-USDT"
           (literal 123457 2)).
  vm_compute. reflexivity.
Defined.

Local Open Scope R_scope.

(** The adjusted price is the float nearest to a whole number of ticks: with
    at most 22 decimals and at most [2^50] ticks [N], it differs from
    [N / 10^d] by at most the relative rounding error [2^-53]. *)
Theorem adjusted_price_accuracy m price sym N a :
  (price_precision (resolve m sym) <= 22)%nat ->
  ticks price (price_precision (resolve m sym)) = Ok N ->
  (Z.abs N <= 2 ^ 50)%Z ->
  adjust_to_tick_size m price sym = Ok a ->
  Rabs (value a
        - IZR N / IZR (10 ^ Z.of_nat (price_precision (resolve m sym))))
  <= powerRZ 2 (-53)
     * Rabs (IZR N / IZR (10 ^ Z.of_nat (price_precision (resolve m sym)))).
Proof.
  unfold adjust_to_tick_size, adjust.
  set (d := price_precision (resolve m sym)).
  intros Hd HN Hb. rewrite HN.
  pose proof (pow10_bounds d Hd) as HF.
  set (F := (10 ^ Z.of_nat d)%Z) in *.
  unfold int_true_div.
  destruct (Z.eqb_spec F 0) as [|_]; [lia|].
  replace (F <? 0)%Z with false by (symmetry; apply Z.ltb_ge; lia).
  rewrite xorb_false_r, (Z.abs_eq F) by lia.
  destruct (Z.eq_dec N 0) as [->|HN0].
  { cbn. intros [= <-]. simpl value.
    unfold Rdiv. rewrite Rmult_0_l, Rminus_0_r, Rabs_R0. lra. }
  set (A := IZR (Z.abs N)).
  set (Fr := IZR F).
  assert (HA1 : 1 <= A) by (apply IZR_le; lia).
  assert (HA2 : A <= 1125899906842624) by (apply IZR_le; exact Hb).
  assert (HF1 : 1 <= Fr) by (apply IZR_le; lia).
  assert (HF2 : Fr <= 18889465931478580854784).
  { apply IZR_le. transitivity (10 ^ 22)%Z; [lia|]. vm_compute. discriminate. }
  assert (Hq1 : A / Fr * Fr = A) by (field; lra).
  destruct (round_to_float_spec (N <? 0)%Z (Z.abs N) F) as (ma & ea & Ea & Ha);
    [lia | lia | |].
  { assert (-74 <= floor_log2 (Z.abs N) F < 51)%Z; [|lia].
    apply floor_log2_range; [lia | lia |]. fold A Fr. split.
    - pose proof (pow2_opp 74 ltac:(lia)) as H74.
      change (IZR (2 ^ 74)) with 18889465931478580854784 in H74.
      cbn [Z.opp] in H74.
      pose proof (pow2_pos (-74)).
      apply Rmult_le_reg_r with Fr; [lra|]. rewrite Hq1.
      apply Rle_trans with (powerRZ 2 (-74) * 18889465931478580854784);
        [apply Rmult_le_compat_l; lra | lra].
    - rewrite <- (IZR_pow2 51) by lia.
      change (IZR (2 ^ 51)) with 2251799813685248.
      apply Rmult_lt_reg_r with Fr; [lra|]. rewrite Hq1. nra. }
  fold A Fr in Ha. rewrite Ea. intros [= <-]. cbn [value].
  pose proof (pow2_pos (-53)) as Hu.
  assert (Hq : 0 < A / Fr) by (apply Rdiv_lt_0_compat; lra).
  destruct (Z.ltb_spec N 0) as [Hneg|Hpos].
  - assert (EN : IZR N = - A) by (unfold A; rewrite abs_IZR, Rabs_left;
      [lra | apply IZR_lt; lia]).
    rewrite EN.
    replace (- A / Fr) with (- (A / Fr)) by (field; lra).
    rewrite Rabs_Ropp, (Rabs_pos_eq (A / Fr)) by lra.
    apply Rabs_le. split; nra.
  - assert (EN : IZR N = A) by (unfold A; rewrite abs_IZR, Rabs_pos_eq;
      [lra | apply IZR_le; lia]).
    rewrite EN, (Rabs_pos_eq (A / Fr)) by lra.
    apply Rabs_le. split; nra.
Qed.

Lemma adjusted_price_accuracy_witness :
  Rabs (value (literal 123457 2)
        - IZR 123457
          / IZR (10 ^ Z.of_nat (price_precision (resolve init "ETH-USDT"))))
  <= powerRZ 2 (-53)
     * Rabs (IZR 123457
             / IZR (10 ^ Z.of_nat
                            (price_precision (resolve init "ETH-USDT")))).
Proof.
  apply (adjusted_price_accuracy init (literal 1234567 3) "ETH-USDT" 123457
           (literal 123457 2)).
  - vm_compute. lia.
  - vm_compute. reflexivity.
  - vm_compute. discriminate.
  - vm_compute. reflexivity.
Defined.

End FloatFacts.
